(** * FamPlex: import of HGNC gene families ([import/hgnc_families.py])

    A shallow embedding of the importer script and the properties of its
    identifier normaliser, hierarchy flattener, redundancy detector and
    relation set builder.

    Conventions of the embedding.
    - A Python [str] is a [string]; every character is a code point below
      256.  In that range the Unicode decimal digits are exactly ["0"] to
      ["9"], which is what [\d] matches.
    - A raised exception is a value of [exn]; a computation that may raise
      has type [result A].
    - A [dict] that is only looked up is a [gmap]; a [dict] whose iteration
      order is observable is an insertion-ordered association list.
    - A [set] is the list of the elements inserted into it; the order in
      which Python iterates over it is not determined by the program (it
      depends on the hash seed of the process), so it is a parameter
      ([iter]) of every function that iterates over a set. *)

From Stdlib Require Import Ascii String ZArith Lia DecimalString DecimalPos.
From stdpp Require Import base tactics option list gmap strings sorting
  relations.

Local Open Scope stdpp_scope.

(** ** Exceptions and the result monad *)

Inductive exn : Type :=
  | KeyError (key : string)
  | TypeError
  | ValueError
  | IndexError
  | RecursionError.

Inductive result (A : Type) : Type :=
  | Ok (a : A)
  | Raise (e : exn).
Arguments Ok {A} a.
Arguments Raise {A} e.

Global Instance result_ret : MRet result := @Ok.
Global Instance result_bind : MBind result := λ A B f m,
  match m with
  | Ok a => f a
  | Raise e => Raise e
  end.

Definition is_Ok {A} (m : result A) : Prop := ∃ a, m = Ok a.

(** ** Python strings *)

Module Str.

Definition to_list : string → list ascii := list_ascii_of_string.
Definition of_list : list ascii → string := string_of_list_ascii.

(** [str.isspace] on one character, for code points below 256. *)
Definition isspace (c : ascii) : bool :=
  let n := nat_of_ascii c in
  ((9 <=? n) && (n <=? 13)) || ((28 <=? n) && (n <=? 32))
  || (n =? 133) || (n =? 160).

(** A Unicode decimal digit, which below 256 is one of ["0"] to ["9"]. *)
Definition isdigit (c : ascii) : bool :=
  let n := nat_of_ascii c in (48 <=? n) && (n <=? 57).

Fixpoint lstrip_list (l : list ascii) : list ascii :=
  match l with
  | [] => []
  | c :: l' => if isspace c then lstrip_list l' else l
  end.

(** [s.strip()] *)
Definition strip (s : string) : string :=
  of_list (reverse (lstrip_list (reverse (lstrip_list (to_list s))))).

Fixpoint is_prefix (p l : list ascii) : bool :=
  match p, l with
  | [], _ => true
  | _ :: _, [] => false
  | a :: p', b :: l' => bool_decide (a = b) && is_prefix p' l'
  end.

(** The scan of [str.replace] for a non-empty [old]: left to right, an
    occurrence that is replaced is skipped as a whole. *)
Fixpoint replace_go (old new : list ascii) (skip : nat) (l : list ascii)
  : list ascii :=
  match l with
  | [] => []
  | c :: l' =>
      match skip with
      | S k => replace_go old new k l'
      | O =>
          if is_prefix old l
          then new ++ replace_go old new (length old - 1) l'
          else c :: replace_go old new 0 l'
      end
  end.

(** [s.replace(old, new)] *)
Definition replace (old new s : string) : string :=
  match to_list old with
  | [] => of_list (to_list new ++
                   flat_map (λ c, c :: to_list new) (to_list s))
  | o => of_list (replace_go o (to_list new) 0 (to_list s))
  end.

(** Truth value of a [str]: non-empty. *)
Definition truthy (s : string) : bool :=
  match s with
  | EmptyString => false
  | String _ _ => true
  end.

End Str.

(** ** The fragment of [re] that the module uses

    A pattern is a sequence of items: a character class with a quantifier,
    or one of the anchors [^] and [$] (no flags: [.] excludes the newline,
    [^] holds at the start of the string only, [$] holds at the end of the
    string and before a newline that ends the string). *)

Module Re.

Inductive cclass : Type :=
  | Dot
  | Digit
  | Lit (c : ascii).

Inductive quant : Type :=
  | One
  | Star
  | Plus.

Inductive item : Type :=
  | Atom (c : cclass) (q : quant)
  | Bol
  | Eol.

Definition newline : ascii := ascii_of_nat 10.

Definition in_class (k : cclass) (c : ascii) : bool :=
  match k with
  | Dot => negb (bool_decide (c = newline))
  | Digit => Str.isdigit c
  | Lit a => bool_decide (c = a)
  end.

Definition at_eol (l : list ascii) : bool :=
  match l with
  | [] => true
  | [c] => bool_decide (c = newline)
  | _ => false
  end.

(** Zero or more characters of the class, then the continuation [k];
    the flag tells whether the position is still the start. *)
Fixpoint star_then (cls : ascii → bool) (k : bool → list ascii → bool)
    (start : bool) (l : list ascii) : bool :=
  k start l ||
  match l with
  | [] => false
  | c :: l' => cls c && star_then cls k false l'
  end.

Fixpoint match_here (r : list item) (start : bool) (l : list ascii)
  : bool :=
  match r with
  | [] => true
  | Bol :: r' => start && match_here r' start l
  | Eol :: r' => at_eol l && match_here r' start l
  | Atom k One :: r' =>
      match l with
      | [] => false
      | c :: l' => in_class k c && match_here r' false l'
      end
  | Atom k Star :: r' => star_then (in_class k) (match_here r') start l
  | Atom k Plus :: r' =>
      match l with
      | [] => false
      | c :: l' =>
          in_class k c && star_then (in_class k) (match_here r') false l'
      end
  end.

(** [re.match(r, s) is not None] for a [str] or [None] argument. *)
Definition is_match (r : list item) (s : option string) : result bool :=
  match s with
  | None => Raise TypeError
  | Some s => Ok (match_here r true (Str.to_list s))
  end.

End Re.

(** ** Identifier normaliser *)

Abbreviation family := (gmap string string).

(** [d[k]] on a [dict]. *)
Definition getitem {V} (d : gmap string V) (k : string) : result V :=
  match d !! k with
  | Some v => Ok v
  | None => Raise (KeyError k)
  end.

Definition replaces : list (string * string) :=
  [(" ", "_"); ("-", "_"); (",", EmptyString)].

Definition get_famplex_id (fam : family) : result string :=
  abbreviation ← getitem fam "abbreviation";
  if Str.truthy abbreviation
  then Ok (Str.replace ", " "_" (Str.strip abbreviation))
  else
    name ← getitem fam "name";
    Ok (foldl (λ name kv, Str.replace kv.1 kv.2 name) (Str.strip name)
          replaces).

(** The pattern [^.*\d+P$]. *)
Definition pseudogene_re : list Re.item :=
  [Re.Bol; Re.Atom Re.Dot Re.Star; Re.Atom Re.Digit Re.Plus;
   Re.Atom (Re.Lit "P"%char) Re.One; Re.Eol].

Definition is_pseudogene (gene : option string) : result bool :=
  Re.is_match pseudogene_re gene.

(** ** Relations and the catalogue *)

(** A relation is the 6-tuple
    [(source namespace, source id, kind, target namespace, target id, root)]. *)
Definition relation : Type :=
  (string * string * string * string * string * string)%type.

Definition rel_sns (r : relation) : string := r.1.1.1.1.1.
Definition rel_sid (r : relation) : string := r.1.1.1.1.2.
Definition rel_kind (r : relation) : string := r.1.1.1.2.
Definition rel_tns (r : relation) : string := r.1.1.2.
Definition rel_tid (r : relation) : string := r.1.2.
Definition rel_root (r : relation) : string := r.2.

(** A [for] loop whose body may raise. *)
Fixpoint for_each {A S} (body : S → A → result S) (l : list A) (s : S)
  : result S :=
  match l with
  | [] => Ok s
  | x :: l' => s' ← body s x; for_each body l' s'
  end.

(** [l[0]] *)
Definition index0 {A} (l : list A) : result A :=
  match l with
  | x :: _ => Ok x
  | [] => Raise IndexError
  end.

(** Truth value of the result of [dict.get]: [None] and the empty list are
    false. *)
Definition list_truthy {A} (o : option (list A)) : bool :=
  match o with
  | None | Some [] => false
  | Some (_ :: _) => true
  end.

Definition pseudogene_msg (gene_name : string) : string :=
  "Assuming " +:+ gene_name +:+ " is a pseudogene, skipping".

Definition one_member_msg (child_id gene_name famplex_id : string) : string :=
  "HGNC family " +:+ child_id +:+ " has one gene member " +:+ gene_name +:+
  " which will be linked directly to " +:+ famplex_id.

(** ** Hierarchy flattener *)

Section Flattener.

(** The module-level indexes read from the HGNC tables, and the name
    service [hgnc_client.get_hgnc_name], which answers [None] for an
    identifier it does not know. *)
Variable families : gmap string family.
Variable children : gmap string (list string).
Variable family_to_gene : gmap string (list string).
Variable get_hgnc_name : string → option string.

(** [family_to_gene[k]] on the [defaultdict(list)]. *)
Definition genes_of (k : string) : list string :=
  default [] (family_to_gene !! k).

(** The state threaded through the traversal: the shared list
    [relations] and the lines printed so far. *)
Definition flat_state : Type := (list relation * list string)%type.

(** The name of a gene and the outcome of the pseudogene test on it; the
    test raises on [None], so the name is a [str] afterwards. *)
Definition named_gene (gene : string) : result (string * bool) :=
  let gene_name := get_hgnc_name gene in
  pseudo ← is_pseudogene gene_name;
  match gene_name with
  | Some name => Ok (name, pseudo)
  | None => Raise TypeError
  end.

(** Body of the loop over the gene members (lines 92-98). *)
Definition gene_step (famplex_id root_id : string) (st : flat_state)
    (gene : string) : result flat_state :=
  '(gene_name, pseudo) ← named_gene gene;
  if (pseudo : bool)
  then Ok (st.1, st.2 ++ [pseudogene_msg gene_name])
  else Ok (st.1 ++ [("HGNC", gene_name, "isa", "FPLX", famplex_id, root_id)],
           st.2).

(** The test of line 109. *)
Definition collapses (child_id : string) : bool :=
  negb (list_truthy (children !! child_id))
  && bool_decide (length (genes_of child_id) = 1).

(** Body of the loop over the children (lines 102-127); [rec] is the
    recursive call. *)
Definition child_step (rec : string → flat_state → result flat_state)
    (famplex_id root_id : string) (st : flat_state) (child_id : string)
  : result flat_state :=
  if collapses child_id
  then
    gene ← index0 (genes_of child_id);
    '(gene_name, pseudo) ← named_gene gene;
    if (pseudo : bool)
    then Ok (st.1, st.2 ++ [pseudogene_msg gene_name])
    else Ok (st.1 ++ [("HGNC", gene_name, "isa", "FPLX", famplex_id,
                       root_id)],
             st.2 ++ [one_member_msg child_id gene_name famplex_id])
  else
    child_info ← getitem families child_id;
    child_famplex_id ← get_famplex_id child_info;
    rec child_id
      (st.1 ++ [("FPLX", child_famplex_id, "isa", "FPLX", famplex_id,
                 root_id)],
       st.2).

(** [get_relations_from_root(root_id, relations=None)], with the lines
    printed so far; [depth] is the number of nested calls that the
    interpreter still allows (exceeding it raises [RecursionError]). *)
Fixpoint get_relations_from_root (depth : nat) (root_id : string)
    (relations : option (list relation)) (out : list string)
  : result flat_state :=
  match depth with
  | O => Raise RecursionError
  | S depth' =>
      let relations := default [] relations in
      family_info ← getitem families root_id;
      let child_ids := children !! root_id in
      famplex_id ← get_famplex_id family_info;
      st ← for_each (gene_step famplex_id root_id) (genes_of root_id)
             (relations, out);
      match child_ids with
      | None => Ok st
      | Some child_ids =>
          for_each
            (child_step
               (λ child_id st,
                  get_relations_from_root depth' child_id (Some st.1) st.2)
               famplex_id root_id)
            child_ids st
      end
  end.

End Flattener.

(** ** Source loader

    [read_csv_from_ftp] is the data provider; the readers are given the
    rows it yields. *)

Definition unpack2 (row : list string) : result (string * string) :=
  match row with
  | [a; b] => Ok (a, b)
  | _ => Raise ValueError
  end.

(** [d[k].append(v)] on a [defaultdict(list)]. *)
Definition append_at (k v : string) (d : gmap string (list string))
  : gmap string (list string) :=
  <[k := default [] (d !! k) ++ [v]]> d.

(** [{k: v for k, v in pairs}]: a later pair overwrites an earlier one. *)
Definition dict_of_pairs (pairs : list (string * string)) : family :=
  foldl (λ d kv, <[kv.1 := kv.2]> d) ∅ pairs.

Definition enumerate {A} (l : list A) : list (nat * A) :=
  zip (seq 0 (length l)) l.

Definition _read_hgnc_family_genes (rows : list (list string))
  : result (gmap string (list string) * gmap string (list string)) :=
  for_each
    (λ '(gene_to_family, family_to_gene) row,
       '(gene_id, family_id) ← unpack2 row;
       Ok (append_at gene_id family_id gene_to_family,
           append_at family_id gene_id family_to_gene))
    rows (∅, ∅).

Definition _read_family_info (rows : list (list string))
  : result (gmap string family) :=
  st ← for_each
         (λ '(header, families) '(idx, row),
            if bool_decide (idx = 0)
            then Ok (row, families)
            else
              key ← index0 row;
              Ok (header, <[key := dict_of_pairs (zip header row)]> families))
         (enumerate rows) ([], ∅);
  Ok st.2.

Definition _read_hierarchy_info (rows : list (list string))
  : result (gmap string (list string)) :=
  for_each
    (λ children '(idx, row),
       '(parent, child) ← unpack2 row;
       if bool_decide (idx = 0)
       then Ok children
       else Ok (append_at parent child children))
    (enumerate rows) ∅.

(** ** Sets, sorting and conversions

    A [set] is represented by the list of the elements added to it.
    Iterating over it goes through an iteration order [iter], a function
    from that list to a duplicate-free rearrangement of it. *)

Definition set_eqb (s1 s2 : list string) : bool :=
  forallb (λ x, bool_decide (x ∈ s2)) s1
  && forallb (λ x, bool_decide (x ∈ s1)) s2.

(** Stable insertion of [x] into a list sorted by [key]: [x] goes before
    the first element whose key is not below its own. *)
Fixpoint insert_by {A K} (le : K → K → bool) (key : A → K) (x : A)
    (l : list A) : list A :=
  match l with
  | [] => [x]
  | y :: l' =>
      if le (key x) (key y) then x :: l else y :: insert_by le key x l'
  end.

(** [sorted(l, key=key)]: a stable sort. *)
Definition sorted {A K} (le : K → K → bool) (key : A → K) (l : list A)
  : list A :=
  foldr (insert_by le key) [] l.

(** [sorted(l, key=key)] for a key that may raise: the keys of all the
    elements are computed first. *)
Definition sorted_raising {A K} (le : K → K → bool) (key : A → result K)
    (l : list A) : result (list A) :=
  decorated ← for_each (λ acc x, k ← key x; Ok (acc ++ [(k, x)])) l [];
  Ok ((sorted le fst decorated).*2).

(** Order of pairs of strings, as Python compares tuples. *)
Definition pair_leb (k1 k2 : string * string) : bool :=
  if bool_decide (k1.1 = k2.1) then String.leb k1.2 k2.2
  else String.leb k1.1 k2.1.

Fixpoint digits_go (acc : Z) (after_digit : bool) (l : list ascii)
  : option Z :=
  match l with
  | [] => if after_digit then Some acc else None
  | c :: l' =>
      if Str.isdigit c
      then digits_go (10 * acc + Z.of_nat (nat_of_ascii c - 48)) true l'
      else if bool_decide (c = "_"%char) && after_digit
           then match l' with
                | [] => None
                | _ :: _ => digits_go acc false l'
                end
           else None
  end.

(** The white space that [int] skips around the digits, for code points
    below 256: the white space of C (tab to carriage return, and the
    blank), and the two white-space characters above 127, which the
    conversion first replaces by a blank.  The separators U+001C to U+001F
    are white space for [str.strip] but not here. *)
Definition int_isspace (c : ascii) : bool :=
  let n := nat_of_ascii c in
  ((9 <=? n) && (n <=? 13)) || (n =? 32) || (n =? 133) || (n =? 160).

Fixpoint int_lstrip (l : list ascii) : list ascii :=
  match l with
  | [] => []
  | c :: l' => if int_isspace c then int_lstrip l' else l
  end.

Definition int_strip (l : list ascii) : list ascii :=
  reverse (int_lstrip (reverse (int_lstrip l))).

(** The number of digits of a literal; underscores do not count. *)
Fixpoint count_digits (l : list ascii) : Z :=
  match l with
  | [] => 0
  | c :: l' => (if Str.isdigit c then 1 else 0) + count_digits l'
  end.

(** The limit of the interpreter on the number of digits of a string that
    is converted ([sys.int_info.default_max_str_digits]). *)
Definition int_max_str_digits : Z := 4300.

(** [int(s)] for a [str]: surrounding white space, an optional sign,
    decimal digits with single underscores between them, and at most
    [int_max_str_digits] digits.  Every failure is a [ValueError]. *)
Definition py_int (s : string) : result Z :=
  let l := int_strip (Str.to_list s) in
  let '(negative, body) :=
    match l with
    | "-"%char :: l' => (true, l')
    | "+"%char :: l' => (false, l')
    | _ => (false, l)
    end in
  match digits_go 0 false body with
  | Some n =>
      if (count_digits body <=? int_max_str_digits)%Z
      then Ok (if negative then - n else n)%Z
      else Raise ValueError
  | None => Raise ValueError
  end.

(** [str(n)] for an [int] below ten to the power [int_max_str_digits] in
    absolute value, which every result of [int] is; beyond that limit
    [str] raises. *)
Definition py_str (n : Z) : string :=
  DecimalString.NilZero.string_of_int (Z.to_int n).

(** [sep.join(l)] *)
Fixpoint join (sep : string) (l : list string) : string :=
  match l with
  | [] => EmptyString
  | [x] => x
  | x :: l' => x +:+ sep +:+ join sep l'
  end.

Definition concat_lines (l : list string) : string :=
  foldr String.append EmptyString l.

Definition crlf : string :=
  String (ascii_of_nat 13) (String (ascii_of_nat 10) EmptyString).

(** ** Insertion-ordered [dict] with string keys *)

Fixpoint dict_set {V} (k : string) (v : V) (d : list (string * V))
  : list (string * V) :=
  match d with
  | [] => [(k, v)]
  | kv :: d' =>
      if bool_decide (kv.1 = k) then (k, v) :: d' else kv :: dict_set k v d'
  end.

Fixpoint dict_get {V} (k : string) (d : list (string * V)) : option V :=
  match d with
  | [] => None
  | kv :: d' => if bool_decide (kv.1 = k) then Some kv.2 else dict_get k d'
  end.

(** ** Redundancy detector *)

Definition unpack5 (row : list string)
  : result (string * string * string * string * string) :=
  match row with
  | [a; b; c; d; e] => Ok (a, b, c, d, e)
  | _ => Raise ValueError
  end.

(** [{r[1]: r[4] for r in relations if r[0] == 'HGNC'}] *)
Definition gene_names_of (relations : list relation)
  : list (string * string) :=
  foldl (λ d r, if bool_decide (rel_sns r = "HGNC")
                then dict_set (rel_sid r) (rel_tid r) d else d)
    [] relations.

(** The variables of the scan of [relations.csv] (lines 169-181). *)
Record scan : Type := Scan {
  covered_genes : list string;
  covered_families : list string;
  fam_members : gmap string (list string);
  hgnc_families : list string
}.

Definition scan_step (all_gene_names : list (string * string)) (st : scan)
    (row : list string) : result scan :=
  '(sns, sid, rel, tns, tid) ← unpack5 row;
  let fam_members :=
    if bool_decide (sns = "HGNC") && bool_decide (tns = "FPLX")
    then append_at tid sid (fam_members st) else fam_members st in
  match (if bool_decide (sns = "HGNC") then dict_get sid all_gene_names
         else None) with
  | Some hgnc_fam =>
      Ok (Scan (covered_genes st ++ [sid]) (covered_families st ++ [tid])
            fam_members (hgnc_families st ++ [hgnc_fam]))
  | None =>
      Ok (Scan (covered_genes st) (covered_families st) fam_members
            (hgnc_families st))
  end.

Section Overlaps.

(** The iteration order of sets of strings in this run. *)
Variable iter : list string → list string.

(** [list(s)[0]] *)
Definition first_member (s : list string) : result string :=
  index0 (iter s).

Abbreviation members_items := (list (string * list string)).

(** Lines 183-188. *)
Definition fplx_fam_members_of (st : scan) : result members_items :=
  sorted_raising String.leb (λ x, first_member x.2)
    ((λ famplex_fam,
        (famplex_fam, default [] (fam_members st !! famplex_fam)))
       <$> iter (covered_families st)).

(** Lines 190-195. *)
Definition hgnc_fam_members_of (all_gene_names : list (string * string))
    (st : scan) : result members_items :=
  sorted_raising String.leb (λ x, first_member x.2)
    ((λ hgnc_fam,
        (hgnc_fam,
         (filter (λ gf, gf.2 = hgnc_fam) all_gene_names).*1))
       <$> iter (hgnc_families st)).

(** Lines 197-208: the pairs compared, and the families marked. *)
Definition compared (fplx hgnc : members_items)
  : list ((string * list string) * (string * list string)) :=
  zip fplx hgnc.

Definition marked (fplx hgnc : members_items) : list string :=
  (λ p, p.2.1) <$> filter (λ p, set_eqb p.1.2 p.2.2 = true)
                     (compared fplx hgnc).

(** [find_overlaps(relations)], given the rows of [relations.csv]. *)
Definition find_overlaps (store : list (list string))
    (relations : list relation) : result (list string) :=
  let all_gene_names := gene_names_of relations in
  st ← for_each (scan_step all_gene_names) store (Scan [] [] ∅ []);
  fplx_fam_members ← fplx_fam_members_of st;
  hgnc_fam_members ← hgnc_fam_members_of all_gene_names st;
  Ok (marked fplx_fam_members hgnc_fam_members).

End Overlaps.

(** ** Relation set builder and the script body *)

(** [[f(x) for x in l]] for an [f] that may raise. *)
Fixpoint map_raising {A B} (f : A → result B) (l : list A)
  : result (list B) :=
  match l with
  | [] => Ok []
  | x :: l' => y ← f x; ys ← map_raising f l'; Ok (y :: ys)
  end.

(** The text appended to [relations.csv]. *)
Definition add_relations_to_famplex (relations : list relation) : string :=
  concat_lines
    ((λ rel, join "," [rel_sns rel; rel_sid rel; rel_kind rel; rel_tns rel;
                       rel_tid rel] +:+ crlf) <$> relations).

(** The text appended to [entities.csv]. *)
Definition add_entities_to_famplex (entities : list string) : string :=
  concat_lines ((λ ent, ent +:+ crlf) <$> entities).

(** The three texts appended by a run that ends without raising. *)
Record output : Type := Output {
  relations_csv : string;
  entities_csv : string;
  equivalences_csv : string
}.

Section Main.

Variable families : gmap string family.
Variable children : gmap string (list string).
Variable family_to_gene : gmap string (list string).
Variable get_hgnc_name : string → option string.

(** The iteration orders of the sets of this run. *)
Variable iter_s : list string → list string.
Variable iter_r : list relation → list relation.
Variable iter_z : list Z → list Z.

(** The recursion limit of this run. *)
Variable depth : nat.

(** Lines 151-155: the rows of [equivs]. *)
Definition equivs_of (relations : list relation)
  : result (list (list string)) :=
  ids ← map_raising (λ r, py_int (rel_root r)) relations;
  let hgnc_fam_ids := sorted Z.leb id (iter_z ids) in
  for_each
    (λ equivs fid,
       fam ← getitem families (py_str fid);
       famplex_id ← get_famplex_id fam;
       Ok (equivs ++ [["HGNC_GROUP"; py_str fid; famplex_id]]))
    hgnc_fam_ids [].

(** The text appended to [equivalences.csv]. *)
Definition add_equivalences (relations : list relation) : result string :=
  equivs ← equivs_of relations;
  Ok (concat_lines ((λ eq, join "," eq +:+ crlf) <$> equivs)).

(** Lines 214-217. *)
Definition load_relations (hgnc_group_ids : list string)
  : result (list relation) :=
  for_each
    (λ relations hgnc_group_id,
       st ← get_relations_from_root families children family_to_gene
              get_hgnc_name depth hgnc_group_id None [];
       Ok (relations ++ st.1))
    hgnc_group_ids [].

(** Line 219. *)
Definition sort_relations (relations : list relation) : list relation :=
  sorted pair_leb (λ x, (rel_tid x, rel_sid x)) (iter_r relations).

(** Line 222. *)
Definition drop_redundant (totally_redundant : list string)
    (relations : list relation) : list relation :=
  filter (λ r, rel_tid r ∉ totally_redundant) relations.

(** Line 224. *)
Definition entities_of (relations : list relation) : list string :=
  sorted String.leb id (iter_s (rel_tid <$> relations)).

(** Lines 213-222: the relations that are written. *)
Definition main_relations (hgnc_group_ids : list string)
    (store : list (list string)) : result (list relation) :=
  relations ← load_relations hgnc_group_ids;
  let relations := sort_relations relations in
  totally_redundant ← find_overlaps iter_s store relations;
  Ok (drop_redundant totally_redundant relations).

(** The script body, from the root identifiers on the command line and
    the rows of [relations.csv] to the appended texts.  A run that raises
    is represented by its exception alone. *)
Definition main (hgnc_group_ids : list string) (store : list (list string))
  : result output :=
  relations ← main_relations hgnc_group_ids store;
  let entities := entities_of relations in
  equivalences ← add_equivalences relations;
  Ok (Output (add_relations_to_famplex relations)
        (add_entities_to_famplex entities) equivalences).

End Main.

(** * Specification-level notions

    Predicates in which the properties below are stated. *)

(** The names that [is_pseudogene] accepts: characters other than the
    newline, then one or more digits, then ["P"], at the end of the string
    or before a newline that ends it. *)
Definition pseudogene_shape (l : list ascii) : Prop :=
  ∃ p d tl, l = p ++ d ++ "P"%char :: tl ∧
    Forall (λ c, c ≠ Re.newline) p ∧
    d ≠ [] ∧ Forall (λ c, Str.isdigit c = true) d ∧
    (tl = [] ∨ tl = [Re.newline]).

(** The pattern in the words of the specification: one or more arbitrary
    characters, one or more digits, a final ["P"]. *)
Definition spec_pseudogene_pattern (s : string) : Prop :=
  ∃ a d, a ≠ [] ∧ d ≠ [] ∧ Forall (λ c, Str.isdigit c = true) d ∧
         Str.to_list s = a ++ d ++ ["P"%char].

Section FlattenerSpec.
Variable families : gmap string family.
Variable children : gmap string (list string).
Variable family_to_gene : gmap string (list string).
Variable get_hgnc_name : string → option string.

(** [c] is a child of [F] that the traversal recurses into. *)
Definition recursed (F c : string) : Prop :=
  ∃ child_ids, children !! F = Some child_ids ∧ c ∈ child_ids ∧
               collapses children family_to_gene c = false.

(** The families visited by the traversal that starts at [root]. *)
Definition traversed (root : string) : string → Prop := rtc recursed root.

(** [c] is a child of [F] that is collapsed, with single gene [g]. *)
Definition collapsed_child (F c g : string) : Prop :=
  ∃ child_ids, children !! F = Some child_ids ∧ c ∈ child_ids ∧
               collapses children family_to_gene c = true ∧
               genes_of family_to_gene c = [g].

(** [r] is a relation that the visit of family [F] contributes. *)
Definition emitted_at (F : string) (r : relation) : Prop :=
  ∃ info famplex_id src,
    families !! F = Some info ∧ get_famplex_id info = Ok famplex_id ∧
    ((r = ("HGNC", src, "isa", "FPLX", famplex_id, F) ∧
      is_pseudogene (Some src) = Ok false ∧
      ∃ g, get_hgnc_name g = Some src ∧
           (g ∈ genes_of family_to_gene F ∨ ∃ c, collapsed_child F c g))
     ∨
     (r = ("FPLX", src, "isa", "FPLX", famplex_id, F) ∧
      ∃ c info_c, recursed F c ∧ families !! c = Some info_c ∧
                  get_famplex_id info_c = Ok src)).

(** [r] is contributed by a family visited from [root]. *)
Definition emitted (root : string) (r : relation) : Prop :=
  ∃ F, traversed root F ∧ emitted_at F r.

(** [st'] extends [st] by relations that satisfy [Q] and by printed
    lines. *)
Definition extends (Q : relation → Prop) (st st' : flat_state) : Prop :=
  ∃ new lines, st' = (st.1 ++ new, st.2 ++ lines) ∧ Forall Q new.

(** The records that a traversal from [F] within [depth] nested calls
    reads are all present: metadata with an identifier for every visited
    family, a display name for every gene. *)
Fixpoint flattenable (depth : nat) (F : string) : bool :=
  match depth with
  | O => false
  | S depth' =>
      match families !! F with
      | None => false
      | Some info =>
          match get_famplex_id info with
          | Raise _ => false
          | Ok _ =>
              forallb (λ g, bool_decide (is_Some (get_hgnc_name g)))
                (genes_of family_to_gene F)
              && forallb
                   (λ c, if collapses children family_to_gene c
                         then forallb
                                (λ g, bool_decide
                                        (is_Some (get_hgnc_name g)))
                                (genes_of family_to_gene c)
                         else match families !! c with
                              | None => false
                              | Some info_c =>
                                  match get_famplex_id info_c with
                                  | Raise _ => false
                                  | Ok _ => flattenable depth' c
                                  end
                              end)
                   (default [] (children !! F))
          end
      end
  end.
End FlattenerSpec.

(** The index that the data rows [rows] build on top of [fams]. *)
Definition family_rows (header : list string) (rows : list (list string))
    (fams : gmap string family) : gmap string family :=
  foldl (λ fams row,
           match row with
           | key :: _ => <[key := dict_of_pairs (zip header row)]> fams
           | [] => fams
           end) fams rows.

(** The order of the sort key [(target id, source id)], in words:
    lexicographic on pairs of strings. *)
Definition key_le (k1 k2 : string * string) : Prop :=
  (k1.1 ≤ k2.1)%string ∧ (k1.1 = k2.1 → (k1.2 ≤ k2.2)%string).

Definition rel_key (r : relation) : string * string := (rel_tid r, rel_sid r).

(** An iteration order is valid when it lists each element of the set
    once. *)
Definition valid_order {A} `{EqDecision A} (iter : list A → list A) : Prop :=
  ∀ l, iter l ≡ₚ remove_dups l.

(** The genes that the rows of [relations.csv] give to family [X]. *)
Definition store_genes (store : list (list string)) (X g : string) : Prop :=
  ∃ kind, ["HGNC"; g; kind; "FPLX"; X] ∈ store.

(** [X] is the target of a row whose gene the run has derived a family
    for. *)
Definition touched (names : list (string * string))
    (store : list (list string)) (X : string) : Prop :=
  ∃ g kind tns, ["HGNC"; g; kind; tns; X] ∈ store ∧ is_Some (dict_get g names).

(** [Y] is the derived family recorded for a gene of some row. *)
Definition touched_derived (names : list (string * string))
    (store : list (list string)) (Y : string) : Prop :=
  ∃ g kind tns X, ["HGNC"; g; kind; tns; X] ∈ store ∧
                  dict_get g names = Some Y.

(** The genes recorded for the derived family [Y]: those whose entry in
    the gene-to-family dictionary is [Y]. *)
Definition recorded_genes (names : list (string * string)) (Y g : string)
  : Prop :=
  dict_get g names = Some Y.

(** What the scan has recorded after the rows [store]. *)
Definition scan_inv (names : list (string * string))
    (store : list (list string)) (st : scan) : Prop :=
  (∀ X g, g ∈ default [] (fam_members st !! X) ↔ store_genes store X g) ∧
  (∀ X, X ∈ covered_families st ↔ touched names store X) ∧
  (∀ Y, Y ∈ hgnc_families st ↔ touched_derived names store Y).

(** The genes derived for the family [Y]: the sources of the derived gene
    relations into [Y]. *)
Definition derived_genes (relations : list relation) (Y g : string) : Prop :=
  ∃ r, r ∈ relations ∧ rel_sns r = "HGNC" ∧ rel_sid r = g ∧ rel_tid r = Y.

(** [items] lists the families that satisfy [fam], each once and with a
    list that holds its members [mem], in ascending order of the
    representative of each family: the first member of the list in the
    iteration order of sets. *)
Definition listed_by_representative (iter : list string → list string)
    (fam : string → Prop) (mem : string → string → Prop)
    (items : list (string * list string)) : Prop :=
  NoDup items.*1 ∧
  (∀ X, X ∈ items.*1 ↔ fam X) ∧
  (∀ X s g, (X, s) ∈ items → g ∈ s ↔ mem X g) ∧
  ∃ keys, Forall2 (λ item k, first_member iter item.2 = Ok k) items keys ∧
          StronglySorted (λ a b, (a ≤ b)%string) keys.

(** [Y] stands in [hgnc] at a position at which [fplx] has a family with
    the same members. *)
Definition marked_at_same_position (fplx hgnc : list (string * list string))
    (Y : string) : Prop :=
  ∃ i X sx sy, fplx !! i = Some (X, sx) ∧ hgnc !! i = Some (Y, sy) ∧
               ∀ g, g ∈ sx ↔ g ∈ sy.

(** One line of [relations.csv]: the root is not written. *)
Definition render5 (p : string * string * string * string * string)
  : string :=
  join "," [p.1.1.1.1; p.1.1.1.2; p.1.1.2; p.1.2; p.2] +:+ crlf.

(** * Example catalogues *)

(** A metadata record with the two fields that the importer reads. *)
Definition fam_record (abbreviation name : string) : family :=
  <["abbreviation" := abbreviation]> (<["name" := name]> ∅).

(** A family with a sub-family of two genes and a sub-family of one. *)
Definition ex_families : gmap string family :=
  <["1" := fam_record "FAM" "Family one"]>
  (<["2" := fam_record EmptyString "Sub family"]>
  (<["3" := fam_record "ONE" "Single"]> ∅)).
Definition ex_children : gmap string (list string) :=
  <["1" := ["2"; "3"]]> ∅.
Definition ex_family_to_gene : gmap string (list string) :=
  <["1" := ["g1"; "g2"]]> (<["2" := ["g3"; "g4"]]> (<["3" := ["g5"]]> ∅)).
Definition ex_names : gmap string string :=
  <["g1" := "G1"]> (<["g2" := "G2P"]> (<["g3" := "A1"]> (<["g4" := "A2"]>
  (<["g5" := "B1"]> ∅)))).
Definition ex_get_hgnc_name (g : string) : option string := ex_names !! g.

(** A family whose sub-family has a sub-family of one gene. *)
Definition nest_families : gmap string family :=
  <["1" := fam_record "TOP" "Top family"]>
  (<["2" := fam_record "MID" "Middle family"]>
  (<["3" := fam_record "ONE" "Single"]> ∅)).
Definition nest_children : gmap string (list string) :=
  <["1" := ["2"]]> (<["2" := ["3"]]> ∅).
Definition nest_family_to_gene : gmap string (list string) :=
  <["3" := ["g5"]]> ∅.
Definition nest_relations : list relation :=
  [("FPLX", "MID", "isa", "FPLX", "TOP", "1");
   ("HGNC", "B1", "isa", "FPLX", "MID", "2")].

(** Two root families that share a sub-family of two genes. *)
Definition shared_families : gmap string family :=
  <["1" := fam_record "TOPA" "Top a"]>
  (<["2" := fam_record "TOPB" "Top b"]>
  (<["3" := fam_record "SUB" "Sub family"]> ∅)).
Definition shared_children : gmap string (list string) :=
  <["1" := ["3"]]> (<["2" := ["3"]]> ∅).
Definition shared_family_to_gene : gmap string (list string) :=
  <["3" := ["g3"; "g4"]]> ∅.
Definition shared_relations_1 : list relation :=
  [("FPLX", "SUB", "isa", "FPLX", "TOPA", "1");
   ("HGNC", "A1", "isa", "FPLX", "SUB", "3");
   ("HGNC", "A2", "isa", "FPLX", "SUB", "3")].
Definition shared_relations_2 : list relation :=
  [("FPLX", "SUB", "isa", "FPLX", "TOPB", "2");
   ("HGNC", "A1", "isa", "FPLX", "SUB", "3");
   ("HGNC", "A2", "isa", "FPLX", "SUB", "3")].

(** A catalogue in which a gene is named like a sub-family. *)
Definition clash_families : gmap string family :=
  <["1" := fam_record "FAM" "Family one"]>
  (<["2" := fam_record "SUB" "Sub family"]> ∅).
Definition clash_children : gmap string (list string) := <["1" := ["2"]]> ∅.
Definition clash_family_to_gene : gmap string (list string) :=
  <["1" := ["g1"]]> (<["2" := ["g3"; "g4"]]> ∅).
Definition clash_names : gmap string string :=
  <["g1" := "SUB"]> (<["g3" := "A1"]> (<["g4" := "A2"]> ∅)).

(** An iteration order: the reverse of the order of first insertion. *)
Definition rev_order {A} `{EqDecision A} (l : list A) : list A :=
  reverse (remove_dups l).

(** Two single-gene root families and a store with three families. *)
Definition dup_families : gmap string family :=
  <["1" := fam_record "YA" "Family a"]>
  (<["2" := fam_record "YC" "Family c"]> ∅).
Definition dup_family_to_gene : gmap string (list string) :=
  <["1" := ["ga"]]> (<["2" := ["gc"]]> ∅).
Definition dup_names : gmap string string :=
  <["ga" := "A"]> (<["gc" := "C"]> ∅).
Definition dup_store : list (list string) :=
  [["HGNC"; "A"; "isa"; "FPLX"; "XA"]; ["HGNC"; "A"; "isa"; "FPLX"; "XB"];
   ["HGNC"; "C"; "isa"; "FPLX"; "XC"]].

(** Two root families with a gene in common. *)
Definition common_family_to_gene : gmap string (list string) :=
  <["1" := ["ga"; "gc"]]> (<["2" := ["gc"]]> ∅).

(** A root family whose identifier is written with a leading zero. *)
Definition pad_families : gmap string family :=
  <["1" := fam_record "YA" "Family a"]>
  (<["01" := fam_record "YC" "Family c"]> ∅).
Definition pad_family_to_gene : gmap string (list string) :=
  <["1" := ["ga"]]> (<["01" := ["gc"]]> ∅).

Definition ex_run :=
  get_relations_from_root ex_families ex_children ex_family_to_gene
    ex_get_hgnc_name.

(** A name service that does not know ["g1"]. *)
Definition partial_get_hgnc_name (g : string) : option string :=
  if bool_decide (g = "g1") then None else ex_names !! g.

Definition two_roots : list relation :=
  [("HGNC", "G1", "isa", "FPLX", "FAM", "2");
   ("HGNC", "A1", "isa", "FPLX", "FAM", "1");
   ("HGNC", "G1", "isa", "FPLX", "FAM", "1");
   ("HGNC", "G1", "isa", "FPLX", "FAM", "2")].

(** * Further notions and examples *)

(** [st] placed after the relations [rels] and the lines [out]. *)
Definition shift (rels : list relation) (out : list string) (st : flat_state)
  : flat_state :=
  (rels ++ st.1, out ++ st.2).

(** The outcome of a computation, its result transformed by [f]. *)
Definition result_map {A B} (f : A → B) (m : result A) : result B :=
  match m with
  | Ok a => Ok (f a)
  | Raise e => Raise e
  end.

(** The first fields of the two-field rows whose second field is [k], in
    row order. *)
Definition firsts_of (k : string) (rows : list (list string)) : list string :=
  omap (λ row, match row with
               | [a; b] => if bool_decide (b = k) then Some a else None
               | _ => None
               end) rows.

(** The second fields of the two-field rows whose first field is [k], in
    row order. *)
Definition seconds_of (k : string) (rows : list (list string))
  : list string :=
  omap (λ row, match row with
               | [a; b] => if bool_decide (a = k) then Some b else None
               | _ => None
               end) rows.

(** The entry of a [defaultdict(list)] that holds the list [l]: no entry
    for the empty list. *)
Definition entry_of (l : list string) : option (list string) :=
  match l with
  | [] => None
  | _ :: _ => Some l
  end.

(** The target of the last relation of [relations] whose source is the
    gene [g]. *)
Definition last_target (g : string) (relations : list relation)
  : option string :=
  last (omap (λ r, if bool_decide (rel_sns r = "HGNC")
                      && bool_decide (rel_sid r = g)
                   then Some (rel_tid r) else None) relations).

(** [k] is the decimal form of an integer, as [str] writes it, and has no
    more digits than [int] converts. *)
Definition decimal_form (k : string) : Prop :=
  ∃ n, k = py_str n ∧
       (count_digits (Str.to_list k) ≤ int_max_str_digits)%Z.

(** The relations have roots in decimal form, each the identifier of the
    family whose canonical id is the target. *)
Definition canonical_roots (families : gmap string family)
    (relations : list relation) : Prop :=
  ∀ r, r ∈ relations →
    decimal_form (rel_root r) ∧
    ∃ info, families !! rel_root r = Some info ∧
            get_famplex_id info = Ok (rel_tid r).

(** What the flattener returns on the first example catalogue. *)
Definition ex_relations : list relation :=
  [("HGNC", "G1", "isa", "FPLX", "FAM", "1");
   ("FPLX", "Sub_family", "isa", "FPLX", "FAM", "1");
   ("HGNC", "A1", "isa", "FPLX", "Sub_family", "2");
   ("HGNC", "A2", "isa", "FPLX", "Sub_family", "2");
   ("HGNC", "B1", "isa", "FPLX", "FAM", "1")].

Definition ex_lines : list string :=
  ["Assuming G2P is a pseudogene, skipping";
   "HGNC family 3 has one gene member B1 which will be linked directly to FAM"].

(** A family that is its own child. *)
Definition cyc_families : gmap string family :=
  <["1" := fam_record "FAM" "Family one"]> ∅.
Definition cyc_children : gmap string (list string) := <["1" := ["1"]]> ∅.

(** The relations derived from the catalogue of two single-gene roots. *)
Definition dup_relations : list relation :=
  [("HGNC", "A", "isa", "FPLX", "YA", "1");
   ("HGNC", "C", "isa", "FPLX", "YC", "2")].

(** * Properties *)

(** ** The result monad and loops *)

Lemma bind_Ok {A B} (f : A → result B) (m : result A) (b : B) :
  m ≫= f = Ok b ↔ ∃ a, m = Ok a ∧ f a = Ok b.
Proof.
  destruct m as [a|e]; simpl; split.
  - intros H. by exists a.
  - by intros (a' & [= <-] & H).
  - intros H. discriminate H.
  - intros (a' & H & _). discriminate H.
Qed.

Lemma getitem_Ok {V} (d : gmap string V) k v :
  getitem d k = Ok v ↔ d !! k = Some v.
Proof. unfold getitem. destruct (d !! k); split; congruence. Qed.

Lemma for_each_app {A S} (body : S → A → result S) l1 l2 s :
  for_each body (l1 ++ l2) s = for_each body l1 s ≫= for_each body l2.
Proof.
  revert s. induction l1 as [|x l1 IH]; intros s; simpl; [done|].
  destruct (body s x); simpl; [apply IH|done].
Qed.

Lemma for_each_elem {A S} (body : S → A → result S) l s s' x :
  x ∈ l → for_each body l s = Ok s' →
  ∃ l1 l2 s1 s2, l = l1 ++ x :: l2 ∧ for_each body l1 s = Ok s1 ∧
    body s1 x = Ok s2 ∧ for_each body l2 s2 = Ok s'.
Proof.
  intros (l1 & l2 & ->)%list_elem_of_split. rewrite for_each_app.
  intros (s1 & H1 & H2)%bind_Ok. simpl in H2.
  apply bind_Ok in H2 as (s2 & H2 & H3). by exists l1, l2, s1, s2.
Qed.

Lemma for_each_invariant {A S} (body : S → A → result S) (R : S → S → Prop)
    `{!Reflexive R, !Transitive R} l s s' :
  (∀ s1 x s2, x ∈ l → body s1 x = Ok s2 → R s1 s2) →
  for_each body l s = Ok s' → R s s'.
Proof.
  revert s. induction l as [|x l IH]; intros s Hbody; simpl.
  - by intros [= ->].
  - intros (s1 & H1 & H2)%bind_Ok. trans s1.
    + eapply Hbody; [left|done].
    + apply IH; [|done]. intros ???? ?. eapply Hbody; [by right|done].
Qed.

Lemma for_each_raise {A S} (body : S → A → result S) e l s x :
  x ∈ l → (∀ s1, body s1 x = Raise e) →
  (∀ s1 y, y ∈ l → body s1 y = Raise e ∨ is_Ok (body s1 y)) →
  for_each body l s = Raise e.
Proof.
  revert s. induction l as [|y l IH]; intros s Hx Hraise Hall.
  - by apply elem_of_nil in Hx.
  - simpl. destruct (Hall s y) as [Hy|[s1 Hy]]; [left|..]; rewrite Hy; simpl.
    + done.
    + apply elem_of_cons in Hx as [->|Hx].
      * rewrite Hraise in Hy. done.
      * apply IH; [done..|]. intros ???. apply Hall. by right.
Qed.

Lemma to_list_of_list l : Str.to_list (Str.of_list l) = l.
Proof. apply list_ascii_of_string_of_list_ascii. Qed.

Lemma of_list_to_list s : Str.of_list (Str.to_list s) = s.
Proof. apply string_of_list_ascii_of_string. Qed.

(** ** The pattern of pseudogene names *)

Lemma star_then_spec cls k start l :
  Re.star_then cls k start l = true ↔
  ∃ p rest, l = p ++ rest ∧ Forall (λ c, cls c = true) p ∧
            k (start && bool_decide (p = [])) rest = true.
Proof.
  revert start. induction l as [|c l IH]; intros start; simpl.
  - rewrite orb_false_r. split.
    + intros H. exists [], []. rewrite andb_true_r. auto.
    + intros (p & rest & Hl & _ & Hk).
      symmetry in Hl. apply app_eq_nil in Hl as [-> ->].
      by rewrite andb_true_r in Hk.
  - rewrite orb_true_iff, andb_true_iff, IH. split.
    + intros [Hk | (Hc & p & rest & -> & Hp & Hk)].
      * exists [], (c :: l). rewrite andb_true_r. auto.
      * exists (c :: p), rest. split_and!; [done|by constructor|].
        rewrite andb_false_r. by rewrite andb_false_l in Hk.
    + intros (p & rest & Hl & Hp & Hk). destruct p as [|c' p].
      * left. simpl in Hl. subst rest. by rewrite andb_true_r in Hk.
      * right. injection Hl as <- ->. inversion Hp; subst.
        split; [done|]. exists p, rest. split_and!; [done..|].
        rewrite andb_false_l. by rewrite andb_false_r in Hk.
Qed.

Lemma at_eol_spec tl : Re.at_eol tl = true ↔ tl = [] ∨ tl = [Re.newline].
Proof.
  destruct tl as [|c [|c' tl]]; simpl.
  - split; [by left|done].
  - rewrite bool_decide_eq_true. split; [intros ->; by right|].
    by intros [?|[= ->]].
  - split; [done|by intros [?|?]].
Qed.

Lemma match_pseudogene_re l :
  Re.match_here pseudogene_re true l = true ↔ pseudogene_shape l.
Proof.
  unfold pseudogene_re, pseudogene_shape.
  cbn [Re.match_here]. rewrite andb_true_l, star_then_spec. split.
  - intros (p & rest & -> & Hp & Hk).
    destruct rest as [|c rest]; [done|].
    apply andb_true_iff in Hk as [Hc Hk].
    apply star_then_spec in Hk as (d & rest' & -> & Hd & Hk).
    destruct rest' as [|c' tl]; [done|].
    apply andb_true_iff in Hk as [Hc' Hk]. rewrite andb_true_r in Hk.
    simpl in Hc'. apply bool_decide_eq_true in Hc' as ->.
    exists p, (c :: d), tl. split_and!.
    + done.
    + eapply Forall_impl; [exact Hp|]. intros x Hx. simpl in Hx.
      apply negb_true_iff, bool_decide_eq_false in Hx. done.
    + done.
    + by constructor.
    + by apply at_eol_spec.
  - intros (p & d & tl & -> & Hp & Hne & Hd & Htl).
    destruct d as [|c d]; [done|]. inversion Hd; subst.
    exists p, ((c :: d) ++ "P"%char :: tl). split_and!.
    + done.
    + eapply Forall_impl; [exact Hp|]. intros x Hx. simpl.
      apply negb_true_iff, bool_decide_eq_false. done.
    + simpl. apply andb_true_iff. split; [done|].
      apply star_then_spec. exists d, ("P"%char :: tl). split_and!; [done..|].
      apply andb_true_iff. split; [by apply bool_decide_eq_true|].
      rewrite andb_true_r. by apply at_eol_spec.
Qed.

(** C4, as the code has it: [is_pseudogene] holds exactly of the names made
    of zero or more characters other than the newline, then one or more
    digits, then ["P"], up to the end of the name or to a newline that ends
    it; it holds of ["ABC1P"] and fails on ["ABC1"] and on ["P"]. *)
Theorem is_pseudogene_spec (s : string) :
  (is_pseudogene (Some s) = Ok true ↔ pseudogene_shape (Str.to_list s)) ∧
  is_pseudogene (Some "ABC1P") = Ok true ∧
  is_pseudogene (Some "ABC1") = Ok false ∧
  is_pseudogene (Some "P") = Ok false.
Proof.
  split; [|by repeat split].
  unfold is_pseudogene, Re.is_match. split.
  - intros [= H]. by apply match_pseudogene_re.
  - intros H%match_pseudogene_re. by rewrite H.
Qed.

(** The pattern of the specification asks for a character before the
    digits; the code does not: ["1P"] is a pseudogene name. *)
Lemma is_pseudogene_not_spec_pattern :
  ¬ (∀ s, is_pseudogene (Some s) = Ok true ↔ spec_pseudogene_pattern s).
Proof.
  intros H. destruct (H "1P") as [Hs _].
  destruct (Hs eq_refl) as (a & d & Ha & Hd & _ & Heq).
  apply (f_equal length) in Heq. rewrite !length_app in Heq. simpl in Heq.
  destruct a; [done|]. destruct d; [done|]. simpl in Heq. lia.
Qed.

(** ** The identifier of a family *)

(** C5, as the code has it: with an empty abbreviation the identifier is
    the trimmed name with the space and the hyphen replaced by ["_"] and
    the comma removed, in that order; for the name ["Foo Bar, Baz"] that is
    ["Foo_Bar_Baz"], the space after the comma having become ["_"]. *)
Theorem get_famplex_id_from_name (fam : family) (name : string) :
  fam !! "abbreviation" = Some EmptyString →
  fam !! "name" = Some name →
  get_famplex_id fam
  = Ok (Str.replace "," EmptyString (Str.replace "-" "_" (Str.replace " " "_"
          (Str.strip name)))) ∧
  (name = "Foo Bar, Baz" → get_famplex_id fam = Ok "Foo_Bar_Baz").
Proof.
  intros Habbr Hname.
  assert (get_famplex_id fam
          = Ok (Str.replace "," EmptyString (Str.replace "-" "_" (Str.replace " " "_"
                  (Str.strip name))))) as Hid.
  { unfold get_famplex_id, getitem. rewrite Habbr. simpl. by rewrite Hname. }
  split; [done|]. intros ->. rewrite Hid. vm_compute. reflexivity.
Qed.

Lemma get_famplex_id_from_name_witness :
  get_famplex_id (fam_record EmptyString "Foo Bar, Baz") = Ok "Foo_Bar_Baz".
Proof.
  apply (get_famplex_id_from_name (fam_record EmptyString "Foo Bar, Baz")
           "Foo Bar, Baz"); reflexivity.
Defined.

(** The identifier of ["Foo Bar, Baz"] is not ["Foo_BarBaz"]. *)
Lemma get_famplex_id_keeps_separator :
  get_famplex_id (fam_record EmptyString "Foo Bar, Baz") ≠ Ok "Foo_BarBaz".
Proof. vm_compute. discriminate. Qed.

(** ** Hierarchy flattener *)

Section FlattenerProofs.
Variable families : gmap string family.
Variable children : gmap string (list string).
Variable family_to_gene : gmap string (list string).
Variable get_hgnc_name : string → option string.

Local Abbreviation run :=
  (get_relations_from_root families children family_to_gene get_hgnc_name).
Local Abbreviation genes_of := (genes_of family_to_gene).
Local Abbreviation collapses := (collapses children family_to_gene).
Local Abbreviation recursed := (recursed children family_to_gene).
Local Abbreviation traversed := (traversed children family_to_gene).
Local Abbreviation collapsed_child :=
  (collapsed_child children family_to_gene).
Local Abbreviation emitted_at :=
  (emitted_at families children family_to_gene get_hgnc_name).
Local Abbreviation emitted :=
  (emitted families children family_to_gene get_hgnc_name).
Local Abbreviation gene_step := (gene_step get_hgnc_name).
Local Abbreviation child_step :=
  (child_step families children family_to_gene get_hgnc_name).
Local Abbreviation named_gene := (named_gene get_hgnc_name).

Global Instance extends_refl Q : Reflexive (extends Q).
Proof.
  intros [rels out]. exists [], []. simpl. by rewrite !app_nil_r.
Qed.

Global Instance extends_trans Q : Transitive (extends Q).
Proof.
  intros st1 st2 st3 (n1 & o1 & -> & H1) (n2 & o2 & -> & H2). simpl.
  exists (n1 ++ n2), (o1 ++ o2). rewrite !app_assoc. split; [done|].
  by apply Forall_app.
Qed.

Lemma extends_impl (Q Q' : relation → Prop) st st' :
  (∀ r, Q r → Q' r) → extends Q st st' → extends Q' st st'.
Proof.
  intros HQ (n & o & -> & H). exists n, o. split; [done|].
  eapply Forall_impl; eauto.
Qed.

Lemma named_gene_Ok g name pseudo :
  named_gene g = Ok (name, pseudo) ↔
  get_hgnc_name g = Some name ∧ is_pseudogene (Some name) = Ok pseudo.
Proof.
  unfold named_gene. destruct (get_hgnc_name g) as [n|]; simpl.
  - split.
    + intros [= -> <-]. done.
    + intros [[= ->] [= ->]]. done.
  - split; [done|]. by intros [? _].
Qed.

Lemma named_gene_None g :
  get_hgnc_name g = None → named_gene g = Raise TypeError.
Proof. unfold named_gene. by intros ->. Qed.

Lemma named_gene_cases g :
  named_gene g = Raise TypeError ∨ is_Ok (named_gene g).
Proof.
  unfold named_gene. destruct (get_hgnc_name g); simpl; [right|by left].
  by eexists.
Qed.

Lemma gene_step_cases famplex_id root_id st g :
  gene_step famplex_id root_id st g = Raise TypeError ∨
  is_Ok (gene_step famplex_id root_id st g).
Proof.
  unfold gene_step. destruct (named_gene_cases g) as [->|[[n p] ->]]; simpl.
  - by left.
  - right. destruct p; by eexists.
Qed.

Lemma gene_step_Ok famplex_id root_id st g st' :
  gene_step famplex_id root_id st g = Ok st' →
  ∃ name pseudo,
    get_hgnc_name g = Some name ∧ is_pseudogene (Some name) = Ok pseudo ∧
    st' = if pseudo then (st.1, st.2 ++ [pseudogene_msg name])
          else (st.1 ++ [("HGNC", name, "isa", "FPLX", famplex_id,
                          root_id)], st.2).
Proof.
  unfold gene_step. intros ([name pseudo] & Hn & H)%bind_Ok.
  apply named_gene_Ok in Hn as [Hn Hp]. exists name, pseudo.
  split_and!; [done..|]. destruct pseudo; by injection H as <-.
Qed.

Lemma child_step_Ok rec famplex_id root_id st c st' :
  child_step rec famplex_id root_id st c = Ok st' →
  (collapses c = true ∧ ∃ g name pseudo,
     genes_of c = [g] ∧
     get_hgnc_name g = Some name ∧ is_pseudogene (Some name) = Ok pseudo ∧
     st' = if pseudo then (st.1, st.2 ++ [pseudogene_msg name])
           else (st.1 ++ [("HGNC", name, "isa", "FPLX", famplex_id,
                           root_id)],
                 st.2 ++ [one_member_msg c name famplex_id]))
  ∨
  (collapses c = false ∧ ∃ info_c id_c,
     families !! c = Some info_c ∧ get_famplex_id info_c = Ok id_c ∧
     rec c (st.1 ++ [("FPLX", id_c, "isa", "FPLX", famplex_id, root_id)],
            st.2) = Ok st').
Proof.
  unfold child_step. destruct (collapses c) eqn:Hc.
  - intros (g & Hg & H)%bind_Ok. left. split; [done|].
    apply bind_Ok in H as ([name pseudo] & Hn & H).
    apply named_gene_Ok in Hn as [Hn Hp].
    assert (genes_of c = [g]) as Hgs.
    { unfold collapses in Hc. apply andb_true_iff in Hc as [_ Hc].
      apply bool_decide_eq_true in Hc.
      destruct (genes_of c) as [|g' [|??]]; simplify_eq/=. done. }
    exists g, name, pseudo. split_and!; [done..|].
    destruct pseudo; by injection H as <-.
  - intros (info_c & Hi & H)%bind_Ok. apply getitem_Ok in Hi.
    apply bind_Ok in H as (id_c & Hid & H). right. split; [done|].
    by exists info_c, id_c.
Qed.

Lemma traversed_recursed root c F :
  recursed root c → traversed c F → traversed root F.
Proof. intros. by eapply rtc_l. Qed.

Lemma emitted_recursed root c r :
  recursed root c → emitted c r → emitted root r.
Proof.
  intros Hc (F & HF & Hr). exists F. split; [|done].
  by eapply traversed_recursed.
Qed.

Lemma gene_step_extends root_id info famplex_id st g st' :
  families !! root_id = Some info → get_famplex_id info = Ok famplex_id →
  g ∈ genes_of root_id →
  gene_step famplex_id root_id st g = Ok st' →
  extends (emitted root_id) st st'.
Proof.
  intros Hinfo Hid Hg Hs.
  apply gene_step_Ok in Hs as (name & pseudo & Hn & Hp & ->).
  destruct pseudo.
  - exists [], [pseudogene_msg name]. by rewrite app_nil_r.
  - eexists [_], []. rewrite app_nil_r. split; [done|].
    apply Forall_singleton. exists root_id. split; [apply rtc_refl|].
    exists info, famplex_id, name. split_and!; [done..|]. left.
    split_and!; [done..|]. exists g. auto.
Qed.

Lemma child_step_extends rec root_id info famplex_id child_ids st c st' :
  (∀ c rels out st', recursed root_id c → rec c (rels, out) = Ok st' →
                     extends (emitted c) (rels, out) st') →
  families !! root_id = Some info → get_famplex_id info = Ok famplex_id →
  children !! root_id = Some child_ids → c ∈ child_ids →
  child_step rec famplex_id root_id st c = Ok st' →
  extends (emitted root_id) st st'.
Proof.
  intros Hrec Hinfo Hid Hch Hc Hs. apply child_step_Ok in Hs
    as [(Hcol & g & name & pseudo & Hg & Hn & Hp & ->)
       |(Hcol & info_c & id_c & Hic & Hidc & Hs)].
  - destruct pseudo.
    + exists [], [pseudogene_msg name]. by rewrite app_nil_r.
    + eexists [_], [_]. split; [done|].
      apply Forall_singleton. exists root_id. split; [apply rtc_refl|].
      exists info, famplex_id, name. split_and!; [done..|]. left.
      split_and!; [done..|]. exists g. split; [done|]. right.
      by exists c, child_ids.
  - assert (recursed root_id c) as Hrc by (by exists child_ids).
    apply Hrec in Hs; [|done].
    trans (st.1 ++ [("FPLX", id_c, "isa", "FPLX", famplex_id, root_id)],
           st.2).
    + eexists [_], []. rewrite app_nil_r. split; [done|].
      apply Forall_singleton. exists root_id. split; [apply rtc_refl|].
      exists info, famplex_id, id_c. split_and!; [done..|]. right.
      split; [done|]. by exists c, info_c.
    + eapply extends_impl; [|exact Hs]. intros r.
      by apply emitted_recursed.
Qed.

Lemma run_None depth root_id out :
  run depth root_id None out = run depth root_id (Some []) out.
Proof. by destruct depth. Qed.

(** The shape of a call that returns. *)
Lemma run_Ok depth root_id relations out st' :
  run depth root_id relations out = Ok st' →
  ∃ depth' info famplex_id st1,
    depth = S depth' ∧
    families !! root_id = Some info ∧ get_famplex_id info = Ok famplex_id ∧
    for_each (gene_step famplex_id root_id) (genes_of root_id)
      (default [] relations, out) = Ok st1 ∧
    match children !! root_id with
    | None => st' = st1
    | Some child_ids =>
        for_each
          (child_step (λ c st, run depth' c (Some st.1) st.2) famplex_id
             root_id) child_ids st1 = Ok st'
    end.
Proof.
  destruct depth as [|depth']; [done|]. simpl.
  intros (info & Hinfo%getitem_Ok & H)%bind_Ok.
  apply bind_Ok in H as (famplex_id & Hid & H).
  apply bind_Ok in H as (st1 & Hgenes & H).
  exists depth', info, famplex_id, st1. split_and!; [done..|].
  destruct (children !! root_id); [done|by injection H].
Qed.

(** Every relation added by a call is contributed by a visited family. *)
Lemma run_extends depth root_id relations out st' :
  run depth root_id relations out = Ok st' →
  extends (emitted root_id) (default [] relations, out) st'.
Proof.
  revert root_id relations out st'.
  induction depth as [|depth IH]; intros root_id rels out st' Hrun;
    [done|].
  apply run_Ok in Hrun
    as (? & info & famplex_id & st1 & [= <-] & Hinfo & Hid & Hgenes & H).
  trans st1.
  - eapply for_each_invariant; [apply _..| |exact Hgenes].
    intros s1 g s2 Hg Hs. by eapply gene_step_extends.
  - destruct (children !! root_id) as [child_ids|] eqn:Hch;
      [|by subst].
    eapply for_each_invariant; [apply _..| |exact H].
    intros s1 c s2 Hc Hs. eapply child_step_extends; [|done..].
    intros c' rels' out' st'' _ Hrec. by apply IH in Hrec.
Qed.

Lemma gene_loop_extends root_id info famplex_id l st st' :
  families !! root_id = Some info → get_famplex_id info = Ok famplex_id →
  l ⊆ genes_of root_id →
  for_each (gene_step famplex_id root_id) l st = Ok st' →
  extends (emitted root_id) st st'.
Proof.
  intros Hinfo Hid Hl. apply for_each_invariant; [apply _..|].
  intros s1 g s2 Hg Hs. eapply gene_step_extends; [done..| |done]. auto.
Qed.

Lemma child_loop_extends depth root_id info famplex_id child_ids l st st' :
  families !! root_id = Some info → get_famplex_id info = Ok famplex_id →
  children !! root_id = Some child_ids → l ⊆ child_ids →
  for_each (child_step (λ c st, run depth c (Some st.1) st.2) famplex_id
              root_id) l st = Ok st' →
  extends (emitted root_id) st st'.
Proof.
  intros Hinfo Hid Hch Hl. apply for_each_invariant; [apply _..|].
  intros s1 c s2 Hc Hs. eapply child_step_extends; [|done..| |done]; [|auto].
  intros c' rels' out' st'' _ Hrec. by apply run_extends in Hrec.
Qed.

Lemma collapses_true c :
  collapses c = true ↔
  list_truthy (children !! c) = false ∧ length (genes_of c) = 1.
Proof.
  unfold collapses.
  rewrite andb_true_iff, negb_true_iff, bool_decide_eq_true. done.
Qed.

(** C2, as the code has it: a member gene without a display name makes
    the call raise [TypeError] in the pseudogene test; nothing is
    skipped and nothing is returned. *)
Theorem unresolved_gene_raises depth root_id relations out info famplex_id
    g :
  families !! root_id = Some info →
  get_famplex_id info = Ok famplex_id →
  g ∈ genes_of root_id →
  get_hgnc_name g = None →
  run (S depth) root_id relations out = Raise TypeError.
Proof.
  intros Hinfo Hid Hg Hname. simpl. unfold getitem. rewrite Hinfo. simpl.
  rewrite Hid. simpl.
  erewrite for_each_raise; [done|exact Hg|..].
  - intros s1. unfold gene_step. by rewrite named_gene_None.
  - intros s1 y _. apply gene_step_cases.
Qed.

(** C9: a root without a metadata record raises [KeyError]; so does a
    child without one in the recursing branch; and a call returns only
    if every visited family has a metadata record. *)
Theorem missing_family_raises :
  (∀ depth root_id relations out,
     families !! root_id = None →
     run (S depth) root_id relations out = Raise (KeyError root_id)) ∧
  (∀ rec famplex_id root_id st child_id,
     collapses child_id = false → families !! child_id = None →
     child_step rec famplex_id root_id st child_id
     = Raise (KeyError child_id)) ∧
  (∀ depth root_id relations out st F,
     run depth root_id relations out = Ok st →
     traversed root_id F → is_Some (families !! F)).
Proof.
  split_and!.
  - intros depth root_id relations out Hnone. simpl. unfold getitem.
    by rewrite Hnone.
  - intros rec famplex_id root_id st c Hcol Hnone.
    unfold child_step, getitem. by rewrite Hcol, Hnone.
  - intros depth root_id relations out st F Hrun HF.
    cut (∃ d r o s, run d F r o = Ok s).
    { intros (d & r & o & s & (? & info & _ & _ & _ & -> & _)%run_Ok).
      by eexists. }
    revert depth relations out st Hrun.
    induction HF as [root|root c F Hc HF IH];
      intros depth relations out st Hrun; [by eauto 6|].
    apply run_Ok in Hrun
      as (d & info & famplex_id & st1 & -> & _ & _ & _ & H).
    destruct Hc as (cs & Hcs & Hc & Hcol). rewrite Hcs in H.
    eapply for_each_elem in H as (l1 & l2 & s1 & s2 & Hl & H1 & Hs & H2);
      [|exact Hc].
    apply child_step_Ok in Hs as [[? _]|(_ & ic & idc & _ & _ & Hs)];
      [congruence|]. eauto.
Qed.

Lemma extends_any Q st st' : extends Q st st' → extends (λ _, True) st st'.
Proof. by apply extends_impl. Qed.

Lemma run_Some depth root_id relations out :
  run depth root_id relations out
  = run depth root_id (Some (default [] relations)) out.
Proof. destruct relations; [done|apply run_None]. Qed.

(** A family visited from the root is flattened by a call of its own,
    which starts from what the traversal has produced so far and whose
    result the traversal keeps. *)
Lemma run_visits depth root_id relations out st F :
  run depth root_id relations out = Ok st → traversed root_id F →
  ∃ d rels0 out0 st0,
    run d F (Some rels0) out0 = Ok st0 ∧
    extends (λ _, True) (default [] relations, out) (rels0, out0) ∧
    extends (λ _, True) st0 st.
Proof.
  intros Hrun HF. revert depth relations out st Hrun.
  induction HF as [root|root c F Hc HF IH];
    intros depth relations out st Hrun.
  - exists depth, (default [] relations), out, st.
    by rewrite <- run_Some.
  - pose proof Hrun as Hrun'. apply run_Ok in Hrun'
      as (d & info & famplex_id & st1 & -> & Hinfo & Hid & Hg & H).
    destruct Hc as (cs & Hcs & Hc & Hcol). rewrite Hcs in H.
    eapply for_each_elem in H as (l1 & l2 & s1 & s2 & Hl & H1 & Hs & H2);
      [|exact Hc].
    apply child_step_Ok in Hs as [[? _]|(_ & ic & idc & _ & _ & Hs)];
      [congruence|].
    apply IH in Hs as (d0 & rels0 & out0 & st0 & Hsub & Hpre & Hpost).
    exists d0, rels0, out0, st0. split_and!; [done| |].
    + etrans; [|exact Hpre]. cbn [default].
      trans st1; [eapply extends_any, gene_loop_extends; done|].
      trans s1.
      * eapply extends_any, child_loop_extends; [done..| |exact H1].
        intros x Hx. rewrite Hl. apply elem_of_app. by left.
      * eexists [_], []. rewrite app_nil_r. split; [done|].
        by apply Forall_singleton.
    + etrans; [exact Hpost|].
      eapply extends_any, child_loop_extends; [done..| |exact H2].
      intros x Hx. rewrite Hl. apply elem_of_app. right. by right.
Qed.

Lemma not_collapsed_visited root F c g T :
  traversed root F → collapsed_child F c g → traversed root T → T ≠ c.
Proof.
  intros HF (cs & Hcs & Hc & Hcol & Hg) HT ->.
  apply rtc_inv_r in HT as [->|(T & _ & cs' & _ & _ & Hcol')];
    [|congruence].
  apply collapses_true in Hcol as [Hcol _].
  apply rtc_inv in HF as [->|(c' & (cs' & Hcs' & Hc' & _) & _)].
  - rewrite Hcs in Hcol. destruct cs; [by apply elem_of_nil in Hc|done].
  - rewrite Hcs' in Hcol. destruct cs'; [by apply elem_of_nil in Hc'|done].
Qed.

(** C3, as the code has it: the collapse rule.  Let a call on [root]
    return, let [F] be a family that it visits (the root, or a family
    reached from it through children that are recursed into), with
    canonical id [C], and let [c] be a child of [F] without children and
    with the single gene [g], named [name].  If [name] is not a pseudogene
    the call has added the relation from [name] to [C] whose last field is
    the id of [F], the family being visited; that is the root only when
    [F] is the root.  If [name] is a pseudogene the call has printed the
    warning and added no relation with the gene source [name].  The child
    [c] is not visited: every added relation carries the id of a visited
    family other than [c] and targets its canonical id, and every family
    that is a source is a recursed child other than [c]. *)
Theorem collapse_rule depth root relations out rels' out' F info C child_ids
    c g name :
  run depth root relations out = Ok (rels', out') →
  traversed root F →
  families !! F = Some info → get_famplex_id info = Ok C →
  children !! F = Some child_ids → c ∈ child_ids →
  list_truthy (children !! c) = false → genes_of c = [g] →
  get_hgnc_name g = Some name →
  ∃ new lines,
    rels' = default [] relations ++ new ∧ out' = out ++ lines ∧
    (is_pseudogene (Some name) = Ok false →
     ("HGNC", name, "isa", "FPLX", C, F) ∈ new) ∧
    (is_pseudogene (Some name) = Ok true →
     pseudogene_msg name ∈ lines ∧
     ∀ r, r ∈ new → rel_sns r = "HGNC" → rel_sid r ≠ name) ∧
    (∀ r, r ∈ new →
       ∃ T info_T,
         T ≠ c ∧ traversed root T ∧ rel_root r = T ∧
         families !! T = Some info_T ∧
         get_famplex_id info_T = Ok (rel_tid r) ∧
         (rel_sns r = "FPLX" →
          ∃ S info_S, S ≠ c ∧ recursed T S ∧ families !! S = Some info_S ∧
                      get_famplex_id info_S = Ok (rel_sid r))).
Proof.
  intros Hroot HF Hinfo Hid Hch Hc Hgrand Hgenes Hname.
  assert (collapses c = true) as Hcol.
  { apply collapses_true. by rewrite Hgenes. }
  assert (collapsed_child F c g) as Hcc by (by exists child_ids).
  pose proof (run_extends _ _ _ _ _ Hroot)
    as (new & lines & [= -> ->] & Hnew).
  cbn [fst snd] in *.
  (* the call that visits [F], and the step of its loop that handles [c] *)
  destruct (run_visits _ _ _ _ _ _ Hroot HF)
    as (dF & rels0 & out0 & [relsF outF] & Hrun & (pre & lpre & [= -> ->] & _)
        & (post & lpost & [= Hrels Hout] & _)).
  cbn [fst snd] in *.
  apply run_Ok in Hrun
    as (d & info' & C' & st1 & -> & Hinfo' & Hid' & Hg & H).
  change (default [] (Some ?x)) with x in Hg.
  rewrite Hch in H. rewrite Hinfo in Hinfo'. injection Hinfo' as <-.
  rewrite Hid in Hid'. injection Hid' as <-.
  eapply for_each_elem in H as (l1 & l2 & s1 & s2 & Hl & H1 & Hs & H2);
    [|exact Hc].
  eapply gene_loop_extends in Hg as (n0 & o0 & -> & _); [|done..].
  eapply child_loop_extends in H1 as (n1 & o1 & -> & _);
    [|done..|intros x Hx; rewrite Hl; apply elem_of_app; by left].
  eapply child_loop_extends in H2 as (n2 & o2 & [= Hr Ho] & _);
    [|done..|intros x Hx; rewrite Hl; apply elem_of_app; right; by right].
  apply child_step_Ok in Hs
    as [(_ & g' & name' & pseudo & Hg' & Hn' & Hp' & ->)|[? _]];
    [|congruence].
  rewrite Hgenes in Hg'. injection Hg' as <-.
  rewrite Hname in Hn'. injection Hn' as <-.
  cbn [fst snd] in *. subst relsF outF.
  exists new, lines. split_and!; [done..| | |].
  - intros Hpseudo. rewrite Hpseudo in Hp'. injection Hp' as <-.
    cbn [fst snd] in Hrels.
    rewrite <- !app_assoc in Hrels. apply app_inv_head in Hrels as ->.
    do 3 (apply elem_of_app; right). simpl. by left.
  - intros Hpseudo. rewrite Hpseudo in Hp'. injection Hp' as <-.
    cbn [fst snd] in Hout. split.
    + rewrite <- !app_assoc in Hout. apply app_inv_head in Hout as ->.
      do 3 (apply elem_of_app; right). simpl. by left.
    + intros r Hr' Hsns Hsid.
      eapply Forall_forall in Hnew as (T & _ & Hem); [|exact Hr'].
      destruct Hem as (iT & fT & src & _ & _ &
        [(-> & Hps & _)|(-> & _)]); [|done].
      unfold rel_sid in Hsid. cbn [fst snd] in Hsid. congruence.
  - intros r Hr'.
    eapply Forall_forall in Hnew as (T & HT & Hem); [|exact Hr'].
    destruct Hem as (iT & fT & src & HiT & HfT & Hcases).
    exists T, iT. split; [exact (not_collapsed_visited _ _ _ _ _ HF Hcc HT)|].
    split; [done|].
    destruct Hcases as [(-> & _)|(-> & S & iS & HS & HiS & HfS)].
    + split_and!; [done..|]. intros [=].
    + split_and!; [done..|]. intros _. exists S, iS.
      split_and!; [|done..]. intros ->.
      destruct HS as (_ & _ & _ & ?). congruence.
Qed.

Lemma extends_elem Q st st' r : extends Q st st' → r ∈ st.1 → r ∈ st'.1.
Proof. intros (new & lines & -> & _) Hr. apply elem_of_app. by left. Qed.

(** The call that visits [F] adds every relation that [F] contributes. *)
Lemma run_emits_at depth F relations out st r :
  run depth F relations out = Ok st → emitted_at F r → r ∈ st.1.
Proof.
  intros Hrun (info & famplex_id & src & Hinfo & Hid & Hr).
  apply run_Ok in Hrun
    as (d & info' & C' & st1 & -> & Hinfo' & Hid' & Hg & H).
  rewrite Hinfo in Hinfo'. injection Hinfo' as <-.
  rewrite Hid in Hid'. injection Hid' as <-.
  assert (extends (emitted F) st1 st) as Hchildren.
  { destruct (children !! F) as [cs|] eqn:Hcs; [|by subst].
    by eapply (child_loop_extends d F info famplex_id cs cs). }
  destruct Hr as [(-> & Hps & g & Hname & [Hgene|(c & Hcc)])
                 |(-> & c & info_c & Hc & Hic & Hidc)].
  - eapply extends_elem; [exact Hchildren|].
    eapply for_each_elem in Hg as (l1 & l2 & s1 & s2 & Hl & H1 & Hs & H2);
      [|exact Hgene].
    apply gene_step_Ok in Hs as (name & pseudo & Hn & Hp & ->).
    rewrite Hname in Hn. injection Hn as <-.
    rewrite Hps in Hp. injection Hp as <-.
    eapply extends_elem.
    + eapply gene_loop_extends; [done..| |exact H2].
      intros x Hx. rewrite Hl. apply elem_of_app. right. by right.
    + apply elem_of_app. right. by left.
  - destruct Hcc as (cs & Hcs & Hc & Hcol & Hgs). rewrite Hcs in H.
    eapply for_each_elem in H as (l1 & l2 & s1 & s2 & Hl & H1 & Hs & H2);
      [|exact Hc].
    apply child_step_Ok in Hs
      as [(_ & g' & name & pseudo & Hg' & Hn & Hp & ->)|[? _]];
      [|congruence].
    rewrite Hgs in Hg'. injection Hg' as <-.
    rewrite Hname in Hn. injection Hn as <-.
    rewrite Hps in Hp. injection Hp as <-.
    eapply extends_elem.
    + eapply child_loop_extends; [done..| |exact H2].
      intros x Hx. rewrite Hl. apply elem_of_app. right. by right.
    + apply elem_of_app. right. by left.
  - destruct Hc as (cs & Hcs & Hc & Hcol). rewrite Hcs in H.
    eapply for_each_elem in H as (l1 & l2 & s1 & s2 & Hl & H1 & Hs & H2);
      [|exact Hc].
    apply child_step_Ok in Hs
      as [[? _]|(_ & info_c' & id_c & Hic' & Hidc' & Hs)]; [congruence|].
    rewrite Hic in Hic'. injection Hic' as <-.
    rewrite Hidc in Hidc'. injection Hidc' as <-.
    eapply extends_elem.
    + eapply (child_loop_extends d F info famplex_id cs l2);
        [done..| |exact H2].
      intros x Hx. rewrite Hl. apply elem_of_app. right. by right.
    + eapply extends_elem; [exact (run_extends _ _ _ _ _ Hs)|].
      apply elem_of_app. right. by left.
Qed.

(** A fresh call returns exactly the relations that the families visited
    from its root contribute. *)
Lemma run_emitted depth root_id out st r :
  run depth root_id None out = Ok st → r ∈ st.1 ↔ emitted root_id r.
Proof.
  intros Hrun. split.
  - intros Hr. apply run_extends in Hrun as (new & lines & -> & Hnew).
    eapply Forall_forall in Hnew; [exact Hnew|exact Hr].
  - intros (F & HF & Hr).
    destruct (run_visits _ _ _ _ _ _ Hrun HF)
      as (d & rels0 & out0 & st0 & Hsub & _ & Hpost).
    eapply extends_elem; [exact Hpost|]. by eapply run_emits_at.
Qed.

(** The catalogue entries that a traversal of depth [depth] from [F]
    needs are present. *)
Lemma for_each_is_Ok {A S} (body : S → A → result S) l s :
  (∀ s x, x ∈ l → is_Ok (body s x)) → is_Ok (for_each body l s).
Proof.
  revert s. induction l as [|x l IH]; intros s Hb; simpl; [by eexists|].
  destruct (Hb s x) as [s' ->]; [left|]. simpl. apply IH.
  intros ???. apply Hb. by right.
Qed.

Lemma run_total depth F relations out :
  flattenable families children family_to_gene get_hgnc_name depth F
  = true →
  is_Ok (run depth F relations out).
Proof.
  revert F relations out.
  induction depth as [|depth IH]; intros F relations out; [done|].
  simpl. unfold getitem. destruct (families !! F) as [info|]; [|done].
  simpl. destruct (get_famplex_id info) as [C|]; [|done]. simpl.
  intros [Hgenes Hch]%andb_true_iff.
  assert (∀ g, is_Some (get_hgnc_name g) →
               is_Ok (named_gene g)) as Hnamed.
  { intros g [n Hn]. unfold named_gene. rewrite Hn. by eexists. }
  destruct (for_each_is_Ok (gene_step C F) (genes_of F)
              (default [] relations, out)) as [st1 ->].
  { intros s g Hg. unfold gene_step.
    destruct (Hnamed g) as [[n p] ->].
    - eapply forallb_forall in Hgenes; [|by apply list_elem_of_In].
      by apply bool_decide_eq_true in Hgenes.
    - simpl. destruct p; by eexists. }
  simpl. destruct (children !! F) as [cs|]; [|by eexists].
  apply for_each_is_Ok. intros s c Hc.
  eapply forallb_forall in Hch; [|by apply list_elem_of_In].
  unfold child_step. destruct (collapses c) eqn:Hcol.
  - apply collapses_true in Hcol as [_ Hlen].
    destruct (genes_of c) as [|g [|??]] eqn:Hgc; simplify_eq/=.
    rewrite andb_true_r in Hch. apply bool_decide_eq_true in Hch.
    destruct (Hnamed g Hch) as [[n p] ->]. simpl.
    destruct p; by eexists.
  - unfold getitem. destruct (families !! c) as [ic|]; [|done]. simpl.
    destruct (get_famplex_id ic) as [idc|]; [|done]. simpl.
    by apply IH.
Qed.
End FlattenerProofs.

Lemma unresolved_gene_raises_witness :
  get_relations_from_root ex_families ex_children ex_family_to_gene
    partial_get_hgnc_name 5 "1" None [] = Raise TypeError.
Proof.
  apply (unresolved_gene_raises ex_families ex_children ex_family_to_gene
           partial_get_hgnc_name 4 "1" None []
           (fam_record "FAM" "Family one") "FAM" "g1").
  - reflexivity.
  - reflexivity.
  - vm_compute. left.
  - reflexivity.
Defined.

(** A gene without a name is not skipped: the call does not return. *)
Lemma unresolved_gene_is_not_skipped :
  ¬ is_Ok (get_relations_from_root ex_families ex_children ex_family_to_gene
             partial_get_hgnc_name 5 "1" None []).
Proof. intros [st Hst]. vm_compute in Hst. discriminate Hst. Qed.

Lemma collapse_rule_witness :
  ∃ new lines,
    get_relations_from_root nest_families nest_children nest_family_to_gene
      ex_get_hgnc_name 5 "1" None [] = Ok (new, lines) ∧
    ("HGNC", "B1", "isa", "FPLX", "MID", "2") ∈ new ∧
    ∀ r, r ∈ new → rel_root r ≠ "3".
Proof.
  destruct (collapse_rule nest_families nest_children nest_family_to_gene
              ex_get_hgnc_name 5 "1" None [] nest_relations
              ["HGNC family 3 has one gene member B1 which will be linked directly to MID"]
              "2" (fam_record "MID" "Middle family") "MID" ["3"] "3" "g5"
              "B1")
    as (new & lines & Hnew & Hlines & Hrel & _ & Hc).
  - vm_compute. reflexivity.
  - apply rtc_once. exists ["2"]. split; [reflexivity|].
    split; [left|reflexivity].
  - reflexivity.
  - reflexivity.
  - reflexivity.
  - left.
  - reflexivity.
  - reflexivity.
  - reflexivity.
  - exists new, lines. simpl in Hnew, Hlines. subst new lines.
    split; [vm_compute; reflexivity|]. split; [by apply Hrel|].
    intros r Hr. destruct (Hc r Hr) as (T & _ & HT & _ & -> & _). exact HT.
Defined.

(** The single gene of a collapsed child of a family below the root is
    linked with the id of that family as its last field, not with the id
    of the root from which the traversal started. *)
Lemma collapsed_gene_carries_parent_id :
  get_relations_from_root nest_families nest_children nest_family_to_gene
    ex_get_hgnc_name 5 "1" None []
  = Ok (nest_relations,
        ["HGNC family 3 has one gene member B1 which will be linked directly to MID"])
  ∧ ("HGNC", "B1", "isa", "FPLX", "MID", "2") ∈ nest_relations
  ∧ ("HGNC", "B1", "isa", "FPLX", "MID", "1") ∉ nest_relations.
Proof.
  split_and!; [vm_compute; reflexivity|right; left|].
  intros Hin. repeat (apply elem_of_cons in Hin as [Hin|Hin]);
    try discriminate Hin. by apply elem_of_nil in Hin.
Qed.

Lemma missing_family_raises_witness :
  ex_run 4 "9" None [] = Raise (KeyError "9") ∧
  is_Some (ex_families !! "2").
Proof.
  destruct (missing_family_raises ex_families ex_children ex_family_to_gene
              ex_get_hgnc_name) as (Hroot & _ & Hvisited).
  split.
  - apply (Hroot 3 "9" None []). reflexivity.
  - apply (Hvisited 5 "1" None []
             ([("HGNC", "G1", "isa", "FPLX", "FAM", "1");
               ("FPLX", "Sub_family", "isa", "FPLX", "FAM", "1");
               ("HGNC", "A1", "isa", "FPLX", "Sub_family", "2");
               ("HGNC", "A2", "isa", "FPLX", "Sub_family", "2");
               ("HGNC", "B1", "isa", "FPLX", "FAM", "1")],
              ["Assuming G2P is a pseudogene, skipping";
               "HGNC family 3 has one gene member B1 which will be linked directly to FAM"])
             "2").
    + vm_compute. reflexivity.
    + apply rtc_once. exists ["2"; "3"]. split; [reflexivity|].
      split; [left|reflexivity].
Defined.

(** ** Source loader *)

Lemma unpack2_cases row :
  (length row = 2 ∧ is_Ok (unpack2 row)) ∨
  (length row ≠ 2 ∧ unpack2 row = Raise ValueError).
Proof.
  destruct row as [|a [|b [|c row]]]; simpl; [by right..|left|by right].
  split; [done|by eexists].
Qed.

Lemma enumerate_from_elem {A} (l : list A) k x :
  x ∈ l → ∃ idx, k ≤ idx ∧ (idx, x) ∈ zip (seq k (length l)) l.
Proof.
  revert k. induction l as [|y l IH]; intros k Hx.
  - by apply elem_of_nil in Hx.
  - apply elem_of_cons in Hx as [->|Hx]; simpl.
    + exists k. split; [done|by left].
    + destruct (IH (S k) Hx) as (idx & Hk & Hidx). exists idx.
      split; [lia|by right].
Qed.

Lemma enumerate_elem {A} (l : list A) x :
  x ∈ l → ∃ idx, (idx, x) ∈ enumerate l.
Proof.
  intros Hx. destruct (enumerate_from_elem l 0 x Hx) as (idx & _ & Hidx).
  by exists idx.
Qed.

Lemma read_family_rows header rows fams k :
  Forall (λ row, row ≠ []) rows →
  for_each
    (λ '(header, families) '(idx, row),
       if bool_decide (idx = 0)
       then Ok (row, families)
       else
         key ← index0 row;
         Ok (header, <[key := dict_of_pairs (zip header row)]> families))
    (zip (seq (S k) (length rows)) rows) (header, fams)
  = Ok (header, family_rows header rows fams).
Proof.
  revert fams k. induction rows as [|row rows IH]; intros fams k Hne.
  - done.
  - inversion Hne as [|?? Hrow Hrows]; subst. destruct row as [|key row];
      [done|]. simpl. apply IH. done.
Qed.

Lemma family_rows_lookup header rows1 row rows2 key tl fams :
  row = key :: tl →
  (∀ r, r ∈ rows2 → head r ≠ Some key) →
  family_rows header (rows1 ++ row :: rows2) fams !! key
  = Some (dict_of_pairs (zip header row)).
Proof.
  intros -> Hlater. unfold family_rows. rewrite foldl_app. simpl.
  generalize (foldl
    (λ fams row, match row with
                 | key :: _ => <[key := dict_of_pairs (zip header row)]> fams
                 | [] => fams
                 end) fams rows1). intros m.
  assert (<[key:=dict_of_pairs (zip header (key :: tl))]> m !! key
          = Some (dict_of_pairs (zip header (key :: tl)))) as Hm
    by apply lookup_insert_eq.
  revert Hm. generalize (<[key:=dict_of_pairs (zip header (key :: tl))]> m).
  induction rows2 as [|r rows2 IH]; intros m' Hm'; simpl; [done|].
  apply IH.
  - intros r' Hr'. apply Hlater. by right.
  - destruct r as [|k' r]; [done|]. rewrite lookup_insert_ne; [done|].
    intros ->. eapply Hlater; [left|done].
Qed.

(** C7, as the code has it: a row of the gene table or of the hierarchy
    table whose length is not two makes the reader raise [ValueError]; an
    empty data row of the family table makes its reader raise
    [IndexError]; every other family row is stored under its first field,
    its fields paired with the header up to the shorter of the two. *)
Theorem malformed_rows :
  (∀ rows row, row ∈ rows → length row ≠ 2 →
     _read_hgnc_family_genes rows = Raise ValueError) ∧
  (∀ rows row, row ∈ rows → length row ≠ 2 →
     _read_hierarchy_info rows = Raise ValueError) ∧
  (∀ header rows, [] ∈ rows →
     _read_family_info (header :: rows) = Raise IndexError) ∧
  (∀ header rows,
     Forall (λ row, row ≠ []) rows →
     ∃ families,
       _read_family_info (header :: rows) = Ok families ∧
       ∀ rows1 row rows2 key tl,
         rows = rows1 ++ row :: rows2 → row = key :: tl →
         (∀ r, r ∈ rows2 → head r ≠ Some key) →
         families !! key = Some (dict_of_pairs (zip header row))).
Proof.
  split_and!.
  - intros rows row Hrow Hlen. unfold _read_hgnc_family_genes.
    eapply for_each_raise; [exact Hrow|..].
    + intros [g f]. destruct (unpack2_cases row) as [[? _]|[_ ->]]; done.
    + intros [g f] y _. destruct (unpack2_cases y) as [[_ [[a b] ->]]|[_ ->]].
      * right. by eexists.
      * by left.
  - intros rows row Hrow Hlen. unfold _read_hierarchy_info.
    destruct (enumerate_elem rows row Hrow) as [idx Hidx].
    eapply for_each_raise; [exact Hidx|..].
    + intros ch. destruct (unpack2_cases row) as [[? _]|[_ ->]]; done.
    + intros ch [i y] _.
      destruct (unpack2_cases y) as [[_ [[a b] ->]]|[_ ->]].
      * right. simpl. case_bool_decide; by eexists.
      * by left.
  - intros header rows Hrow. unfold _read_family_info, enumerate. simpl.
    destruct (enumerate_from_elem rows 1 [] Hrow) as (idx & Hpos & Hidx).
    erewrite for_each_raise; [done|exact Hidx|..].
    + intros [h f]. case_bool_decide; [lia|done].
    + intros [h f] [i y] _. case_bool_decide; [right; by eexists|].
      destruct y; [by left|right; by eexists].
  - intros header rows Hne. exists (family_rows header rows ∅). split.
    + unfold _read_family_info, enumerate. simpl.
      by rewrite read_family_rows.
    + intros rows1 row rows2 key tl -> Hrow Hlater.
      by eapply family_rows_lookup.
Qed.

(** A family row one field short of its header is stored all the same. *)
Lemma short_family_row_is_stored :
  _read_family_info [["id"; "abbreviation"; "name"]; ["7"; "AB"]]
  = Ok {[ "7" := dict_of_pairs [("id", "7"); ("abbreviation", "AB")] ]}.
Proof. vm_compute. reflexivity. Qed.

Lemma malformed_rows_witness :
  _read_hgnc_family_genes [["g1"; "1"]; ["g2"]] = Raise ValueError ∧
  _read_hierarchy_info [["parent"; "child"]; ["1"; "2"; "3"]]
  = Raise ValueError ∧
  _read_family_info [["id"; "abbreviation"; "name"]; []] = Raise IndexError.
Proof.
  destruct malformed_rows as (Hgenes & Hhier & Hempty & _). split_and!.
  - apply (Hgenes _ ["g2"]); [right; left|simpl; lia].
  - apply (Hhier _ ["1"; "2"; "3"]); [right; left|simpl; lia].
  - apply Hempty. left.
Defined.

(** ** Sorting *)

Section Sorting.
Context {A K : Type} (le : K → K → bool) (key : A → K).
Hypothesis le_total : ∀ a b, le a b = true ∨ le b a = true.
Hypothesis le_trans : ∀ a b c, le a b = true → le b c = true →
                               le a c = true.

Lemma insert_by_perm x l : insert_by le key x l ≡ₚ x :: l.
Proof.
  induction l as [|y l IH]; simpl; [done|].
  destruct (le (key x) (key y)); [done|]. rewrite IH. apply Permutation_swap.
Qed.

Lemma sorted_perm l : sorted le key l ≡ₚ l.
Proof.
  induction l as [|x l IH]; simpl; [done|].
  change (foldr (insert_by le key) [] l) with (sorted le key l).
  by rewrite insert_by_perm, IH.
Qed.

Lemma insert_by_sorted x l :
  StronglySorted (λ a b, le (key a) (key b) = true) l →
  StronglySorted (λ a b, le (key a) (key b) = true) (insert_by le key x l).
Proof using le_total le_trans.
  induction 1 as [|y l Hl IH Hy]; simpl.
  - repeat constructor.
  - destruct (le (key x) (key y)) eqn:Hxy.
    + constructor; [by constructor|]. constructor; [done|].
      eapply Forall_impl; [exact Hy|]. intros z Hz. simpl in *. eauto.
    + constructor; [done|]. rewrite insert_by_perm. constructor; [|done].
      destruct (le_total (key x) (key y)); congruence.
Qed.

Lemma sorted_sorted l :
  StronglySorted (λ a b, le (key a) (key b) = true) (sorted le key l).
Proof using le_total le_trans.
  induction l as [|x l IH]; simpl; [constructor|].
  by apply insert_by_sorted.
Qed.
End Sorting.

Lemma StronglySorted_weaken {A} (R R' : A → A → Prop) l :
  (∀ a b, R a b → R' a b) → StronglySorted R l → StronglySorted R' l.
Proof.
  intros HR. induction 1 as [|x l Hl IH Hx]; constructor; [done|].
  eapply Forall_impl; [exact Hx|]. auto.
Qed.

Lemma StronglySorted_fmap_2 {A B} (f : A → B) (R : B → B → Prop) l :
  StronglySorted (λ a b, R (f a) (f b)) l → StronglySorted R (f <$> l).
Proof.
  induction 1 as [|x l Hl IH Hx]; simpl; constructor; [done|].
  apply Forall_fmap. eapply Forall_impl; [exact Hx|]. done.
Qed.

Lemma string_leb_total a b : String.leb a b = true ∨ String.leb b a = true.
Proof. apply String.leb_total. Qed.

Lemma string_leb_trans a b c :
  String.leb a b = true → String.leb b c = true → String.leb a c = true.
Proof.
  intros H1%Is_true_true H2%Is_true_true. apply Is_true_true.
  change (a ≤ c)%string. by trans b.
Qed.

Lemma string_leb_antisym a b :
  String.leb a b = true → String.leb b a = true → a = b.
Proof. apply String.leb_antisym. Qed.

Lemma string_leb_refl a : String.leb a a = true.
Proof. apply Is_true_true. change (a ≤ a)%string. done. Qed.

Lemma pair_leb_key_le k1 k2 : pair_leb k1 k2 = true ↔ key_le k1 k2.
Proof.
  unfold pair_leb, key_le, String.le. case_bool_decide as Heq.
  - rewrite Heq. split.
    + intros H. split; [apply Is_true_true, string_leb_refl|].
      intros _. by apply Is_true_true.
    + intros [_ H]. by apply Is_true_true, H.
  - split.
    + intros H. split; [by apply Is_true_true|done].
    + intros [H _]. by apply Is_true_true.
Qed.

Lemma pair_leb_total k1 k2 : pair_leb k1 k2 = true ∨ pair_leb k2 k1 = true.
Proof.
  unfold pair_leb. case_bool_decide as Heq.
  - rewrite bool_decide_eq_true_2 by done. apply string_leb_total.
  - rewrite bool_decide_eq_false_2 by done. apply string_leb_total.
Qed.

Lemma pair_leb_trans k1 k2 k3 :
  pair_leb k1 k2 = true → pair_leb k2 k3 = true → pair_leb k1 k3 = true.
Proof.
  rewrite !pair_leb_key_le. unfold key_le.
  intros [H12 H12'] [H23 H23']. split; [by trans k2.1|].
  intros Heq. rewrite Heq in H12.
  assert (k2.1 = k3.1) as Heq2 by (by apply (anti_symm String.le)).
  trans k2.2; [apply H12'; congruence|by apply H23'].
Qed.

Lemma pair_leb_antisym k1 k2 :
  pair_leb k1 k2 = true → pair_leb k2 k1 = true → k1 = k2.
Proof.
  rewrite !pair_leb_key_le. unfold key_le. intros [H1 H1'] [H2 H2'].
  assert (k1.1 = k2.1) as Heq by (by apply (anti_symm String.le)).
  destruct k1, k2; simpl in *. f_equal; [done|].
  apply (anti_symm String.le); auto.
Qed.

Lemma valid_order_elem {A} `{EqDecision A} (iter : list A → list A) l x :
  valid_order iter → x ∈ iter l ↔ x ∈ l.
Proof. intros Hv. by rewrite (Hv l), elem_of_remove_dups. Qed.

Lemma valid_order_NoDup {A} `{EqDecision A} (iter : list A → list A) l :
  valid_order iter → NoDup (iter l).
Proof. intros Hv. rewrite (Hv l). apply NoDup_remove_dups. Qed.

Lemma sort_relations_perm iter_r relations :
  sort_relations iter_r relations ≡ₚ iter_r relations.
Proof. apply sorted_perm. Qed.

Lemma sort_relations_sorted iter_r relations :
  StronglySorted (λ a b, key_le (rel_key a) (rel_key b))
    (sort_relations iter_r relations).
Proof.
  eapply StronglySorted_weaken; [|apply sorted_sorted].
  - intros a b Hab. by apply pair_leb_key_le.
  - apply pair_leb_total.
  - apply pair_leb_trans.
Qed.

Lemma emitted_at_root families children family_to_gene get_hgnc_name F r :
  emitted_at families children family_to_gene get_hgnc_name F r →
  rel_root r = F.
Proof. by intros (info & fid & src & _ & _ & [[-> _]|[-> _]]). Qed.

(** The combined list holds exactly the relations that the families
    visited from the declared roots contribute. *)
Lemma load_relations_emitted families children family_to_gene get_hgnc_name
    depth hgnc_group_ids rels r :
  load_relations families children family_to_gene get_hgnc_name depth
    hgnc_group_ids = Ok rels →
  r ∈ rels ↔
  ∃ root_id, root_id ∈ hgnc_group_ids ∧
             emitted families children family_to_gene get_hgnc_name root_id r.
Proof.
  unfold load_relations.
  cut (∀ acc,
         for_each
           (λ relations hgnc_group_id,
              st ← get_relations_from_root families children family_to_gene
                     get_hgnc_name depth hgnc_group_id None [];
              Ok (relations ++ st.1)) hgnc_group_ids acc = Ok rels →
         r ∈ rels ↔
         r ∈ acc ∨
         ∃ root_id, root_id ∈ hgnc_group_ids ∧
           emitted families children family_to_gene get_hgnc_name root_id r).
  { intros Hcut Hload. rewrite (Hcut [] Hload), elem_of_nil. tauto. }
  induction hgnc_group_ids as [|root ids IH]; intros acc; simpl.
  - intros [= <-]. split; [by left|]. intros [?|(? & []%elem_of_nil & _)].
    done.
  - intros (acc' & (st & Hrun & [= <-])%bind_Ok & H)%bind_Ok.
    rewrite (IH _ H), elem_of_app.
    rewrite (run_emitted _ _ _ _ _ _ _ _ r Hrun).
    setoid_rewrite elem_of_cons. split.
    + intros [[?|?]|(root' & ? & ?)]; [by left|right..].
      * exists root. auto.
      * exists root'. auto.
    + intros [?|(root' & [->|?] & ?)]; [by left; left|by left; right|].
      right. by exists root'.
Qed.

(** C8, as the code has it: the sorted list has no duplicate, holds the
    same 6-tuples as the combined list, is ascending in (target id,
    source id), and keeps both of two relations that differ in the sixth
    field alone.  When the combined list comes from the flattener, the
    sorted list holds exactly the relations contributed by the families
    visited from some declared root, and the sixth field of each is the id
    of the family that contributes it, not the declared root. *)
Theorem sort_relations_spec (iter_r : list relation → list relation)
    (relations : list relation) :
  valid_order iter_r →
  NoDup (sort_relations iter_r relations) ∧
  (∀ r, r ∈ sort_relations iter_r relations ↔ r ∈ relations) ∧
  StronglySorted (λ a b, key_le (rel_key a) (rel_key b))
    (sort_relations iter_r relations) ∧
  (∀ sns sid kind tns tid root1 root2,
     root1 ≠ root2 →
     (sns, sid, kind, tns, tid, root1) ∈ relations →
     (sns, sid, kind, tns, tid, root2) ∈ relations →
     ∃ i j, i ≠ j ∧
       sort_relations iter_r relations !! i
       = Some (sns, sid, kind, tns, tid, root1) ∧
       sort_relations iter_r relations !! j
       = Some (sns, sid, kind, tns, tid, root2)) ∧
  (∀ families children family_to_gene get_hgnc_name depth hgnc_group_ids,
     load_relations families children family_to_gene get_hgnc_name depth
       hgnc_group_ids = Ok relations →
     ∀ r, r ∈ sort_relations iter_r relations ↔
          ∃ root_id, root_id ∈ hgnc_group_ids ∧
            traversed children family_to_gene root_id (rel_root r) ∧
            emitted_at families children family_to_gene get_hgnc_name
              (rel_root r) r).
Proof.
  intros Hv.
  assert (∀ r, r ∈ sort_relations iter_r relations ↔ r ∈ relations) as Hel.
  { intros r. by rewrite sort_relations_perm, valid_order_elem. }
  split_and!.
  - rewrite sort_relations_perm. by apply valid_order_NoDup.
  - done.
  - apply sort_relations_sorted.
  - intros sns sid kind tns tid root1 root2 Hne H1 H2.
    apply Hel, list_elem_of_lookup in H1 as [i Hi].
    apply Hel, list_elem_of_lookup in H2 as [j Hj].
    exists i, j. split_and!; [|done..]. intros ->. congruence.
  - intros families children family_to_gene get_hgnc_name depth ids Hload r.
    rewrite Hel, (load_relations_emitted _ _ _ _ _ _ _ r Hload). split.
    + intros (root & Hroot & F & HF & Hr).
      rewrite (emitted_at_root _ _ _ _ _ _ Hr). by exists root.
    + intros (root & Hroot & HF & Hr). exists root. split; [done|].
      by exists (rel_root r).
Qed.

Lemma remove_dups_valid {A} `{EqDecision A} : valid_order (@remove_dups A _).
Proof. intros l. reflexivity. Qed.

Lemma rev_order_valid {A} `{EqDecision A} : valid_order (@rev_order A _).
Proof. intros l. unfold rev_order. apply reverse_Permutation. Qed.

Lemma sort_relations_spec_witness :
  NoDup (sort_relations remove_dups two_roots) ∧
  ∃ i j, i ≠ j ∧
    sort_relations remove_dups two_roots !! i
    = Some ("HGNC", "G1", "isa", "FPLX", "FAM", "1") ∧
    sort_relations remove_dups two_roots !! j
    = Some ("HGNC", "G1", "isa", "FPLX", "FAM", "2").
Proof.
  destruct (sort_relations_spec remove_dups two_roots remove_dups_valid)
    as (Hnd & _ & _ & Hroots & _).
  split; [exact Hnd|].
  apply (Hroots "HGNC" "G1" "isa" "FPLX" "FAM" "1" "2").
  - discriminate.
  - right. right. left.
  - left.
Defined.

(** Two declared roots share the sub-family ["3"]: each of them yields
    the relations of that sub-family, with ["3"] as the sixth field, and
    the sorted list holds them once. *)
Lemma shared_sub_family_is_merged :
  load_relations shared_families shared_children shared_family_to_gene
    ex_get_hgnc_name 5 ["1"] = Ok shared_relations_1 ∧
  load_relations shared_families shared_children shared_family_to_gene
    ex_get_hgnc_name 5 ["2"] = Ok shared_relations_2 ∧
  ("HGNC", "A1", "isa", "FPLX", "SUB", "3") ∈ shared_relations_1 ∧
  ("HGNC", "A1", "isa", "FPLX", "SUB", "3") ∈ shared_relations_2 ∧
  load_relations shared_families shared_children shared_family_to_gene
    ex_get_hgnc_name 5 ["1"; "2"]
  = Ok (shared_relations_1 ++ shared_relations_2) ∧
  sort_relations remove_dups (shared_relations_1 ++ shared_relations_2)
  = [("HGNC", "A1", "isa", "FPLX", "SUB", "3");
     ("HGNC", "A2", "isa", "FPLX", "SUB", "3");
     ("FPLX", "SUB", "isa", "FPLX", "TOPA", "1");
     ("FPLX", "SUB", "isa", "FPLX", "TOPB", "2")].
Proof.
  split_and!; try (vm_compute; reflexivity); right; left.
Qed.

(** ** Redundancy detector *)

Lemma decorate_Ok {A K} (key : A → result K) l acc d :
  for_each (λ acc x, k ← key x; Ok (acc ++ [(k, x)])) l acc = Ok d →
  d.*2 = acc.*2 ++ l ∧ ∀ x, x ∈ l → is_Ok (key x).
Proof.
  revert acc. induction l as [|x l IH]; intros acc; simpl.
  - intros [= <-]. rewrite app_nil_r. split; [done|].
    intros x Hx. by apply elem_of_nil in Hx.
  - intros (acc' & (k & Hk & [= <-])%bind_Ok & H)%bind_Ok.
    apply IH in H as [-> Hall]. rewrite fmap_app, <- app_assoc. simpl.
    split; [done|]. intros y [->|Hy]%elem_of_cons; [by eexists|auto].
Qed.

Lemma sorted_raising_Ok {A K} (le : K → K → bool) (key : A → result K) l l' :
  sorted_raising le key l = Ok l' →
  l' ≡ₚ l ∧ ∀ x, x ∈ l → is_Ok (key x).
Proof.
  unfold sorted_raising. intros (d & Hd & [= <-])%bind_Ok.
  apply decorate_Ok in Hd as [Hd Hall]. split; [|done].
  rewrite sorted_perm. by rewrite Hd.
Qed.

Lemma find_overlaps_Ok iter store relations red :
  find_overlaps iter store relations = Ok red →
  ∃ st fplx hgnc,
    for_each (scan_step (gene_names_of relations)) store (Scan [] [] ∅ [])
    = Ok st ∧
    fplx_fam_members_of iter st = Ok fplx ∧
    hgnc_fam_members_of iter (gene_names_of relations) st = Ok hgnc ∧
    red = marked fplx hgnc.
Proof.
  unfold find_overlaps. intros (st & Hst & H)%bind_Ok.
  apply bind_Ok in H as (fplx & Hf & H).
  apply bind_Ok in H as (hgnc & Hh & [= <-]). by exists st, fplx, hgnc.
Qed.

Lemma fplx_fam_members_perm iter st fplx :
  fplx_fam_members_of iter st = Ok fplx →
  fplx ≡ₚ (λ f, (f, default [] (fam_members st !! f)))
            <$> iter (covered_families st).
Proof. by intros [? _]%sorted_raising_Ok. Qed.

Lemma hgnc_fam_members_perm iter names st hgnc :
  hgnc_fam_members_of iter names st = Ok hgnc →
  hgnc ≡ₚ (λ f, (f, (filter (λ gf, gf.2 = f) names).*1))
            <$> iter (hgnc_families st).
Proof. by intros [? _]%sorted_raising_Ok. Qed.

Lemma elem_of_marked fplx hgnc Y :
  Y ∈ marked fplx hgnc ↔
  ∃ i X sx sy, fplx !! i = Some (X, sx) ∧ hgnc !! i = Some (Y, sy) ∧
               set_eqb sx sy = true.
Proof.
  unfold marked, compared. rewrite list_elem_of_fmap. split.
  - intros ([[X sx] [Y' sy]] & -> & [Heq Hin]%list_elem_of_filter).
    apply list_elem_of_lookup in Hin as [i Hi].
    apply lookup_zip_Some in Hi as [Hf Hh]. by exists i, X, sx, sy.
  - intros (i & X & sx & sy & Hf & Hh & Heq).
    exists ((X, sx), (Y, sy)). split; [done|].
    apply list_elem_of_filter. split; [done|].
    apply list_elem_of_lookup. exists i. by apply lookup_zip_Some.
Qed.

(** C10: the detector compares as many pairs as the smaller of the two
    counts of touched families; a derived family beyond the length of the
    pre-existing list is never marked, and a pre-existing family beyond the
    length of the derived list is never compared. *)
Theorem zip_truncates (iter : list string → list string) store relations
    red :
  valid_order iter →
  find_overlaps iter store relations = Ok red →
  ∃ st fplx hgnc,
    for_each (scan_step (gene_names_of relations)) store (Scan [] [] ∅ [])
    = Ok st ∧
    fplx_fam_members_of iter st = Ok fplx ∧
    hgnc_fam_members_of iter (gene_names_of relations) st = Ok hgnc ∧
    red = marked fplx hgnc ∧
    length fplx = length (remove_dups (covered_families st)) ∧
    length hgnc = length (remove_dups (hgnc_families st)) ∧
    length (compared fplx hgnc) = length fplx `min` length hgnc ∧
    (∀ i Y members,
       length fplx ≤ i → hgnc !! i = Some (Y, members) → Y ∉ red) ∧
    (∀ i X members,
       length hgnc ≤ i → fplx !! i = Some (X, members) →
       ∀ hf, ((X, members), hf) ∉ compared fplx hgnc).
Proof.
  intros Hv (st & fplx & hgnc & Hst & Hf & Hh & ->)%find_overlaps_Ok.
  exists st, fplx, hgnc. split_and!; [done..| | | | |].
  - rewrite (fplx_fam_members_perm _ _ _ Hf), length_fmap. by rewrite (Hv _).
  - rewrite (hgnc_fam_members_perm _ _ _ _ Hh), length_fmap.
    by rewrite (Hv _).
  - apply length_zip_with.
  - intros i Y members Hi Hlook
      (j & X & sx & sy & Hfj & Hhj & _)%elem_of_marked.
    assert (NoDup hgnc.*1) as Hnd.
    { rewrite (hgnc_fam_members_perm _ _ _ _ Hh), <- list_fmap_compose.
      rewrite list_fmap_id. by apply valid_order_NoDup. }
    assert (i = j) as ->.
    { apply (NoDup_lookup hgnc.*1 i j Y Hnd).
      - by rewrite list_lookup_fmap, Hlook.
      - by rewrite list_lookup_fmap, Hhj. }
    apply lookup_lt_Some in Hfj. lia.
  - intros i X members Hi Hlook hf [j Hj]%list_elem_of_lookup.
    apply lookup_zip_Some in Hj as [Hfj Hhj].
    assert (NoDup fplx.*1) as Hnd.
    { rewrite (fplx_fam_members_perm _ _ _ Hf), <- list_fmap_compose.
      rewrite list_fmap_id. by apply valid_order_NoDup. }
    assert (i = j) as ->.
    { apply (NoDup_lookup fplx.*1 i j X Hnd).
      - by rewrite list_lookup_fmap, Hlook.
      - by rewrite list_lookup_fmap, Hfj. }
    apply lookup_lt_Some in Hhj. lia.
Qed.

Lemma set_eqb_spec s1 s2 : set_eqb s1 s2 = true ↔ ∀ x, x ∈ s1 ↔ x ∈ s2.
Proof.
  unfold set_eqb. rewrite andb_true_iff, !forallb_forall. split.
  - intros [H1 H2] x. split; intros Hx%list_elem_of_In.
    + apply H1 in Hx. by apply bool_decide_eq_true in Hx.
    + apply H2 in Hx. by apply bool_decide_eq_true in Hx.
  - intros H. split; intros x Hx%list_elem_of_In; apply bool_decide_eq_true;
      by apply H.
Qed.

Lemma dict_get_dict_set {V} k v (d : list (string * V)) k' :
  dict_get k' (dict_set k v d) = if decide (k = k') then Some v else dict_get k' d.
Proof.
  induction d as [|[k0 v0] d IH]; simpl.
  - case_bool_decide; case_decide; done.
  - destruct (decide (k0 = k)) as [->|Hne].
    + rewrite bool_decide_eq_true_2 by done. simpl.
      case_bool_decide; case_decide; done.
    + rewrite bool_decide_eq_false_2 by done. simpl.
      rewrite IH. case_bool_decide; case_decide; congruence.
Qed.

Lemma dict_set_keys {V} k v (d : list (string * V)) k' :
  k' ∈ (dict_set k v d).*1 ↔ k' = k ∨ k' ∈ d.*1.
Proof.
  induction d as [|[k0 v0] d IH]; simpl.
  - rewrite list_elem_of_singleton, elem_of_nil. tauto.
  - case_bool_decide as Hk; simpl in *.
    + subst. rewrite !elem_of_cons. tauto.
    + rewrite !elem_of_cons, IH. tauto.
Qed.

Lemma dict_set_NoDup {V} k v (d : list (string * V)) :
  NoDup d.*1 → NoDup (dict_set k v d).*1.
Proof.
  induction d as [|[k0 v0] d IH]; simpl; intros Hnd.
  - constructor; [apply not_elem_of_nil|constructor].
  - apply NoDup_cons in Hnd as [Hk0 Hnd]. case_bool_decide as Hk; simpl in *.
    + subst. by constructor.
    + constructor; [|auto]. rewrite dict_set_keys. intros [?|?]; done.
Qed.

Lemma dict_get_elem {V} k v (d : list (string * V)) :
  NoDup d.*1 → dict_get k d = Some v ↔ (k, v) ∈ d.
Proof.
  induction d as [|[k0 v0] d IH]; simpl; intros Hnd.
  - rewrite elem_of_nil. split; done.
  - apply NoDup_cons in Hnd as [Hk0 Hnd]. rewrite elem_of_cons.
    case_bool_decide as Hk; simpl in *.
    + subst. split.
      * intros [= ->]. by left.
      * intros [[= ->]|Hin]; [done|]. destruct Hk0.
        apply list_elem_of_fmap. by exists (k, v).
    + rewrite IH by done. split; [by right|].
      intros [[= -> ->]|?]; done.
Qed.

Lemma gene_names_of_NoDup relations : NoDup (gene_names_of relations).*1.
Proof.
  unfold gene_names_of.
  assert (NoDup (@nil (string * string)).*1) as Hnil by constructor.
  revert Hnil. generalize (@nil (string * string)).
  induction relations as [|r relations IH]; intros d Hd; simpl; [done|].
  apply IH. case_bool_decide; [by apply dict_set_NoDup|done].
Qed.

Lemma recorded_genes_filter names Y g :
  NoDup names.*1 →
  g ∈ (filter (λ gf, gf.2 = Y) names).*1 ↔ recorded_genes names Y g.
Proof.
  intros Hnd. unfold recorded_genes. rewrite dict_get_elem by done.
  rewrite list_elem_of_fmap. split.
  - intros ([g' Y'] & -> & [Heq Hin]%list_elem_of_filter). simpl in *.
    by subst.
  - intros Hin. exists (g, Y). split; [done|].
    by apply list_elem_of_filter.
Qed.

Lemma append_at_lookup k v d k' :
  default [] (append_at k v d !! k')
  = if decide (k = k') then default [] (d !! k) ++ [v]
    else default [] (d !! k').
Proof.
  unfold append_at. case_decide as Hk.
  - subst. by rewrite lookup_insert_eq.
  - by rewrite lookup_insert_ne.
Qed.

Lemma scan_step_inv names store st row st' :
  scan_inv names store st → scan_step names st row = Ok st' →
  scan_inv names (store ++ [row]) st'.
Proof.
  intros (Hfm & Hcov & Hh). unfold scan_step.
  intros ([[[[sns sid] rel] tns] tid] & Hrow & H)%bind_Ok.
  destruct row as [|? [|? [|? [|? [|? [|]]]]]]; simplify_eq/=.
  assert (∀ X g, g ∈ default []
            ((if bool_decide (sns = "HGNC") && bool_decide (tns = "FPLX")
              then append_at tid sid (fam_members st)
              else fam_members st) !! X)
          ↔ store_genes (store ++ [[sns; sid; rel; tns; tid]]) X g) as Hfm'.
  { intros X g. unfold store_genes.
    setoid_rewrite elem_of_app. setoid_rewrite list_elem_of_singleton.
    destruct (bool_decide (sns = "HGNC") && bool_decide (tns = "FPLX"))
      eqn:Hcond.
    - apply andb_true_iff in Hcond as [->%bool_decide_eq_true
                                         ->%bool_decide_eq_true].
      rewrite append_at_lookup. destruct (decide (tid = X)) as [<-|Hk].
      + rewrite elem_of_app, list_elem_of_singleton, Hfm.
        unfold store_genes. split.
        * intros [[kind ?]| ->]; [by exists kind; left|].
          exists rel. by right.
        * intros (kind & [?|[= -> ->]]); [left; by exists kind|by right].
      + rewrite Hfm. unfold store_genes. split.
        * intros [kind ?]. exists kind. by left.
        * intros (kind & [?|[= -> -> ->]]); [by exists kind|done].
    - rewrite Hfm. unfold store_genes. split.
      + intros [kind ?]. exists kind. by left.
      + intros (kind & [?|[= <- <- <- <- <-]]); [by exists kind|].
        by rewrite !bool_decide_eq_true_2 in Hcond.
  }
  destruct (if bool_decide (sns = "HGNC") then dict_get sid names else None)
    as [hgnc_fam|] eqn:Hget; injection H as <-; split_and!; simpl; try done.
  - case_bool_decide; [subst|done].
    intros X. rewrite elem_of_app, list_elem_of_singleton, Hcov.
    unfold touched. setoid_rewrite elem_of_app.
    setoid_rewrite list_elem_of_singleton. split.
    + intros [(g & kind & tns' & ? & ?)| ->].
      * exists g, kind, tns'. auto.
      * exists sid, rel, tns. split; [by right|]. by rewrite Hget.
    + intros (g & kind & tns' & [?|[= -> -> -> ->]] & ?); [|by right].
      left. by exists g, kind, tns'.
  - case_bool_decide; [subst|done].
    intros Y. rewrite elem_of_app, list_elem_of_singleton, Hh.
    unfold touched_derived. setoid_rewrite elem_of_app.
    setoid_rewrite list_elem_of_singleton. split.
    + intros [(g & kind & tns' & X & ? & ?)| ->].
      * exists g, kind, tns', X. auto.
      * exists sid, rel, tns, tid. split; [by right|done].
    + intros (g & kind & tns' & X & [?|[= -> -> -> ->]] & ?).
      * left. by exists g, kind, tns', X.
      * right. congruence.
  - intros X. rewrite Hcov. unfold touched. setoid_rewrite elem_of_app.
    setoid_rewrite list_elem_of_singleton. split.
    + intros (g & kind & tns' & ? & ?). exists g, kind, tns'. auto.
    + intros (g & kind & tns' & [?|[= <- <- <- <- <-]] & Hs).
      * by exists g, kind, tns'.
      * rewrite bool_decide_eq_true_2 in Hget by done. rewrite Hget in Hs.
        by destruct Hs.
  - intros Y. rewrite Hh. unfold touched_derived.
    setoid_rewrite elem_of_app. setoid_rewrite list_elem_of_singleton. split.
    + intros (g & kind & tns' & X & ? & ?). exists g, kind, tns', X. auto.
    + intros (g & kind & tns' & X & [?|[= <- <- <- <- <-]] & Hs).
      * by exists g, kind, tns', X.
      * rewrite bool_decide_eq_true_2 in Hget by done. congruence.
Qed.

Lemma scan_inv_for_each names rows store st st' :
  scan_inv names store st →
  for_each (scan_step names) rows st = Ok st' →
  scan_inv names (store ++ rows) st'.
Proof.
  revert store st. induction rows as [|row rows IH]; intros store st Hinv.
  - intros [= <-]. by rewrite app_nil_r.
  - simpl. intros (st1 & H1 & H2)%bind_Ok.
    replace (store ++ row :: rows) with ((store ++ [row]) ++ rows)
      by (by rewrite <- app_assoc).
    eapply IH; [|done]. by eapply scan_step_inv.
Qed.

Lemma scan_inv_init names : scan_inv names [] (Scan [] [] ∅ []).
Proof.
  split_and!; simpl.
  - intros X g. rewrite lookup_empty. simpl. rewrite elem_of_nil.
    split; [done|]. intros [kind H]. by apply elem_of_nil in H.
  - intros X. rewrite elem_of_nil. split; [done|].
    intros (g & kind & tns & H & _). by apply elem_of_nil in H.
  - intros Y. rewrite elem_of_nil. split; [done|].
    intros (g & kind & tns & X & H & _). by apply elem_of_nil in H.
Qed.

(** A marked family has a touched pre-existing family with exactly the
    genes recorded for it. *)
Lemma marked_sound iter store relations red Y :
  valid_order iter →
  find_overlaps iter store relations = Ok red → Y ∈ red →
  ∃ X, touched (gene_names_of relations) store X ∧
       ∀ g, store_genes store X g
            ↔ recorded_genes (gene_names_of relations) Y g.
Proof.
  intros Hv (st & fplx & hgnc & Hst & Hf & Hh & ->)%find_overlaps_Ok
    (i & X & sx & sy & Hfi & Hhi & Heq)%elem_of_marked.
  pose proof (scan_inv_for_each _ _ [] _ _ (scan_inv_init _) Hst)
    as (Hfm & Hcov & _). simpl in *.
  apply list_elem_of_lookup_2 in Hfi, Hhi.
  rewrite (fplx_fam_members_perm _ _ _ Hf) in Hfi.
  rewrite (hgnc_fam_members_perm _ _ _ _ Hh) in Hhi.
  apply list_elem_of_fmap in Hfi as (X' & [= -> ->] & HX).
  apply list_elem_of_fmap in Hhi as (Y' & [= -> ->] & HY).
  apply valid_order_elem in HX; [|done]. exists X'. split; [by apply Hcov|].
  intros g. rewrite <- Hfm. rewrite set_eqb_spec in Heq. rewrite Heq.
  apply recorded_genes_filter, gene_names_of_NoDup.
Qed.

Lemma zip_truncates_witness :
  ∃ fplx hgnc,
    length fplx = 3 ∧ length hgnc = 2 ∧
    length (compared fplx hgnc) = 2.
Proof.
  destruct (zip_truncates remove_dups dup_store
              [("HGNC", "A", "isa", "FPLX", "YA", "1");
               ("HGNC", "C", "isa", "FPLX", "YC", "2")] ["YA"]
              remove_dups_valid)
    as (st & fplx & hgnc & Hst & Hf & Hh & _ & _ & _ & Hlen & _).
  - vm_compute. reflexivity.
  - vm_compute in Hst. injection Hst as <-.
    vm_compute in Hf. injection Hf as <-.
    vm_compute in Hh. injection Hh as <-.
    eexists _, _. split_and!; [| |exact Hlen]; reflexivity.
Defined.

(** ** The relations that are written *)

Lemma NoDup_singleton_eq {A} (l : list A) a :
  NoDup l → (∀ x, x ∈ l ↔ x = a) → l = [a].
Proof.
  intros Hnd Hel. destruct l as [|x l].
  - assert (a ∈ @nil A) as H by (by apply Hel). by apply elem_of_nil in H.
  - assert (x = a) as -> by (apply Hel; by left). f_equal.
    destruct l as [|y l]; [done|].
    assert (y = a) as -> by (apply Hel; right; by left).
    apply NoDup_cons in Hnd as [Hnd _]. destruct Hnd. by left.
Qed.

Lemma marked_single iter store relations red X Y :
  valid_order iter →
  find_overlaps iter store relations = Ok red →
  (∀ X', touched (gene_names_of relations) store X' ↔ X' = X) →
  (∀ Y', touched_derived (gene_names_of relations) store Y' ↔ Y' = Y) →
  Y ∈ red ↔ (∀ g, store_genes store X g
                  ↔ recorded_genes (gene_names_of relations) Y g).
Proof.
  intros Hv (st & fplx & hgnc & Hst & Hf & Hh & ->)%find_overlaps_Ok HX HY.
  pose proof (scan_inv_for_each _ _ [] _ _ (scan_inv_init _) Hst)
    as (Hfm & Hcov & Hhg). simpl in *.
  assert (iter (covered_families st) = [X]) as HiX.
  { apply NoDup_singleton_eq; [by apply valid_order_NoDup|].
    intros X'. by rewrite valid_order_elem, Hcov, HX. }
  assert (iter (hgnc_families st) = [Y]) as HiY.
  { apply NoDup_singleton_eq; [by apply valid_order_NoDup|].
    intros Y'. by rewrite valid_order_elem, Hhg, HY. }
  apply fplx_fam_members_perm in Hf. rewrite HiX in Hf.
  apply Permutation_singleton_r in Hf as ->.
  apply hgnc_fam_members_perm in Hh. rewrite HiY in Hh.
  apply Permutation_singleton_r in Hh as ->.
  unfold marked, compared. simpl.
  rewrite filter_cons, filter_nil. simpl.
  pose proof (set_eqb_spec (default [] (fam_members st !! X))
    (filter (λ gf, gf.2 = Y) (gene_names_of relations)).*1) as Hspec.
  destruct (set_eqb _ _) eqn:Heq.
  - rewrite decide_True by done. simpl. split; [intros _|intros _; by apply list_elem_of_singleton].
    intros g. rewrite <- Hfm. destruct Hspec as [Hspec _].
    rewrite (Hspec eq_refl g).
    apply recorded_genes_filter, gene_names_of_NoDup.
  - rewrite decide_False by done. simpl. split.
    + intros H. by apply elem_of_nil in H.
    + intros H. destruct Hspec as [_ Hspec]. discriminate Hspec.
      intros g. rewrite Hfm, H. symmetry.
      apply recorded_genes_filter, gene_names_of_NoDup.
Qed.

Lemma decorate_keys {A K} (key : A → result K) l acc d :
  for_each (λ acc x, k ← key x; Ok (acc ++ [(k, x)])) l acc = Ok d →
  Forall (λ kx, key kx.2 = Ok kx.1) acc →
  Forall (λ kx, key kx.2 = Ok kx.1) d.
Proof.
  revert acc. induction l as [|x l IH]; intros acc; simpl.
  - by intros [= <-].
  - intros (acc' & (k & Hk & [= <-])%bind_Ok & H)%bind_Ok Hacc.
    apply (IH _ H). apply Forall_app. split; [done|].
    by apply Forall_singleton.
Qed.

Lemma sorted_raising_sorted {A K} (le : K → K → bool) (key : A → result K)
    l l' :
  (∀ a b, le a b = true ∨ le b a = true) →
  (∀ a b c, le a b = true → le b c = true → le a c = true) →
  sorted_raising le key l = Ok l' →
  ∃ keys, Forall2 (λ x k, key x = Ok k) l' keys ∧
          StronglySorted (λ a b, le a b = true) keys.
Proof.
  intros Htot Htrans. unfold sorted_raising.
  intros (d & Hd & [= <-])%bind_Ok.
  apply decorate_keys in Hd; [|constructor].
  exists (sorted le fst d).*1. split.
  - apply Forall2_fmap, Forall_Forall2_diag.
    rewrite sorted_perm. exact Hd.
  - apply StronglySorted_fmap_2. by apply (sorted_sorted le fst).
Qed.

Lemma listed_fplx iter names store st fplx :
  valid_order iter →
  scan_inv names store st →
  fplx_fam_members_of iter st = Ok fplx →
  listed_by_representative iter (touched names store) (store_genes store)
    fplx.
Proof.
  intros Hv (Hfm & Hcov & _) Hf.
  pose proof (fplx_fam_members_perm _ _ _ Hf) as Hperm.
  split_and!.
  - rewrite Hperm, <- list_fmap_compose, list_fmap_id.
    by apply valid_order_NoDup.
  - intros X. rewrite Hperm, <- list_fmap_compose, list_fmap_id.
    by rewrite valid_order_elem, Hcov.
  - intros X s g. rewrite Hperm.
    intros (X' & [= -> ->] & _)%list_elem_of_fmap. apply Hfm.
  - destruct (sorted_raising_sorted _ _ _ _ string_leb_total
                string_leb_trans Hf) as (keys & Hkeys & Hsorted).
    exists keys. split; [done|].
    eapply StronglySorted_weaken; [|exact Hsorted].
    intros a b Hab. by apply Is_true_true.
Qed.

Lemma listed_hgnc iter relations store st hgnc :
  valid_order iter →
  scan_inv (gene_names_of relations) store st →
  hgnc_fam_members_of iter (gene_names_of relations) st = Ok hgnc →
  listed_by_representative iter
    (touched_derived (gene_names_of relations) store)
    (recorded_genes (gene_names_of relations)) hgnc.
Proof.
  intros Hv (_ & _ & Hhg) Hh.
  pose proof (hgnc_fam_members_perm _ _ _ _ Hh) as Hperm.
  split_and!.
  - rewrite Hperm, <- list_fmap_compose, list_fmap_id.
    by apply valid_order_NoDup.
  - intros Y. rewrite Hperm, <- list_fmap_compose, list_fmap_id.
    by rewrite valid_order_elem, Hhg.
  - intros Y s g. rewrite Hperm.
    intros (Y' & [= -> ->] & _)%list_elem_of_fmap.
    apply recorded_genes_filter, gene_names_of_NoDup.
  - destruct (sorted_raising_sorted _ _ _ _ string_leb_total
                string_leb_trans Hh) as (keys & Hkeys & Hsorted).
    exists keys. split; [done|].
    eapply StronglySorted_weaken; [|exact Hsorted].
    intros a b Hab. by apply Is_true_true.
Qed.

(** The detector lists the touched families of both sides by their
    representatives and marks the derived families that stand at the
    position of a pre-existing family with the same members. *)
Lemma find_overlaps_positional iter store relations red :
  valid_order iter →
  find_overlaps iter store relations = Ok red →
  ∃ fplx hgnc,
    listed_by_representative iter
      (touched (gene_names_of relations) store) (store_genes store) fplx ∧
    listed_by_representative iter
      (touched_derived (gene_names_of relations) store)
      (recorded_genes (gene_names_of relations)) hgnc ∧
    ∀ Y, Y ∈ red ↔ marked_at_same_position fplx hgnc Y.
Proof.
  intros Hv (st & fplx & hgnc & Hst & Hf & Hh & ->)%find_overlaps_Ok.
  pose proof (scan_inv_for_each _ _ [] _ _ (scan_inv_init _) Hst) as Hinv.
  simpl in Hinv. exists fplx, hgnc. split_and!.
  - by eapply listed_fplx.
  - by eapply listed_hgnc.
  - intros Y. rewrite elem_of_marked. unfold marked_at_same_position.
    by setoid_rewrite set_eqb_spec.
Qed.

Lemma elem_of_drop_redundant red relations r :
  r ∈ drop_redundant red relations ↔ r ∈ relations ∧ rel_tid r ∉ red.
Proof. unfold drop_redundant. rewrite list_elem_of_filter. tauto. Qed.

Lemma elem_of_entities_of iter_s relations Y :
  valid_order iter_s →
  Y ∈ entities_of iter_s relations ↔ ∃ r, r ∈ relations ∧ rel_tid r = Y.
Proof.
  intros Hv. unfold entities_of.
  rewrite sorted_perm, valid_order_elem, list_elem_of_fmap by done.
  split; intros (r & ? & ?); by exists r.
Qed.

Lemma map_raising_Ok {A B} (f : A → result B) l l' :
  map_raising f l = Ok l' → Forall2 (λ x y, f x = Ok y) l l'.
Proof.
  revert l'. induction l as [|x l IH]; intros l'; simpl.
  - intros [= <-]. constructor.
  - intros (y & Hy & (ys & Hys & [= <-])%bind_Ok)%bind_Ok.
    constructor; auto.
Qed.

Lemma equivs_rows families (l : list Z) acc eqs :
  for_each
    (λ equivs fid,
       fam ← getitem families (py_str fid);
       famplex_id ← get_famplex_id fam;
       Ok (equivs ++ [["HGNC_GROUP"; py_str fid; famplex_id]]))
    l acc = Ok eqs →
  ∀ row, row ∈ eqs →
    row ∈ acc ∨
    ∃ n fam id, n ∈ l ∧ families !! py_str n = Some fam ∧
                get_famplex_id fam = Ok id ∧
                row = ["HGNC_GROUP"; py_str n; id].
Proof.
  revert acc. induction l as [|n l IH]; intros acc; simpl.
  - intros [= <-] row Hrow. by left.
  - intros (acc' & Hstep & H)%bind_Ok row Hrow.
    apply bind_Ok in Hstep as (fam & Hfam%getitem_Ok & Hstep).
    apply bind_Ok in Hstep as (fid & Hid & [= <-]).
    destruct (IH _ H row Hrow) as [Hin|(n' & fam' & id' & Hn' & ?)].
    + apply elem_of_app in Hin as [?| ->%list_elem_of_singleton]; [by left|].
      right. exists n, fam, fid. split_and!; [by left|done..].
    + right. exists n', fam', id'. split; [by right|done].
Qed.

Lemma equivs_of_rows families iter_z relations eqs :
  valid_order iter_z →
  equivs_of families iter_z relations = Ok eqs →
  ∀ row, row ∈ eqs →
    ∃ r n fam id, r ∈ relations ∧ py_int (rel_root r) = Ok n ∧
      families !! py_str n = Some fam ∧ get_famplex_id fam = Ok id ∧
      row = ["HGNC_GROUP"; py_str n; id].
Proof.
  intros Hv. unfold equivs_of. intros (ids & Hids & H)%bind_Ok row Hrow.
  destruct (equivs_rows _ _ _ _ H row Hrow)
    as [Hnil|(n & fam & id & Hn & Hfam & Hid & ->)];
    [by apply elem_of_nil in Hnil|].
  rewrite sorted_perm, valid_order_elem in Hn by done.
  apply map_raising_Ok in Hids.
  apply list_elem_of_lookup in Hn as [i Hi].
  eapply Forall2_lookup_r in Hids as (r & Hr & Hint); [|exact Hi].
  apply list_elem_of_lookup_2 in Hr. by exists r, n, fam, id.
Qed.

(** ** Determinism of the output *)

Lemma valid_order_nil {A} `{EqDecision A} (iter : list A → list A) :
  valid_order iter → iter [] = [].
Proof. intros Hv. apply Permutation_nil_r. by rewrite (Hv []). Qed.

Lemma find_overlaps_empty_store iter relations :
  valid_order iter → find_overlaps iter [] relations = Ok [].
Proof.
  intros Hv. unfold find_overlaps. simpl.
  unfold fplx_fam_members_of, hgnc_fam_members_of. simpl.
  by rewrite (valid_order_nil iter Hv).
Qed.

Lemma drop_redundant_nil relations : drop_redundant [] relations = relations.
Proof.
  unfold drop_redundant. induction relations as [|r l IH]; [done|].
  rewrite filter_cons_True by apply not_elem_of_nil. by rewrite IH.
Qed.

Lemma valid_order_perm {A} `{EqDecision A}
    (iter1 iter2 : list A → list A) l1 l2 :
  valid_order iter1 → valid_order iter2 → (∀ x, x ∈ l1 ↔ x ∈ l2) →
  iter1 l1 ≡ₚ iter2 l2.
Proof.
  intros Hv1 Hv2 Hel. rewrite (Hv1 l1), (Hv2 l2).
  apply NoDup_Permutation; [apply NoDup_remove_dups..|].
  intros x. by rewrite !elem_of_remove_dups.
Qed.

(** Two sorted iterations over the same set of keys agree. *)
Lemma sorted_unique {A} `{EqDecision A} (le : A → A → bool)
    (iter1 iter2 : list A → list A) l1 l2 :
  (∀ a b, le a b = true ∨ le b a = true) →
  (∀ a b c, le a b = true → le b c = true → le a c = true) →
  (∀ a b, le a b = true → le b a = true → a = b) →
  valid_order iter1 → valid_order iter2 → (∀ x, x ∈ l1 ↔ x ∈ l2) →
  sorted le id (iter1 l1) = sorted le id (iter2 l2).
Proof.
  intros Htot Htrans Hanti Hv1 Hv2 Hel.
  eapply (StronglySorted_unique_strong (λ a b, le a b = true)).
  - intros x1 x2 _ _. apply Hanti.
  - by apply (sorted_sorted le id).
  - by apply (sorted_sorted le id).
  - rewrite !sorted_perm. by apply valid_order_perm.
Qed.

Lemma Z_leb_total a b : (a <=? b)%Z = true ∨ (b <=? a)%Z = true.
Proof. rewrite !Z.leb_le. lia. Qed.

Lemma Z_leb_trans a b c :
  (a <=? b)%Z = true → (b <=? c)%Z = true → (a <=? c)%Z = true.
Proof. rewrite !Z.leb_le. lia. Qed.

Lemma Z_leb_antisym a b :
  (a <=? b)%Z = true → (b <=? a)%Z = true → a = b.
Proof. rewrite !Z.leb_le. lia. Qed.

Lemma add_relations_to_famplex_fst relations :
  add_relations_to_famplex relations
  = concat_lines (render5 <$> (fst <$> relations)).
Proof.
  unfold add_relations_to_famplex. f_equal.
  rewrite <- list_fmap_compose. apply list_fmap_ext.
  by intros i [[[[[??]?]?]?]?] _.
Qed.

Lemma sort_relations_unique iter1 iter2 relations :
  valid_order iter1 → valid_order iter2 →
  (∀ r1 r2, r1 ∈ relations → r2 ∈ relations →
            rel_key r1 = rel_key r2 → r1.1 = r2.1) →
  fst <$> sort_relations iter1 relations
  = fst <$> sort_relations iter2 relations.
Proof.
  intros Hv1 Hv2 Hkeys.
  set (key5 := λ p : string * string * string * string * string,
                 (p.2, p.1.1.1.2)).
  eapply (StronglySorted_unique_strong
            (λ a b, key_le (key5 a) (key5 b))).
  - intros x1 x2 (r1 & -> & H1)%list_elem_of_fmap
      (r2 & -> & H2)%list_elem_of_fmap Hle1 Hle2.
    rewrite sort_relations_perm, valid_order_elem in H1, H2 by done.
    apply Hkeys; [done..|].
    apply pair_leb_antisym; by apply pair_leb_key_le.
  - apply StronglySorted_fmap_2, sort_relations_sorted.
  - apply StronglySorted_fmap_2, sort_relations_sorted.
  - apply fmap_Permutation. rewrite !sort_relations_perm.
    by apply valid_order_perm.
Qed.

Lemma main_relations_empty_store families children family_to_gene
    get_hgnc_name iter_s iter_r depth hgnc_group_ids final :
  valid_order iter_s →
  main_relations families children family_to_gene get_hgnc_name iter_s
    iter_r depth hgnc_group_ids [] = Ok final →
  ∃ rels,
    load_relations families children family_to_gene get_hgnc_name depth
      hgnc_group_ids = Ok rels ∧
    final = sort_relations iter_r rels.
Proof.
  intros Hv. unfold main_relations. intros (rels & Hload & H)%bind_Ok.
  rewrite find_overlaps_empty_store in H by done. simpl in H.
  injection H as <-. exists rels. by rewrite drop_redundant_nil.
Qed.

Lemma map_raising_elem {A B} (f : A → result B) l l' y :
  map_raising f l = Ok l' → y ∈ l' ↔ ∃ x, x ∈ l ∧ f x = Ok y.
Proof.
  intros H%map_raising_Ok. split.
  - intros [i Hi]%list_elem_of_lookup.
    eapply Forall2_lookup_r in H as (x & Hx & Hf); [|exact Hi].
    exists x. split; [|done]. by eapply list_elem_of_lookup_2.
  - intros (x & [i Hi]%list_elem_of_lookup & Hf).
    eapply Forall2_lookup_l in H as (y' & Hy & Hf'); [|exact Hi].
    rewrite Hf in Hf'. injection Hf' as <-. by eapply list_elem_of_lookup_2.
Qed.

Lemma add_equivalences_unique families iter1 iter2 l1 l2 e1 e2 :
  valid_order iter1 → valid_order iter2 → l1 ≡ₚ l2 →
  add_equivalences families iter1 l1 = Ok e1 →
  add_equivalences families iter2 l2 = Ok e2 →
  e1 = e2.
Proof.
  intros Hv1 Hv2 Hperm. unfold add_equivalences, equivs_of.
  intros (eq1 & (ids1 & Hids1 & H1)%bind_Ok & [= <-])%bind_Ok.
  intros (eq2 & (ids2 & Hids2 & H2)%bind_Ok & [= <-])%bind_Ok.
  assert (sorted Z.leb id (iter1 ids1) = sorted Z.leb id (iter2 ids2)) as Hs.
  { apply sorted_unique; [apply Z_leb_total|apply Z_leb_trans
                          |apply Z_leb_antisym|done..|].
    intros n. rewrite (map_raising_elem _ _ _ _ Hids1).
    rewrite (map_raising_elem _ _ _ _ Hids2).
    by setoid_rewrite Hperm. }
  rewrite Hs in H1. rewrite H1 in H2. by injection H2 as <-.
Qed.

(** C6, as the code has it: two runs on the same inputs and an empty
    store append the same three texts, whatever the iteration orders of
    their sets, provided that relations with the same (target id,
    source id) agree on the five fields that are written. *)
Theorem deterministic_output families children family_to_gene get_hgnc_name
    depth iter_s1 iter_r1 iter_z1 iter_s2 iter_r2 iter_z2 hgnc_group_ids
    rels o1 o2 :
  valid_order iter_s1 → valid_order iter_r1 → valid_order iter_z1 →
  valid_order iter_s2 → valid_order iter_r2 → valid_order iter_z2 →
  load_relations families children family_to_gene get_hgnc_name depth
    hgnc_group_ids = Ok rels →
  (∀ r1 r2, r1 ∈ rels → r2 ∈ rels → rel_key r1 = rel_key r2 →
            r1.1 = r2.1) →
  main families children family_to_gene get_hgnc_name iter_s1 iter_r1
    iter_z1 depth hgnc_group_ids [] = Ok o1 →
  main families children family_to_gene get_hgnc_name iter_s2 iter_r2
    iter_z2 depth hgnc_group_ids [] = Ok o2 →
  o1 = o2.
Proof.
  intros Hs1 Hr1 Hz1 Hs2 Hr2 Hz2 Hload Hkeys.
  unfold main.
  intros (f1 & Hf1 & (e1 & He1 & [= <-])%bind_Ok)%bind_Ok.
  intros (f2 & Hf2 & (e2 & He2 & [= <-])%bind_Ok)%bind_Ok.
  apply main_relations_empty_store in Hf1 as (rels1 & Hl1 & ->); [|done].
  apply main_relations_empty_store in Hf2 as (rels2 & Hl2 & ->); [|done].
  rewrite Hload in Hl1, Hl2. injection Hl1 as <-. injection Hl2 as <-.
  assert (sort_relations iter_r1 rels ≡ₚ sort_relations iter_r2 rels)
    as Hperm.
  { rewrite !sort_relations_perm. by apply valid_order_perm. }
  f_equal.
  - rewrite !add_relations_to_famplex_fst. do 2 f_equal.
    by apply sort_relations_unique.
  - unfold entities_of. f_equal.
    apply sorted_unique; [apply string_leb_total|apply string_leb_trans
                          |apply string_leb_antisym|done..|].
    intros Y. rewrite !list_elem_of_fmap. by setoid_rewrite Hperm.
  - exact (add_equivalences_unique _ _ _ _ _ _ _ Hz1 Hz2 Hperm He1 He2).
Qed.

Lemma deterministic_output_witness :
  main ex_families ex_children ex_family_to_gene ex_get_hgnc_name
    remove_dups remove_dups remove_dups 5 ["1"] []
  = main ex_families ex_children ex_family_to_gene ex_get_hgnc_name
      rev_order rev_order rev_order 5 ["1"] [].
Proof.
  destruct (main ex_families ex_children ex_family_to_gene ex_get_hgnc_name
              remove_dups remove_dups remove_dups 5 ["1"] []) as [o1|e1]
    eqn:H1; [|vm_compute in H1; discriminate H1].
  destruct (main ex_families ex_children ex_family_to_gene ex_get_hgnc_name
              rev_order rev_order rev_order 5 ["1"] []) as [o2|e2]
    eqn:H2; [|vm_compute in H2; discriminate H2].
  f_equal.
  apply (deterministic_output ex_families ex_children ex_family_to_gene
           ex_get_hgnc_name 5 remove_dups remove_dups remove_dups
           rev_order rev_order rev_order ["1"]
           [("HGNC", "G1", "isa", "FPLX", "FAM", "1");
            ("FPLX", "Sub_family", "isa", "FPLX", "FAM", "1");
            ("HGNC", "A1", "isa", "FPLX", "Sub_family", "2");
            ("HGNC", "A2", "isa", "FPLX", "Sub_family", "2");
            ("HGNC", "B1", "isa", "FPLX", "FAM", "1")] o1 o2
           remove_dups_valid remove_dups_valid remove_dups_valid
           rev_order_valid rev_order_valid rev_order_valid);
    [| |exact H1|exact H2].
  - vm_compute. reflexivity.
  - intros r1 r2 Hr1 Hr2.
    repeat (apply elem_of_cons in Hr1 as [->|Hr1]);
      try (by apply elem_of_nil in Hr1);
      repeat (apply elem_of_cons in Hr2 as [->|Hr2]);
      try (by apply elem_of_nil in Hr2);
      vm_compute; congruence.
Defined.

(** With a gene named like a sub-family of the same parent, two relations
    share their sort key and two runs may write them in either order. *)
Lemma output_depends_on_set_order :
  valid_order (@remove_dups relation _) ∧
  valid_order (@rev_order relation _) ∧
  ∃ o1 o2,
    main clash_families clash_children clash_family_to_gene
      (λ g, clash_names !! g) remove_dups remove_dups remove_dups 5 ["1"] []
    = Ok o1 ∧
    main clash_families clash_children clash_family_to_gene
      (λ g, clash_names !! g) remove_dups rev_order remove_dups 5 ["1"] []
    = Ok o2 ∧
    relations_csv o1 ≠ relations_csv o2.
Proof.
  split; [apply remove_dups_valid|]. split; [apply rev_order_valid|].
  eexists _, _. split_and!; [vm_compute; reflexivity..|].
  vm_compute. discriminate.
Qed.

(** * Further properties *)

(** ** More on the hierarchy flattener *)

Lemma for_each_shift {A S} (f : S → S) (body : S → A → result S) l s :
  (∀ s x, x ∈ l → body (f s) x = result_map f (body s x)) →
  for_each body l (f s) = result_map f (for_each body l s).
Proof.
  revert s. induction l as [|x l IH]; intros s Hb; simpl; [done|].
  rewrite Hb by left. destruct (body s x) as [s'|e]; simpl; [|done].
  apply IH. intros ???. apply Hb. by right.
Qed.

Lemma for_each_mono {A S} (body1 body2 : S → A → result S) l s s' :
  (∀ s x s', x ∈ l → body1 s x = Ok s' → body2 s x = Ok s') →
  for_each body1 l s = Ok s' → for_each body2 l s = Ok s'.
Proof.
  revert s. induction l as [|x l IH]; intros s Hb; simpl; [done|].
  intros (s1 & H1 & H2)%bind_Ok. erewrite Hb; [|left|done]. simpl.
  apply IH; [|done]. intros ???? ?. apply Hb; [by right|done].
Qed.

Section FlattenerMore.
Variable families : gmap string family.
Variable children : gmap string (list string).
Variable family_to_gene : gmap string (list string).
Variable get_hgnc_name : string → option string.

Local Abbreviation run :=
  (get_relations_from_root families children family_to_gene get_hgnc_name).
Local Abbreviation genes_of := (genes_of family_to_gene).
Local Abbreviation collapses := (collapses children family_to_gene).
Local Abbreviation recursed := (recursed children family_to_gene).
Local Abbreviation traversed := (traversed children family_to_gene).
Local Abbreviation emitted :=
  (emitted families children family_to_gene get_hgnc_name).
Local Abbreviation gene_step := (gene_step get_hgnc_name).
Local Abbreviation child_step :=
  (child_step families children family_to_gene get_hgnc_name).
Local Abbreviation named_gene := (named_gene get_hgnc_name).
Local Abbreviation can_flatten :=
  (flattenable families children family_to_gene get_hgnc_name).

(** X1: a call that returns keeps the relations it was given and adds only
    ["isa"] relations into the namespace ["FPLX"]; the target of each is
    the canonical id of a visited family, which its last field names; the
    source is the display name that the name service gives to a member
    gene of that family or to the single gene of one of its collapsed
    children, and is not a pseudogene; or it is the canonical id of a
    child of that family that the traversal recurses into. *)
Theorem flatten_relations_shape depth root_id relations out rels' out' :
  run depth root_id relations out = Ok (rels', out') →
  ∃ new lines,
    rels' = default [] relations ++ new ∧ out' = out ++ lines ∧
    ∀ r, r ∈ new →
      rel_kind r = "isa" ∧ rel_tns r = "FPLX" ∧
      traversed root_id (rel_root r) ∧
      (∃ info, families !! rel_root r = Some info ∧
               get_famplex_id info = Ok (rel_tid r)) ∧
      ((rel_sns r = "HGNC" ∧ is_pseudogene (Some (rel_sid r)) = Ok false ∧
        ∃ g, get_hgnc_name g = Some (rel_sid r) ∧
             (g ∈ genes_of (rel_root r) ∨
              ∃ c, collapsed_child children family_to_gene (rel_root r) c g))
       ∨
       (rel_sns r = "FPLX" ∧
        ∃ c info_c, recursed (rel_root r) c ∧ families !! c = Some info_c ∧
                    get_famplex_id info_c = Ok (rel_sid r))).
Proof.
  intros Hrun.
  destruct (run_extends _ _ _ _ _ _ _ _ _ Hrun)
    as (new & lines & [= -> ->] & Hnew).
  exists new, lines. split_and!; [done..|]. intros r Hr.
  eapply Forall_forall in Hnew as (F & HF & info & fid & src & Hi & Hid & Hc);
    [|exact Hr].
  destruct Hc as [(-> & Hps & g & Hg & Hmem)|(-> & c & ic & Hc & Hic & Hidc)].
  - split_and!; [done..|by exists info|]. left. split_and!; [done..|].
    by exists g.
  - split_and!; [done..|by exists info|]. right. split; [done|].
    by exists c, ic.
Qed.

Lemma gene_step_shift rels out famplex_id root_id st g :
  gene_step famplex_id root_id (shift rels out st) g
  = result_map (shift rels out) (gene_step famplex_id root_id st g).
Proof.
  unfold gene_step. destruct (named_gene g) as [[name pseudo]|e];
    simpl; [|done].
  destruct pseudo; unfold shift; simpl; by rewrite !app_assoc.
Qed.

Lemma child_step_shift rec rels out famplex_id root_id st c :
  (∀ c st, rec c (shift rels out st) = result_map (shift rels out) (rec c st)) →
  child_step rec famplex_id root_id (shift rels out st) c
  = result_map (shift rels out) (child_step rec famplex_id root_id st c).
Proof.
  intros Hrec. unfold child_step. destruct (collapses c).
  - destruct (index0 (genes_of c)) as [g|e]; simpl; [|done].
    destruct (named_gene g) as [[name pseudo]|e]; simpl; [|done].
    destruct pseudo; unfold shift; simpl; by rewrite !app_assoc.
  - destruct (getitem families c) as [ic|e]; simpl; [|done].
    destruct (get_famplex_id ic) as [idc|e]; simpl; [|done].
    rewrite <- Hrec. unfold shift. simpl. by rewrite app_assoc.
Qed.

Lemma run_shift depth root_id rels out rels0 out0 :
  run depth root_id (Some (rels ++ rels0)) (out ++ out0)
  = result_map (shift rels out) (run depth root_id (Some rels0) out0).
Proof.
  revert root_id rels0 out0.
  induction depth as [|depth IH]; intros root_id rels0 out0; [done|].
  simpl. destruct (getitem families root_id) as [info|e]; simpl; [|done].
  destruct (get_famplex_id info) as [fid|e]; simpl; [|done].
  change (rels ++ rels0, out ++ out0) with (shift rels out (rels0, out0)).
  rewrite for_each_shift by (intros; apply gene_step_shift).
  destruct (for_each (gene_step fid root_id) (genes_of root_id) (rels0, out0))
    as [st1|e]; simpl; [|done].
  destruct (children !! root_id) as [cs|]; [|done].
  apply for_each_shift. intros s c _. apply child_step_shift.
  intros c' [r o]. unfold shift. simpl. apply IH.
Qed.

(** X2: a call with an accumulator does what a fresh call does, its
    relations and lines placed after those given; it raises what the fresh
    call raises. *)
Theorem flatten_accumulator depth root_id relations out :
  run depth root_id (Some relations) out
  = result_map (shift relations out) (run depth root_id None []).
Proof.
  rewrite run_None.
  rewrite <- (app_nil_r relations) at 1. rewrite <- (app_nil_r out) at 1.
  apply run_shift.
Qed.

Lemma run_unfold depth root_id relations out :
  run (S depth) root_id relations out
  = (family_info ← getitem families root_id;
     famplex_id ← get_famplex_id family_info;
     st ← for_each (gene_step famplex_id root_id) (genes_of root_id)
            (default [] relations, out);
     match children !! root_id with
     | None => Ok st
     | Some child_ids =>
         for_each
           (child_step (λ child_id st, run depth child_id (Some st.1) st.2)
              famplex_id root_id) child_ids st
     end).
Proof. reflexivity. Qed.

Lemma run_S depth root_id relations out st :
  run depth root_id relations out = Ok st →
  run (S depth) root_id relations out = Ok st.
Proof.
  revert root_id relations out st.
  induction depth as [|depth IH]; intros root_id relations out st; [done|].
  intros Hrun. apply run_Ok in Hrun
    as (d & info & fid & st1 & [= <-] & Hinfo & Hid & Hg & H).
  rewrite run_unfold. unfold getitem at 1. rewrite Hinfo.
  cbn [mbind result_bind]. rewrite Hid. cbn [mbind result_bind].
  rewrite Hg. cbn [mbind result_bind].
  destruct (children !! root_id) as [cs|]; [|by subst].
  eapply for_each_mono; [|exact H]. intros s c s' _ Hs.
  unfold child_step in Hs |- *. destruct (collapses c); [done|].
  destruct (getitem families c) as [ic|]; [|done].
  cbn [mbind result_bind] in Hs |- *.
  destruct (get_famplex_id ic) as [idc|]; [|done].
  cbn [mbind result_bind] in Hs |- *. by apply IH.
Qed.

(** X3: a call that returns under one recursion limit returns the same
    under every larger one. *)
Theorem flatten_depth_monotone depth depth' root_id relations out st :
  depth ≤ depth' →
  get_relations_from_root families children family_to_gene get_hgnc_name
    depth root_id relations out = Ok st →
  get_relations_from_root families children family_to_gene get_hgnc_name
    depth' root_id relations out = Ok st.
Proof.
  induction 1 as [|d' _ IH]; [done|]. intros Hrun. by apply run_S, IH.
Qed.
Lemma run_flattenable depth F relations out :
  is_Ok (run depth F relations out) → can_flatten depth F = true.
Proof.
  revert F relations out.
  induction depth as [|depth IH]; intros F relations out [st Hrun]; [done|].
  apply run_Ok in Hrun
    as (d & info & fid & st1 & [= <-] & Hinfo & Hid & Hg & H).
  cbn [flattenable]. rewrite Hinfo, Hid. apply andb_true_iff. split.
  - apply forallb_forall. intros g Hgin%list_elem_of_In.
    eapply for_each_elem in Hg as (l1 & l2 & s1 & s2 & _ & _ & Hs & _);
      [|exact Hgin].
    apply gene_step_Ok in Hs as (name & pseudo & Hn & _).
    apply bool_decide_eq_true. by eexists.
  - destruct (children !! F) as [cs|]; [|done]. simpl.
    apply forallb_forall. intros c Hc%list_elem_of_In.
    eapply for_each_elem in H as (l1 & l2 & s1 & s2 & Hl & H1 & Hs & H2);
      [|exact Hc].
    apply child_step_Ok in Hs
      as [(-> & g & name & pseudo & -> & Hn & _)
         |(-> & ic & idc & -> & -> & Hs)].
    + simpl. rewrite andb_true_r. apply bool_decide_eq_true. by eexists.
    + eapply IH. by eexists.
Qed.

(** X4: a call returns exactly when, within the recursion limit, every
    visited family has a metadata record with an identifier and every
    gene it reads has a display name; neither the accumulator nor the
    pseudogene test has a part in it. *)
Theorem flatten_returns_iff depth F relations out :
  is_Ok (run depth F relations out) ↔ can_flatten depth F = true.
Proof. split; [apply run_flattenable|apply run_total]. Qed.

Lemma flattenable_child depth F c :
  can_flatten (S depth) F = true → recursed F c → can_flatten depth c = true.
Proof.
  cbn [flattenable]. destruct (families !! F) as [info|]; [|done].
  destruct (get_famplex_id info); [|done].
  intros [_ H]%andb_true_iff (cs & Hcs & Hc & Hcol). rewrite Hcs in H.
  simpl in H. eapply forallb_forall in H; [|by apply list_elem_of_In].
  rewrite Hcol in H. destruct (families !! c) as [ic|]; [|done].
  by destruct (get_famplex_id ic).
Qed.

Lemma flattenable_traversed depth root F :
  can_flatten depth root = true → traversed root F →
  ∃ depth', can_flatten depth' F = true.
Proof.
  intros Hroot HF. revert depth Hroot.
  induction HF as [root|root c F Hc HF IH]; intros depth Hroot; [by eauto|].
  destruct depth as [|depth]; [done|].
  eapply IH. by eapply flattenable_child.
Qed.

Lemma flattenable_cycle depth F :
  tc recursed F F → can_flatten depth F = false.
Proof.
  revert F. induction depth as [|depth IH]; intros F Hcycle; [done|].
  destruct (can_flatten (S depth) F) eqn:HF; [|done].
  assert (∃ c, recursed F c ∧ rtc recursed c F) as (c & Hc & HcF).
  { inversion Hcycle as [?? H|? c ? H Htc]; subst.
    - exists F. split; [done|apply rtc_refl].
    - exists c. split; [done|]. by apply tc_rtc. }
  pose proof (flattenable_child _ _ _ HF Hc) as Hc'.
  rewrite IH in Hc'; [done|].
  eapply tc_rtc_l; [exact HcF|]. by apply tc_once.
Qed.

(** X5: when the traversal from the root reaches a family that is its own
    descendant through recursed children, the call returns under no
    recursion limit. *)
Theorem cyclic_hierarchy_never_returns depth root_id F relations out :
  traversed root_id F → tc recursed F F →
  ¬ is_Ok (run depth root_id relations out).
Proof.
  intros HF Hcycle Hrun%run_flattenable.
  destruct (flattenable_traversed _ _ _ Hrun HF) as [d Hd].
  by rewrite flattenable_cycle in Hd.
Qed.
End FlattenerMore.

(** ** More on the source loader *)

Lemma entry_of_app l v : entry_of (l ++ [v]) = Some (l ++ [v]).
Proof. by destruct l. Qed.

Lemma append_at_entry k v d l k' :
  d !! k = entry_of l →
  append_at k v d !! k
  = entry_of (l ++ [v]) ∧
    (k' ≠ k → append_at k v d !! k' = d !! k').
Proof.
  intros Hd. unfold append_at. split.
  - rewrite lookup_insert_eq, entry_of_app, Hd. by destruct l.
  - intros Hne. by rewrite lookup_insert_ne.
Qed.

Lemma read_gene_rows rows g2f f2g gs fs :
  Forall (λ row, length row = 2) rows →
  (∀ k, g2f !! k = entry_of (gs k)) →
  (∀ k, f2g !! k = entry_of (fs k)) →
  ∃ g2f' f2g',
    for_each
      (λ '(gene_to_family, family_to_gene) row,
         '(gene_id, family_id) ← unpack2 row;
         Ok (append_at gene_id family_id gene_to_family,
             append_at family_id gene_id family_to_gene))
      rows (g2f, f2g) = Ok (g2f', f2g') ∧
    (∀ k, g2f' !! k = entry_of (gs k ++ seconds_of k rows)) ∧
    (∀ k, f2g' !! k = entry_of (fs k ++ firsts_of k rows)).
Proof.
  intros Hrows. revert g2f f2g gs fs.
  induction Hrows as [|row rows Hrow _ IH]; intros g2f f2g gs fs Hg Hf.
  - exists g2f, f2g. split; [done|].
    split; intros k; simpl; by rewrite app_nil_r.
  - destruct row as [|a [|b [|]]]; simplify_eq/=.
    destruct (IH (append_at a b g2f) (append_at b a f2g)
                (λ k, if bool_decide (a = k) then gs k ++ [b] else gs k)
                (λ k, if bool_decide (b = k) then fs k ++ [a] else fs k))
      as (g2f' & f2g' & Hrun & Hg' & Hf').
    + intros k. case_bool_decide as Hk.
      * subst. by apply append_at_entry.
      * rewrite (proj2 (append_at_entry a b g2f (gs a) k (Hg a))); auto.
    + intros k. case_bool_decide as Hk.
      * subst. by apply append_at_entry.
      * rewrite (proj2 (append_at_entry b a f2g (fs b) k (Hf b))); auto.
    + exists g2f', f2g'. split; [done|]. split; intros k.
      * rewrite Hg'. case_bool_decide; [|done]. by rewrite <- app_assoc.
      * rewrite Hf'. case_bool_decide; [|done]. by rewrite <- app_assoc.
Qed.

(** X6: when every row has two fields the reader returns; each family maps
    to the genes of its rows and each gene to the families of its rows, in
    row order, the first row included (no header is skipped); a key that
    no row names has no entry; the two indexes are inverse to each
    other. *)
Theorem read_hgnc_family_genes_spec rows :
  Forall (λ row, length row = 2) rows →
  ∃ gene_to_family family_to_gene,
    _read_hgnc_family_genes rows = Ok (gene_to_family, family_to_gene) ∧
    (∀ g, gene_to_family !! g = entry_of (seconds_of g rows)) ∧
    (∀ f, family_to_gene !! f = entry_of (firsts_of f rows)) ∧
    (∀ g f, g ∈ genes_of family_to_gene f
            ↔ f ∈ default [] (gene_to_family !! g)).
Proof.
  intros Hrows.
  destruct (read_gene_rows rows ∅ ∅ (λ _, []) (λ _, []) Hrows)
    as (g2f & f2g & Hrun & Hg & Hf); [done..|].
  exists g2f, f2g. split_and!; [done..|].
  intros g f. unfold genes_of. rewrite Hg, Hf. simpl.
  assert (∀ l, default [] (entry_of l) = l) as Hdef by (by intros []).
  rewrite !Hdef. unfold firsts_of, seconds_of.
  rewrite !list_elem_of_omap. split.
  - intros (row & Hin & Hrow). exists row. split; [done|].
    destruct row as [|a [|b [|]]]; simplify_eq/=.
    case_bool_decide; simplify_eq/=. by rewrite bool_decide_eq_true_2.
  - intros (row & Hin & Hrow). exists row. split; [done|].
    destruct row as [|a [|b [|]]]; simplify_eq/=.
    case_bool_decide; simplify_eq/=. by rewrite bool_decide_eq_true_2.
Qed.

Lemma read_hierarchy_rows rows k ch cs :
  Forall (λ row, length row = 2) rows →
  (∀ p, ch !! p = entry_of (cs p)) →
  ∃ ch',
    for_each
      (λ children '(idx, row),
         '(parent, child) ← unpack2 row;
         if bool_decide (idx = 0)
         then Ok children
         else Ok (append_at parent child children))
      (zip (seq (S k) (length rows)) rows) ch = Ok ch' ∧
    (∀ p, ch' !! p = entry_of (cs p ++ seconds_of p rows)).
Proof.
  intros Hrows. revert k ch cs.
  induction Hrows as [|row rows Hrow _ IH]; intros k ch cs Hch.
  - exists ch. split; [done|]. intros p. simpl. by rewrite app_nil_r.
  - destruct row as [|a [|b [|]]]; simplify_eq/=.
    destruct (IH (S k) (append_at a b ch)
                (λ p, if bool_decide (a = p) then cs p ++ [b] else cs p))
      as (ch' & Hrun & Hch').
    + intros p. case_bool_decide as Hp.
      * subst. by apply append_at_entry.
      * rewrite (proj2 (append_at_entry a b ch (cs a) p (Hch a))); auto.
    + exists ch'. split; [done|]. intros p.
      rewrite Hch'. case_bool_decide; [|done]. by rewrite <- app_assoc.
Qed.

(** X7: when every row, the header included, has two fields the reader
    returns; each parent maps to the children of its data rows in row
    order, the header row left out; a family that is the parent of no row
    has no entry, so that [children.get] answers [None] for it. *)
Theorem read_hierarchy_info_spec header rows :
  Forall (λ row, length row = 2) (header :: rows) →
  ∃ children,
    _read_hierarchy_info (header :: rows) = Ok children ∧
    (∀ p, children !! p = entry_of (seconds_of p rows)) ∧
    (∀ p, list_truthy (children !! p) = true
          ↔ ∃ c, [p; c] ∈ rows).
Proof.
  intros Hall. apply Forall_cons in Hall as [Hheader Hrows].
  destruct (read_hierarchy_rows rows 0 ∅ (λ _, []) Hrows)
    as (ch & Hrun & Hch); [done|].
  exists ch. split_and!.
  - unfold _read_hierarchy_info, enumerate.
    destruct header as [|a [|b [|]]]; simplify_eq/=. done.
  - done.
  - intros p. rewrite Hch. simpl.
    assert (list_truthy (entry_of (seconds_of p rows)) = true
            ↔ ∃ c, c ∈ seconds_of p rows) as ->.
    { destruct (seconds_of p rows) as [|c l]; simpl.
      - split; [done|]. intros [c Hc]. by apply elem_of_nil in Hc.
      - split; [|done]. intros _. exists c. by left. }
    unfold seconds_of. setoid_rewrite list_elem_of_omap. split.
    + intros (c & row & Hin & Hrow).
      destruct row as [|a [|b [|]]]; simplify_eq/=.
      case_bool_decide; simplify_eq/=. by exists c.
    + intros (c & Hin). exists c, [p; c]. split; [done|]. simpl.
      by rewrite bool_decide_eq_true_2.
Qed.

Lemma dict_of_pairs_snoc pairs k v :
  dict_of_pairs (pairs ++ [(k, v)]) = <[k := v]> (dict_of_pairs pairs).
Proof. unfold dict_of_pairs. by rewrite foldl_app. Qed.

Lemma dict_of_pairs_last pairs k :
  dict_of_pairs pairs !! k
  = last (omap (λ kv : string * string,
                  if bool_decide (kv.1 = k) then Some kv.2 else None) pairs).
Proof.
  induction pairs as [|[k' v] pairs IH] using rev_ind; [done|].
  rewrite dict_of_pairs_snoc, omap_app. simpl. case_bool_decide as Hk.
  - subst. by rewrite lookup_insert_eq, last_snoc.
  - rewrite lookup_insert_ne by done. by rewrite app_nil_r.
Qed.

Lemma pick_absent_key (hs vs : list string) k :
  k ∉ hs →
  omap (λ kv : string * string,
          if bool_decide (kv.1 = k) then Some kv.2 else None) (zip hs vs)
  = [].
Proof.
  revert vs. induction hs as [|h hs IH]; intros vs Hk; [done|].
  destruct vs as [|v vs]; [done|]. simpl.
  rewrite bool_decide_eq_false_2.
  - apply IH. intros ?. apply Hk. by right.
  - intros ->. apply Hk. by left.
Qed.

Lemma dict_of_pairs_zip_lookup header row i k :
  NoDup header → header !! i = Some k →
  dict_of_pairs (zip header row) !! k = row !! i.
Proof.
  rewrite dict_of_pairs_last. intros Hnd. revert row i.
  induction Hnd as [|h hs Hh Hnd IH]; intros row i Hi; [done|].
  destruct row as [|v vs]; [by destruct i|]. simpl.
  destruct i as [|i]; simplify_eq/=.
  - rewrite bool_decide_eq_true_2 by done.
    by rewrite pick_absent_key.
  - rewrite bool_decide_eq_false_2; [by apply IH|].
    intros ->. apply Hh. by eapply list_elem_of_lookup_2.
Qed.

(** X8: under a header without repeated names, the record stored for a
    row gives the field at position [i] of the header the value at
    position [i] of the row, and no value when the row is too short. *)
Theorem read_family_info_field header rows rows1 row rows2 key tl i field :
  NoDup header →
  Forall (λ row, row ≠ []) rows →
  rows = rows1 ++ row :: rows2 → row = key :: tl →
  (∀ r, r ∈ rows2 → head r ≠ Some key) →
  header !! i = Some field →
  ∃ families record,
    _read_family_info (header :: rows) = Ok families ∧
    families !! key = Some record ∧
    record !! field = row !! i.
Proof.
  intros Hnd Hne -> Hrow Hlater Hi.
  exists (family_rows header (rows1 ++ row :: rows2) ∅),
         (dict_of_pairs (zip header row)).
  split_and!.
  - unfold _read_family_info, enumerate. simpl.
    by rewrite read_family_rows.
  - by eapply family_rows_lookup.
  - by apply dict_of_pairs_zip_lookup.
Qed.

(** ** More on the identifier of a family *)

Lemma replace_go_single c new l :
  Str.replace_go [c] new 0 l
  = flat_map (λ b, if bool_decide (c = b) then new else [b]) l.
Proof.
  induction l as [|b l IH]; [done|]. simpl.
  rewrite andb_true_r. case_bool_decide; simpl; by rewrite IH.
Qed.

Lemma replace_single c new s :
  Str.replace (String c EmptyString) new s
  = Str.of_list (flat_map (λ b, if bool_decide (c = b) then Str.to_list new
                                else [b]) (Str.to_list s)).
Proof. rewrite <- replace_go_single. reflexivity. Qed.

Lemma replace_single_chars c new s x :
  x ∈ Str.to_list (Str.replace (String c EmptyString) new s) →
  x ∈ Str.to_list new ∨ (x ∈ Str.to_list s ∧ x ≠ c).
Proof.
  rewrite replace_single, to_list_of_list.
  intros (b & Hb & Hx)%list_elem_of_In%in_flat_map.
  apply list_elem_of_In in Hb, Hx. case_bool_decide as Hc.
  - by left.
  - apply list_elem_of_singleton in Hx as ->. right. split; [done|].
    by intros ->.
Qed.

(** X9: an identifier made from the name (empty abbreviation) holds no
    space, no hyphen and no comma. *)
Theorem famplex_id_from_name_chars (fam : family) (famplex_id : string) x :
  fam !! "abbreviation" = Some EmptyString →
  get_famplex_id fam = Ok famplex_id →
  x ∈ Str.to_list famplex_id →
  x ≠ " "%char ∧ x ≠ "-"%char ∧ x ≠ ","%char.
Proof.
  intros Habbr. unfold get_famplex_id, getitem. rewrite Habbr. simpl.
  destruct (fam !! "name") as [name|]; [|done]. simpl. intros [= <-] Hx.
  apply replace_single_chars in Hx as [Hx|[Hx Hcomma]];
    [by apply elem_of_nil in Hx|].
  apply replace_single_chars in Hx as [Hx|[Hx Hhyphen]].
  { apply list_elem_of_singleton in Hx as ->. done. }
  apply replace_single_chars in Hx as [Hx|[Hx Hspace]].
  { apply list_elem_of_singleton in Hx as ->. done. }
  done.
Qed.

(** ** More on the redundancy detector *)

Lemma gene_names_of_snoc relations r :
  gene_names_of (relations ++ [r])
  = if bool_decide (rel_sns r = "HGNC")
    then dict_set (rel_sid r) (rel_tid r) (gene_names_of relations)
    else gene_names_of relations.
Proof. unfold gene_names_of. by rewrite foldl_app. Qed.

(** X10: the gene-to-family dictionary gives a gene the target of the last
    relation that has the gene as its source, and nothing when there is
    none. *)
Theorem gene_names_last_wins (relations : list relation) (g : string) :
  dict_get g (gene_names_of relations) = last_target g relations.
Proof.
  unfold last_target.
  induction relations as [|r relations IH] using rev_ind; [done|].
  rewrite gene_names_of_snoc, omap_app. simpl.
  destruct (bool_decide (rel_sns r = "HGNC")); simpl.
  - rewrite dict_get_dict_set. case_decide as Hg.
    + rewrite bool_decide_eq_true_2 by done. by rewrite last_snoc.
    + rewrite bool_decide_eq_false_2 by done. by rewrite app_nil_r.
  - by rewrite app_nil_r.
Qed.

Lemma gene_names_of_source relations g Y :
  dict_get g (gene_names_of relations) = Some Y →
  ∃ r, r ∈ relations ∧ rel_sns r = "HGNC" ∧ rel_sid r = g ∧ rel_tid r = Y.
Proof.
  induction relations as [|r relations IH] using rev_ind; [done|].
  rewrite gene_names_of_snoc. case_bool_decide as Hs.
  - rewrite dict_get_dict_set. case_decide as Hg.
    + intros [= <-]. exists r. split; [|done]. apply elem_of_app. right.
      by left.
    + intros (r' & Hr' & ?)%IH. exists r'. split; [|done].
      apply elem_of_app. by left.
  - intros (r' & Hr' & ?)%IH. exists r'. split; [|done].
    apply elem_of_app. by left.
Qed.

Lemma gene_names_of_key relations Y g :
  derived_genes relations Y g →
  is_Some (dict_get g (gene_names_of relations)).
Proof.
  intros (r & Hr & Hsns & Hsid & _). revert Hr.
  induction relations as [|r' relations IH] using rev_ind;
    [by intros ?%elem_of_nil|].
  rewrite gene_names_of_snoc, elem_of_app, list_elem_of_singleton.
  intros [Hr| <-].
  - case_bool_decide; [|auto]. rewrite dict_get_dict_set.
    case_decide; [by eexists|auto].
  - rewrite bool_decide_eq_true_2 by done. rewrite dict_get_dict_set.
    rewrite decide_True by done. by eexists.
Qed.

(** The genes recorded for a derived family are genes derived for it,
    and all of them when no gene is derived for two families. *)
Lemma recorded_genes_derived relations Y g :
  (recorded_genes (gene_names_of relations) Y g →
   derived_genes relations Y g) ∧
  ((∀ g' Y1 Y2, derived_genes relations Y1 g' →
                derived_genes relations Y2 g' → Y1 = Y2) →
   derived_genes relations Y g →
   recorded_genes (gene_names_of relations) Y g).
Proof.
  split.
  - intros Hrec. by apply gene_names_of_source in Hrec.
  - intros Hone Hder. unfold recorded_genes.
    destruct (gene_names_of_key _ _ _ Hder) as [Y' HY'].
    rewrite HY'. f_equal. eapply Hone; [|exact Hder].
    by apply gene_names_of_source in HY'.
Qed.

Lemma unpack5_Ok row :
  is_Ok (unpack5 row) ↔ length row = 5.
Proof.
  destruct row as [|? [|? [|? [|? [|? [|]]]]]]; simpl;
    (split; [by intros [? [=]]|done]) || (split; [done|by eexists]).
Qed.

Lemma scan_step_is_Ok names st row :
  is_Ok (scan_step names st row) ↔ length row = 5.
Proof.
  rewrite <- unpack5_Ok. unfold scan_step.
  destruct (unpack5 row) as [[[[[sns sid] rel] tns] tid]|e]; simpl.
  - split; [by eexists|]. intros _.
    destruct (if bool_decide (sns = "HGNC") then dict_get sid names else None);
      by eexists.
  - split; by intros [? [=]].
Qed.

Lemma scan_is_Ok names store st :
  is_Ok (for_each (scan_step names) store st)
  ↔ Forall (λ row, length row = 5) store.
Proof.
  revert st. induction store as [|row store IH]; intros st; simpl.
  - split; [done|by eexists].
  - rewrite Forall_cons, <- (scan_step_is_Ok names st row).
    destruct (scan_step names st row) as [st'|e]; simpl.
    + rewrite IH. split; [|tauto]. split; [by eexists|done].
    + split; [by intros [? [=]]|by intros [[? [=]] _]].
Qed.

Lemma sorted_raising_is_Ok {A K} (le : K → K → bool) (key : A → result K) l :
  is_Ok (sorted_raising le key l) ↔ ∀ x, x ∈ l → is_Ok (key x).
Proof.
  split.
  - intros [l' Hl']. by apply sorted_raising_Ok in Hl' as [_ ?].
  - intros Hkeys. unfold sorted_raising.
    destruct (for_each_is_Ok
                (λ acc x, k ← key x; Ok (acc ++ [(k, x)])) l []) as [d ->].
    + intros acc x Hx. destruct (Hkeys x Hx) as [k ->]. by eexists.
    + by eexists.
Qed.

Lemma first_member_is_Ok iter s :
  valid_order iter → is_Ok (first_member iter s) ↔ ∃ x, x ∈ s.
Proof.
  intros Hv. unfold first_member, index0. split.
  - destruct (iter s) as [|x l] eqn:Hs; [by intros [? [=]]|]. intros _.
    exists x. apply (valid_order_elem iter s x Hv). rewrite Hs. by left.
  - intros [x Hx%(valid_order_elem iter s x Hv)].
    destruct (iter s); [by apply elem_of_nil in Hx|by eexists].
Qed.

Lemma find_overlaps_is_Ok (iter : list string → list string) store
    relations :
  valid_order iter →
  Forall (λ row, length row = 5) store →
  (∀ X, touched (gene_names_of relations) store X →
        ∃ g, store_genes store X g) →
  is_Ok (find_overlaps iter store relations).
Proof.
  intros Hv Hrows Hmembers. unfold find_overlaps.
  destruct (proj2 (scan_is_Ok (gene_names_of relations) store
                     (Scan [] [] ∅ [])) Hrows) as [st Hst].
  rewrite Hst. simpl.
  pose proof (scan_inv_for_each _ _ [] _ _ (scan_inv_init _) Hst)
    as (Hfm & Hcov & Hhg). simpl in *.
  destruct (proj2 (sorted_raising_is_Ok String.leb
                     (λ x, first_member iter x.2)
                     ((λ f, (f, default [] (fam_members st !! f)))
                        <$> iter (covered_families st)))) as [fplx Hf].
  { intros x (X & -> & HX)%list_elem_of_fmap. simpl.
    apply first_member_is_Ok; [done|].
    apply valid_order_elem in HX; [|done].
    destruct (Hmembers X) as [g Hg]; [by apply Hcov|].
    exists g. by apply Hfm. }
  unfold fplx_fam_members_of. rewrite Hf. simpl.
  destruct (proj2 (sorted_raising_is_Ok String.leb
                     (λ x, first_member iter x.2)
                     ((λ f, (f, (filter (λ gf, gf.2 = f)
                                   (gene_names_of relations)).*1))
                        <$> iter (hgnc_families st)))) as [hgnc Hh].
  { intros x (Y & -> & HY)%list_elem_of_fmap. simpl.
    apply first_member_is_Ok; [done|].
    apply valid_order_elem in HY; [|done].
    apply Hhg in HY as (g & kind & tns & X & _ & Hget).
    exists g. apply recorded_genes_filter; [apply gene_names_of_NoDup|done]. }
  unfold hgnc_fam_members_of. rewrite Hh. simpl. by eexists.
Qed.

(** X11: the detector returns exactly when every row of the store has five
    fields and every touched pre-existing family has a gene row into the
    namespace ["FPLX"]. *)
Theorem find_overlaps_returns_iff (iter : list string → list string) store
    relations :
  valid_order iter →
  is_Ok (find_overlaps iter store relations) ↔
  Forall (λ row, length row = 5) store ∧
  ∀ X, touched (gene_names_of relations) store X →
       ∃ g, store_genes store X g.
Proof.
  intros Hv. split.
  - intros [red (st & fplx & hgnc & Hst & Hf & Hh & _)%find_overlaps_Ok].
    split; [apply (scan_is_Ok (gene_names_of relations) store
                     (Scan [] [] ∅ [])); by eexists|].
    pose proof (scan_inv_for_each _ _ [] _ _ (scan_inv_init _) Hst)
      as (Hfm & Hcov & _). simpl in *.
    intros X HX%Hcov. apply sorted_raising_Ok in Hf as [_ Hkeys].
    destruct (proj1 (first_member_is_Ok iter
                       (default [] (fam_members st !! X)) Hv)) as [g Hg].
    { apply (Hkeys (X, default [] (fam_members st !! X))).
      apply list_elem_of_fmap. exists X. split; [done|].
      by apply valid_order_elem. }
    exists g. by apply Hfm.
  - intros [Hrows Hmembers]. by apply find_overlaps_is_Ok.
Qed.

(** X12: a marked family is the target of a derived gene relation whose
    gene is the source of a row of the store. *)
Theorem marked_is_derived (iter : list string → list string) store relations
    red Y :
  valid_order iter →
  find_overlaps iter store relations = Ok red → Y ∈ red →
  ∃ r row, r ∈ relations ∧ rel_sns r = "HGNC" ∧ rel_tid r = Y ∧
           row ∈ store ∧ row !! 0 = Some "HGNC" ∧
           row !! 1 = Some (rel_sid r).
Proof.
  intros Hv (st & fplx & hgnc & Hst & Hf & Hh & ->)%find_overlaps_Ok
    (i & X & sx & sy & _ & Hhi & _)%elem_of_marked.
  pose proof (scan_inv_for_each _ _ [] _ _ (scan_inv_init _) Hst)
    as (_ & _ & Hhg). simpl in *.
  apply list_elem_of_lookup_2 in Hhi.
  rewrite (hgnc_fam_members_perm _ _ _ _ Hh) in Hhi.
  apply list_elem_of_fmap in Hhi as (Y' & [= -> ->] & HY).
  apply valid_order_elem in HY; [|done].
  apply Hhg in HY as (g & kind & tns & X' & Hrow & Hget).
  apply gene_names_of_source in Hget as (r & Hr & Hsns & <- & Htid).
  by exists r, ["HGNC"; rel_sid r; kind; tns; X'].
Qed.

Lemma nil_of_no_elem {A} (l : list A) : (∀ x, x ∉ l) → l = [].
Proof. destruct l as [|x l]; [done|]. intros H. destruct (H x). by left. Qed.

(** X13: when every row of the store has five fields and none has a
    derived gene as its source, the detector returns the empty set. *)
Theorem untouched_store_marks_nothing (iter : list string → list string)
    store relations :
  valid_order iter →
  Forall (λ row, length row = 5) store →
  (∀ g kind tns X, ["HGNC"; g; kind; tns; X] ∈ store →
                   dict_get g (gene_names_of relations) = None) →
  find_overlaps iter store relations = Ok [].
Proof.
  intros Hv Hrows Hnone. unfold find_overlaps.
  destruct (proj2 (scan_is_Ok (gene_names_of relations) store
                     (Scan [] [] ∅ [])) Hrows) as [st Hst].
  rewrite Hst. simpl.
  pose proof (scan_inv_for_each _ _ [] _ _ (scan_inv_init _) Hst)
    as (_ & Hcov & Hhg). simpl in *.
  assert (covered_families st = []) as Hc.
  { apply nil_of_no_elem. intros X (g & kind & tns & Hrow & Hs)%Hcov.
    rewrite (Hnone _ _ _ _ Hrow) in Hs. by destruct Hs. }
  assert (hgnc_families st = []) as Hh.
  { apply nil_of_no_elem. intros Y (g & kind & tns & X & Hrow & Hs)%Hhg.
    by rewrite (Hnone _ _ _ _ Hrow) in Hs. }
  unfold fplx_fam_members_of, hgnc_fam_members_of.
  rewrite Hc, Hh, (valid_order_nil iter Hv). done.
Qed.

(** ** Integers and their decimal form *)

Lemma digits_go_digit acc after c l :
  Str.isdigit c = true →
  digits_go acc after (c :: l)
  = digits_go (10 * acc + Z.of_nat (nat_of_ascii c - 48)) true l.
Proof. intros Hc. simpl. by rewrite Hc. Qed.

Lemma uint_chars_digits d :
  Forall (λ c, Str.isdigit c = true)
    (Str.to_list (NilEmpty.string_of_uint d)).
Proof. induction d; simpl; constructor; done. Qed.

Lemma digits_go_acc d acc :
  digits_go (Z.pos acc) true (Str.to_list (NilEmpty.string_of_uint d))
  = Some (Z.pos (Pos.of_uint_acc d acc)).
Proof.
  revert acc. induction d as [|d IH|d IH|d IH|d IH|d IH|d IH|d IH|d IH|d IH|d IH];
    intros acc; [done|..];
    cbn [NilEmpty.string_of_uint Str.to_list list_ascii_of_string
           Pos.of_uint_acc];
    rewrite digits_go_digit by reflexivity;
    rewrite <- IH; f_equal;
    change (nat_of_ascii _ - 48) with 0 || change (nat_of_ascii _ - 48) with 1
    || change (nat_of_ascii _ - 48) with 2 || change (nat_of_ascii _ - 48) with 3
    || change (nat_of_ascii _ - 48) with 4 || change (nat_of_ascii _ - 48) with 5
    || change (nat_of_ascii _ - 48) with 6 || change (nat_of_ascii _ - 48) with 7
    || change (nat_of_ascii _ - 48) with 8 || change (nat_of_ascii _ - 48) with 9;
    lia.
Qed.

Lemma isdigit_not_space c : Str.isdigit c = true → int_isspace c = false.
Proof.
  unfold Str.isdigit, int_isspace. generalize (nat_of_ascii c). intros n.
  rewrite andb_true_iff, !Nat.leb_le. intros [H1 H2].
  rewrite !orb_false_iff, !andb_false_iff, !Nat.leb_gt, !Nat.eqb_neq. lia.
Qed.

Lemma int_lstrip_id l :
  Forall (λ c, int_isspace c = false) l → int_lstrip l = l.
Proof.
  intros Hl. destruct Hl as [|c l Hc Hl]; [done|].
  cbn [int_lstrip]. by rewrite Hc.
Qed.

Lemma int_strip_id l :
  Forall (λ c, int_isspace c = false) l → int_strip l = l.
Proof.
  intros Hl. unfold int_strip.
  rewrite (int_lstrip_id l) by done.
  rewrite int_lstrip_id by (by rewrite Forall_reverse).
  by rewrite reverse_involutive.
Qed.

Lemma uint_chars_not_space d :
  Forall (λ c, int_isspace c = false)
    (Str.to_list (NilEmpty.string_of_uint d)).
Proof.
  eapply Forall_impl; [apply uint_chars_digits|]. apply isdigit_not_space.
Qed.

Lemma digits_go_uint d after :
  d ≠ Decimal.Nil ∨ after = true →
  digits_go 0 after (Str.to_list (NilEmpty.string_of_uint d))
  = Some (Z.of_N (Pos.of_uint d)).
Proof.
  revert after.
  induction d as [|d IH|d IH|d IH|d IH|d IH|d IH|d IH|d IH|d IH|d IH];
    intros after Hd.
  - destruct Hd as [?| ->]; done.
  - cbn [NilEmpty.string_of_uint Str.to_list list_ascii_of_string
           Pos.of_uint].
    rewrite digits_go_digit by reflexivity. apply IH. by right.
  - cbn [NilEmpty.string_of_uint Str.to_list list_ascii_of_string
           Pos.of_uint].
    rewrite digits_go_digit by reflexivity. apply (digits_go_acc d 1).
  - cbn [NilEmpty.string_of_uint Str.to_list list_ascii_of_string
           Pos.of_uint].
    rewrite digits_go_digit by reflexivity. apply (digits_go_acc d 2).
  - cbn [NilEmpty.string_of_uint Str.to_list list_ascii_of_string
           Pos.of_uint].
    rewrite digits_go_digit by reflexivity. apply (digits_go_acc d 3).
  - cbn [NilEmpty.string_of_uint Str.to_list list_ascii_of_string
           Pos.of_uint].
    rewrite digits_go_digit by reflexivity. apply (digits_go_acc d 4).
  - cbn [NilEmpty.string_of_uint Str.to_list list_ascii_of_string
           Pos.of_uint].
    rewrite digits_go_digit by reflexivity. apply (digits_go_acc d 5).
  - cbn [NilEmpty.string_of_uint Str.to_list list_ascii_of_string
           Pos.of_uint].
    rewrite digits_go_digit by reflexivity. apply (digits_go_acc d 6).
  - cbn [NilEmpty.string_of_uint Str.to_list list_ascii_of_string
           Pos.of_uint].
    rewrite digits_go_digit by reflexivity. apply (digits_go_acc d 7).
  - cbn [NilEmpty.string_of_uint Str.to_list list_ascii_of_string
           Pos.of_uint].
    rewrite digits_go_digit by reflexivity. apply (digits_go_acc d 8).
  - cbn [NilEmpty.string_of_uint Str.to_list list_ascii_of_string
           Pos.of_uint].
    rewrite digits_go_digit by reflexivity. apply (digits_go_acc d 9).
Qed.

Lemma py_int_unsigned s c l :
  int_strip (Str.to_list s) = c :: l → Str.isdigit c = true →
  py_int s = match digits_go 0 false (c :: l) with
             | Some n =>
                 if (count_digits (c :: l) <=? int_max_str_digits)%Z
                 then Ok n else Raise ValueError
             | None => Raise ValueError
             end.
Proof.
  intros Hs Hc. unfold py_int. rewrite Hs.
  destruct c as [[] [] [] [] [] [] [] []]; try discriminate Hc; reflexivity.
Qed.

Lemma py_int_pos_uint d :
  d ≠ Decimal.Nil →
  (count_digits (Str.to_list (NilEmpty.string_of_uint d))
   ≤ int_max_str_digits)%Z →
  py_int (NilEmpty.string_of_uint d) = Ok (Z.of_N (Pos.of_uint d)).
Proof.
  intros Hd Hcount.
  pose proof (uint_chars_digits d) as Hdigits.
  pose proof (digits_go_uint d false (or_introl Hd)) as Hgo.
  destruct (Str.to_list (NilEmpty.string_of_uint d)) as [|c l] eqn:Hl.
  { by destruct d. }
  rewrite (py_int_unsigned _ c l).
  - rewrite Hgo. by rewrite (proj2 (Z.leb_le _ _)) by done.
  - rewrite Hl. apply int_strip_id. eapply Forall_impl;
      [exact Hdigits|apply isdigit_not_space].
  - by inversion Hdigits.
Qed.

(** [int(str(n))] is [n] for an integer whose decimal form is within the
    limit on the digits. *)
Lemma py_int_py_str (n : Z) :
  (count_digits (Str.to_list (py_str n)) ≤ int_max_str_digits)%Z →
  py_int (py_str n) = Ok n.
Proof.
  unfold py_str. destruct n as [|p|p]; [reflexivity| |].
  - simpl. pose proof (Unsigned.to_uint_nonnil p) as Hnil.
    assert (NilZero.string_of_uint (Pos.to_uint p)
            = NilEmpty.string_of_uint (Pos.to_uint p)) as ->
      by (by destruct (Pos.to_uint p)).
    intros Hlen. by rewrite py_int_pos_uint, Unsigned.of_to.
  - simpl. pose proof (Unsigned.to_uint_nonnil p) as Hnil.
    assert (NilZero.string_of_uint (Pos.to_uint p)
            = NilEmpty.string_of_uint (Pos.to_uint p)) as ->
      by (by destruct (Pos.to_uint p)).
    intros Hcount. unfold py_int.
    cbn [Str.to_list list_ascii_of_string] in Hcount |- *.
    change (list_ascii_of_string ?s) with (Str.to_list s) in Hcount |- *.
    rewrite int_strip_id
      by (constructor; [done|apply uint_chars_not_space]).
    rewrite digits_go_uint by (by left).
    rewrite (proj2 (Z.leb_le _ _)) by exact Hcount.
    by rewrite Unsigned.of_to.
Qed.

Lemma py_int_decimal_form k :
  decimal_form k → ∃ n, k = py_str n ∧ py_int k = Ok n.
Proof.
  intros (n & -> & Hlen). exists n. split; [done|]. by apply py_int_py_str.
Qed.

Lemma py_int_cases s : py_int s = Raise ValueError ∨ is_Ok (py_int s).
Proof.
  unfold py_int.
  destruct (match int_strip (Str.to_list s) with
            | "-"%char :: l' => (true, l')
            | "+"%char :: l' => (false, l')
            | _ => (false, int_strip (Str.to_list s))
            end) as [negative body].
  destruct (digits_go 0 false body); [|by left].
  destruct (count_digits body <=? int_max_str_digits)%Z;
    [right; by eexists|by left].
Qed.

Lemma count_digits_nonneg l : (0 ≤ count_digits l)%Z.
Proof.
  induction l as [|c l IH]; [done|]. cbn [count_digits].
  destruct (Str.isdigit c); lia.
Qed.

Lemma digits_go_bound l acc after n :
  (0 ≤ acc)%Z → digits_go acc after l = Some n →
  (acc * 10 ^ count_digits l ≤ n < (acc + 1) * 10 ^ count_digits l)%Z.
Proof.
  revert acc after. induction l as [|c l IH]; intros acc after Hacc.
  - simpl. destruct after; [|done]. intros [= <-]. lia.
  - cbn [digits_go count_digits].
    pose proof (count_digits_nonneg l) as Hk.
    destruct (Str.isdigit c) eqn:Hc.
    + intros Hgo. apply IH in Hgo; [|lia].
      assert (0 ≤ Z.of_nat (nat_of_ascii c - 48) ≤ 9)%Z as Hd.
      { unfold Str.isdigit in Hc. apply andb_true_iff in Hc as [H1 H2].
        apply Nat.leb_le in H1, H2. lia. }
      rewrite Z.pow_add_r by lia. change (10 ^ 1)%Z with 10%Z.
      assert (0 < 10 ^ count_digits l)%Z by (apply Z.pow_pos_nonneg; lia).
      nia.
    + rewrite Z.add_0_l.
      destruct (bool_decide (c = "_"%char) && after); [|done].
      destruct l as [|c' l']; [done|]. by apply IH.
Qed.

(** A result of [int] is within the limit on the digits, so that [str]
    converts it. *)
Lemma py_int_bound s n :
  py_int s = Ok n → (Z.abs n < 10 ^ int_max_str_digits)%Z.
Proof.
  unfold py_int.
  destruct (match int_strip (Str.to_list s) with
            | "-"%char :: l' => (true, l')
            | "+"%char :: l' => (false, l')
            | _ => (false, int_strip (Str.to_list s))
            end) as [negative body].
  destruct (digits_go 0 false body) as [m|] eqn:Hgo; [|done].
  destruct (count_digits body <=? int_max_str_digits)%Z eqn:Hcount; [|done].
  apply Z.leb_le in Hcount. apply digits_go_bound in Hgo; [|done].
  pose proof (count_digits_nonneg body) as Hk.
  assert (10 ^ count_digits body ≤ 10 ^ int_max_str_digits)%Z
    by (apply Z.pow_le_mono_r; lia).
  intros [= <-]. destruct negative; lia.
Qed.

(** ** More on the relations that are written *)

Lemma StronglySorted_filter {A} (R : A → A → Prop) (P : A → Prop)
    `{∀ x, Decision (P x)} l :
  StronglySorted R l → StronglySorted R (filter P l).
Proof.
  induction 1 as [|x l Hl IH Hx]; [constructor|].
  rewrite filter_cons. case_decide; [|done]. constructor; [done|].
  apply Forall_forall. intros y [_ Hy]%list_elem_of_filter.
  by eapply Forall_forall in Hx.
Qed.

(** X15: the entities are the targets of the relations, each once, in
    ascending order. *)
Theorem entities_of_spec (iter_s : list string → list string)
    (relations : list relation) :
  valid_order iter_s →
  NoDup (entities_of iter_s relations) ∧
  StronglySorted (λ a b, (a ≤ b)%string) (entities_of iter_s relations) ∧
  ∀ Y, Y ∈ entities_of iter_s relations
       ↔ ∃ r, r ∈ relations ∧ rel_tid r = Y.
Proof.
  intros Hv. split_and!.
  - unfold entities_of. rewrite sorted_perm. by apply valid_order_NoDup.
  - unfold entities_of. eapply StronglySorted_weaken;
      [|apply (sorted_sorted String.leb id);
        [apply string_leb_total|apply string_leb_trans]].
    intros a b Hab. by apply Is_true_true.
  - intros Y. by apply elem_of_entities_of.
Qed.

(** X16: the relations that are written have no duplicate and are
    ascending in (target id, source id): the exclusion keeps the order. *)
Theorem main_relations_sorted families children family_to_gene get_hgnc_name
    (iter_s : list string → list string)
    (iter_r : list relation → list relation) depth hgnc_group_ids store
    final :
  valid_order iter_r →
  main_relations families children family_to_gene get_hgnc_name iter_s
    iter_r depth hgnc_group_ids store = Ok final →
  NoDup final ∧
  StronglySorted (λ a b, key_le (rel_key a) (rel_key b)) final.
Proof.
  intros Hv. unfold main_relations. intros (rels & Hload & H)%bind_Ok.
  apply bind_Ok in H as (red & Hred & [= <-]). unfold drop_redundant. split.
  - apply NoDup_filter. rewrite sort_relations_perm.
    by apply valid_order_NoDup.
  - apply StronglySorted_filter, sort_relations_sorted.
Qed.

Lemma insert_by_stable {A K} `{EqDecision K} (le : K → K → bool)
    (key : A → K) (k : K) x l :
  (∀ a, le a a = true) →
  filter (λ y, key y = k) (insert_by le key x l)
  = filter (λ y, key y = k) (x :: l).
Proof.
  intros Hrefl. induction l as [|y l IH]; [done|]. simpl.
  destruct (le (key x) (key y)) eqn:Hle; [done|].
  rewrite (filter_cons _ y), IH, !filter_cons.
  destruct (decide (key y = k)) as [Hy|Hy], (decide (key x = k)) as [Hx|Hx];
    try done.
  rewrite Hx, Hy, Hrefl in Hle. done.
Qed.

Lemma sorted_stable {A K} `{EqDecision K} (le : K → K → bool) (key : A → K)
    (k : K) l :
  (∀ a, le a a = true) →
  filter (λ y, key y = k) (sorted le key l) = filter (λ y, key y = k) l.
Proof.
  intros Hrefl. induction l as [|x l IH]; [done|]. simpl.
  change (foldr (insert_by le key) [] l) with (sorted le key l).
  by rewrite insert_by_stable, !filter_cons, IH.
Qed.

Lemma pair_leb_refl k : pair_leb k k = true.
Proof. apply pair_leb_key_le. by split. Qed.

(** X17: relations with the same sort key leave the sort in the order in
    which the set was iterated. *)
Theorem sort_relations_stable (iter_r : list relation → list relation)
    (relations : list relation) (k : string * string) :
  filter (λ r, rel_key r = k) (sort_relations iter_r relations)
  = filter (λ r, rel_key r = k) (iter_r relations).
Proof. apply (sorted_stable pair_leb), pair_leb_refl. Qed.

(** ** More on the equivalences *)

Lemma equivs_rows_Forall2 families (l : list Z) acc eqs :
  for_each
    (λ equivs fid,
       fam ← getitem families (py_str fid);
       famplex_id ← get_famplex_id fam;
       Ok (equivs ++ [["HGNC_GROUP"; py_str fid; famplex_id]]))
    l acc = Ok eqs →
  ∃ rows, eqs = acc ++ rows ∧
    Forall2 (λ n row, ∃ fam fid, families !! py_str n = Some fam ∧
                                 get_famplex_id fam = Ok fid ∧
                                 row = ["HGNC_GROUP"; py_str n; fid])
      l rows.
Proof.
  revert acc. induction l as [|n l IH]; intros acc; simpl.
  - intros [= <-]. exists []. by rewrite app_nil_r.
  - intros (acc' & Hstep & H)%bind_Ok.
    apply bind_Ok in Hstep as (fam & Hfam%getitem_Ok & Hstep).
    apply bind_Ok in Hstep as (fid & Hid & [= <-]).
    apply IH in H as (rows & -> & Hrows).
    exists (["HGNC_GROUP"; py_str n; fid] :: rows).
    rewrite <- app_assoc. split; [done|]. constructor; [|done].
    by exists fam, fid.
Qed.

Lemma sorted_ids_lt (iter_z : list Z → list Z) ids :
  valid_order iter_z →
  StronglySorted Z.lt (sorted Z.leb id (iter_z ids)).
Proof.
  intros Hv.
  assert (NoDup (sorted Z.leb id (iter_z ids))) as Hnd.
  { rewrite sorted_perm. by apply valid_order_NoDup. }
  pose proof (sorted_sorted Z.leb id Z_leb_total Z_leb_trans (iter_z ids))
    as Hs.
  induction Hs as [|x l Hl IH Hx]; [constructor|].
  apply NoDup_cons in Hnd as [Hxl Hnd]. constructor; [by apply IH|].
  apply Forall_forall. intros y Hy.
  eapply Forall_forall in Hx; [|exact Hy]. simpl in Hx.
  apply Z.leb_le in Hx. assert (x ≠ y) by (by intros ->). lia.
Qed.

(** X18: the equivalences have one row for each integer that the root of
    a relation denotes, in strictly ascending order; the row holds the
    decimal form of the integer and the canonical id of the family stored
    under that form. *)
Theorem equivs_of_spec families (iter_z : list Z → list Z) relations eqs :
  valid_order iter_z →
  equivs_of families iter_z relations = Ok eqs →
  ∃ ids,
    StronglySorted Z.lt ids ∧
    (∀ n, n ∈ ids ↔ ∃ r, r ∈ relations ∧ py_int (rel_root r) = Ok n) ∧
    Forall2 (λ n row, ∃ fam fid, families !! py_str n = Some fam ∧
                                 get_famplex_id fam = Ok fid ∧
                                 row = ["HGNC_GROUP"; py_str n; fid])
      ids eqs.
Proof.
  intros Hv. unfold equivs_of. intros (ids & Hids & H)%bind_Ok.
  apply equivs_rows_Forall2 in H as (rows & -> & Hrows).
  exists (sorted Z.leb id (iter_z ids)). split_and!.
  - by apply sorted_ids_lt.
  - intros n. rewrite sorted_perm, valid_order_elem by done.
    by apply map_raising_elem.
  - done.
Qed.

Lemma map_raising_raise {A B} (f : A → result B) e l x :
  x ∈ l → f x = Raise e →
  (∀ y, y ∈ l → f y = Raise e ∨ is_Ok (f y)) →
  map_raising f l = Raise e.
Proof.
  induction l as [|y l IH]; intros Hx Hfx Hall.
  - by apply elem_of_nil in Hx.
  - simpl. destruct (Hall y) as [Hy|[b Hy]]; [left|..]; rewrite Hy; simpl;
      [done|].
    apply elem_of_cons in Hx as [->|Hx]; [congruence|].
    rewrite IH; [done..|]. intros ??. apply Hall. by right.
Qed.

(** X19: a relation whose root is not the text of an integer makes the
    equivalences raise [ValueError]. *)
Theorem equivs_of_not_a_number families (iter_z : list Z → list Z) relations
    r :
  r ∈ relations → py_int (rel_root r) = Raise ValueError →
  equivs_of families iter_z relations = Raise ValueError.
Proof.
  intros Hr Hint. unfold equivs_of.
  erewrite map_raising_raise; [done|exact Hr|exact Hint|].
  intros y _. apply py_int_cases.
Qed.

Lemma map_raising_is_Ok {A B} (f : A → result B) l :
  (∀ x, x ∈ l → is_Ok (f x)) → is_Ok (map_raising f l).
Proof.
  induction l as [|x l IH]; intros Hall; simpl; [by eexists|].
  destruct (Hall x) as [y ->]; [left|]. simpl.
  destruct IH as [ys ->]; [|by eexists]. intros ??. apply Hall. by right.
Qed.

Lemma canonical_ids families (iter_z : list Z → list Z) relations ids n :
  valid_order iter_z → canonical_roots families relations →
  map_raising (λ r, py_int (rel_root r)) relations = Ok ids →
  n ∈ sorted Z.leb id (iter_z ids)
  ↔ ∃ r, r ∈ relations ∧ rel_root r = py_str n.
Proof.
  intros Hv Hcanon Hids. rewrite sorted_perm, valid_order_elem by done.
  rewrite (map_raising_elem _ _ _ _ Hids). split.
  - intros (r & Hr & Hint). exists r. split; [done|].
    destruct (Hcanon r Hr) as [(m & Hm & Hint')%py_int_decimal_form _].
    rewrite Hint in Hint'. by injection Hint' as ->.
  - intros (r & Hr & Hroot). exists r. split; [done|].
    destruct (Hcanon r Hr) as [(m & _ & Hlen) _].
    rewrite Hroot in Hlen |- *. by apply py_int_py_str.
Qed.

Lemma equivs_of_canonical_is_Ok families (iter_z : list Z → list Z)
    relations :
  valid_order iter_z → canonical_roots families relations →
  is_Ok (equivs_of families iter_z relations).
Proof.
  intros Hv Hcanon. unfold equivs_of.
  destruct (map_raising_is_Ok (λ r, py_int (rel_root r)) relations)
    as [ids Hids].
  { intros r [(n & _ & ->)%py_int_decimal_form _]%Hcanon. by eexists. }
  rewrite Hids. simpl. apply for_each_is_Ok.
  intros acc n (r & Hr & Hroot)%(canonical_ids _ _ _ _ _ Hv Hcanon Hids).
  destruct (Hcanon r Hr) as (_ & info & Hinfo & Hid).
  unfold getitem. rewrite <- Hroot, Hinfo. simpl. rewrite Hid. by eexists.
Qed.

Lemma equivs_of_canonical_rows families (iter_z : list Z → list Z)
    relations :
  valid_order iter_z →
  canonical_roots families relations →
  ∃ eqs,
    equivs_of families iter_z relations = Ok eqs ∧
    ∀ row, row ∈ eqs
           ↔ ∃ r, r ∈ relations ∧
                  row = ["HGNC_GROUP"; rel_root r; rel_tid r].
Proof.
  intros Hv Hcanon.
  destruct (equivs_of_canonical_is_Ok _ _ _ Hv Hcanon) as [eqs Heqs].
  exists eqs. split; [done|]. unfold equivs_of in Heqs.
  apply bind_Ok in Heqs as (ids & Hids & Heqs).
  pose proof (λ n, canonical_ids _ _ _ _ n Hv Hcanon Hids) as Hin.
  apply equivs_rows_Forall2 in Heqs as (rows & -> & Hrows). simpl.
  intros row. split.
  - intros [i Hi]%list_elem_of_lookup.
    eapply Forall2_lookup_r in Hrows
      as (n & Hn & fam & fid & Hfam & Hfid & ->); [|exact Hi].
    apply list_elem_of_lookup_2, Hin in Hn as (r & Hr & Hroot).
    destruct (Hcanon r Hr) as (_ & info & Hinfo & Hid).
    exists r. split; [done|]. rewrite <- Hroot in Hfam.
    rewrite Hinfo in Hfam. injection Hfam as <-. rewrite Hid in Hfid.
    injection Hfid as <-. by rewrite Hroot.
  - intros (r & Hr & ->).
    destruct (Hcanon r Hr) as ((n & Hroot & _) & info & Hinfo & Hid).
    assert (n ∈ sorted Z.leb id (iter_z ids)) as [i Hi]%list_elem_of_lookup
      by (apply Hin; by exists r).
    eapply Forall2_lookup_l in Hrows
      as (row & Hrow & fam & fid & Hfam & Hfid & ->); [|exact Hi].
    rewrite <- Hroot, Hinfo in Hfam. injection Hfam as <-.
    rewrite Hid in Hfid. injection Hfid as <-. rewrite <- Hroot in Hrow.
    by eapply list_elem_of_lookup_2.
Qed.

(** X20: when every root is the decimal form of an integer, within the
    limit on the digits, and names the family whose canonical id is the
    target, the equivalences are computed, and their rows are exactly the
    triples of ["HGNC_GROUP"], a root and its target. *)
Theorem equivs_of_canonical families (iter_z : list Z → list Z) relations :
  valid_order iter_z →
  canonical_roots families relations →
  ∃ eqs,
    equivs_of families iter_z relations = Ok eqs ∧
    ∀ row, row ∈ eqs
           ↔ ∃ r, r ∈ relations ∧
                  row = ["HGNC_GROUP"; rel_root r; rel_tid r].
Proof. apply equivs_of_canonical_rows. Qed.

(** X21: flattening two lists of roots one after the other gives the
    relations of the first followed by those of the second, and raises
    what the first failing root raises. *)
Theorem load_relations_app families children family_to_gene get_hgnc_name
    depth (ids1 ids2 : list string) :
  load_relations families children family_to_gene get_hgnc_name depth
    (ids1 ++ ids2)
  = (rels1 ← load_relations families children family_to_gene get_hgnc_name
               depth ids1;
     rels2 ← load_relations families children family_to_gene get_hgnc_name
               depth ids2;
     Ok (rels1 ++ rels2)).
Proof.
  unfold load_relations. rewrite for_each_app.
  destruct (for_each _ ids1 []) as [rels1|e]; simpl; [|done].
  rewrite <- (app_nil_r rels1) at 1.
  rewrite (for_each_shift (app rels1)).
  - by destruct (for_each _ ids2 []).
  - intros s x _.
    destruct (get_relations_from_root _ _ _ _ _ _ _ _) as [st|e]; simpl;
      [|done].
    by rewrite app_assoc.
Qed.

(** ** The script body as a whole *)

Section MainMore.
Variable families : gmap string family.
Variable children : gmap string (list string).
Variable family_to_gene : gmap string (list string).
Variable get_hgnc_name : string → option string.
Variable depth : nat.

Local Abbreviation load_relations :=
  (load_relations families children family_to_gene get_hgnc_name depth).
Local Abbreviation can_flatten :=
  (flattenable families children family_to_gene get_hgnc_name).

Lemma load_relations_is_Ok hgnc_group_ids :
  Forall (λ root_id, can_flatten depth root_id = true) hgnc_group_ids →
  is_Ok (load_relations hgnc_group_ids).
Proof.
  intros Hall. apply for_each_is_Ok. intros rels root_id Hroot.
  eapply Forall_forall in Hall; [|exact Hroot].
  destruct (run_total families children family_to_gene get_hgnc_name depth
              root_id None [] Hall) as [st ->].
  by eexists.
Qed.

Lemma load_relations_roots hgnc_group_ids rels r :
  load_relations hgnc_group_ids = Ok rels → r ∈ rels →
  ∃ info, families !! rel_root r = Some info ∧
          get_famplex_id info = Ok (rel_tid r).
Proof.
  intros Hload. revert r. apply Forall_forall.
  set (P := λ r : relation,
              ∃ info, families !! rel_root r = Some info ∧
                      get_famplex_id info = Ok (rel_tid r)).
  set (R := λ s s' : list relation, Forall P s → Forall P s').
  assert (Reflexive R) by (by intros s Hs).
  assert (Transitive R) by (intros s1 s2 s3 H12 H23 Hs; auto).
  apply (for_each_invariant _ R _ _ _) in Hload; [by apply Hload|].
  intros s1 root_id s2 _ (st & Hrun & [= <-])%bind_Ok Hs1.
  apply Forall_app. split; [done|].
  apply run_extends in Hrun as (new & lines & -> & Hnew). simpl.
  eapply Forall_impl; [exact Hnew|].
  intros r (F & _ & info & fid & src & Hinfo & Hid & [(-> & _)|(-> & _)]);
    by exists info.
Qed.

(** X22: the script body completes when every root can be flattened
    within the recursion limit, every family identifier of the catalogue
    is the decimal form of an integer, within the limit on the digits,
    every row of the store has five fields and every target of a gene row
    of the store has a gene row into the namespace ["FPLX"]. *)
Theorem main_completes (iter_s : list string → list string)
    (iter_r : list relation → list relation) (iter_z : list Z → list Z)
    hgnc_group_ids store :
  valid_order iter_s → valid_order iter_r → valid_order iter_z →
  Forall (λ root_id, can_flatten depth root_id = true) hgnc_group_ids →
  (∀ k, is_Some (families !! k) → decimal_form k) →
  Forall (λ row, length row = 5) store →
  (∀ g kind tns X, ["HGNC"; g; kind; tns; X] ∈ store →
                   ∃ g', store_genes store X g') →
  is_Ok (main families children family_to_gene get_hgnc_name iter_s iter_r
           iter_z depth hgnc_group_ids store).
Proof.
  intros Hs Hr Hz Hroots Hdecimal Hrows Hmembers.
  unfold main, main_relations.
  destruct (load_relations_is_Ok hgnc_group_ids Hroots) as [rels Hload].
  rewrite Hload. simpl.
  destruct (find_overlaps_is_Ok iter_s store (sort_relations iter_r rels))
    as [red ->]; [done..| |].
  { intros X (g & kind & tns & Hrow & _). by eapply Hmembers. }
  simpl.
  destruct (equivs_of_canonical_is_Ok families iter_z
              (drop_redundant red (sort_relations iter_r rels)))
    as [eqs Heqs]; [done| |].
  - intros r [Hin _]%elem_of_drop_redundant.
    rewrite sort_relations_perm, valid_order_elem in Hin by done.
    destruct (load_relations_roots _ _ _ Hload Hin) as (info & Hinfo & Hid).
    split; [apply Hdecimal; by eexists|]. by exists info.
  - unfold add_equivalences. rewrite Heqs. simpl. by eexists.
Qed.
End MainMore.

(** ** The redundancy exclusion *)

(** C1, as the code has it.  For a run whose relations are computed:
    - a derived relation is written exactly when its target is not marked
      by the detector, and the entities are the targets of the derived
      relations that are not marked;
    - when the sixth field of every written relation is the decimal form
      of an integer, within the limit on the digits, the equivalences are
      computed, their rows are the triples of ["HGNC_GROUP"], the sixth
      field and the target of the written relations, and a family has a
      row exactly when it is the target of a derived relation and is not
      marked;
    - the detector lists the touched pre-existing families with their
      genes in the store, and the touched derived families with the genes
      recorded for them in the gene-to-family dictionary, each list in
      ascending order of a representative member, and it marks a derived
      family exactly when the pre-existing family at the same position of
      the other list has the same gene set;
    - the genes recorded for a derived family are genes derived for it,
      and all of them when no gene is derived for two families;
    - so a marked family has a touched pre-existing family with exactly
      the genes recorded for it, and when one pre-existing family and one
      derived family are touched, the derived family is marked if and only
      if the two gene sets are equal. *)
Theorem redundancy_exclusion families children family_to_gene get_hgnc_name
    (iter_s : list string → list string)
    (iter_r : list relation → list relation) (iter_z : list Z → list Z)
    depth hgnc_group_ids store final :
  valid_order iter_s → valid_order iter_r → valid_order iter_z →
  main_relations families children family_to_gene get_hgnc_name iter_s
    iter_r depth hgnc_group_ids store = Ok final →
  ∃ rels red,
    load_relations families children family_to_gene get_hgnc_name depth
      hgnc_group_ids = Ok rels ∧
    find_overlaps iter_s store (sort_relations iter_r rels) = Ok red ∧
    (∀ r, r ∈ final ↔ r ∈ rels ∧ rel_tid r ∉ red) ∧
    (∀ Y, Y ∈ entities_of iter_s final
          ↔ (∃ r, r ∈ rels ∧ rel_tid r = Y) ∧ Y ∉ red) ∧
    ((∀ r, r ∈ final → decimal_form (rel_root r)) →
     ∃ eqs,
       equivs_of families iter_z final = Ok eqs ∧
       (∀ row, row ∈ eqs
               ↔ ∃ r, r ∈ final ∧
                      row = ["HGNC_GROUP"; rel_root r; rel_tid r]) ∧
       (∀ Y, (∃ root_id, ["HGNC_GROUP"; root_id; Y] ∈ eqs)
             ↔ (∃ r, r ∈ rels ∧ rel_tid r = Y) ∧ Y ∉ red)) ∧
    (∃ fplx hgnc,
       listed_by_representative iter_s
         (touched (gene_names_of (sort_relations iter_r rels)) store)
         (store_genes store) fplx ∧
       listed_by_representative iter_s
         (touched_derived (gene_names_of (sort_relations iter_r rels)) store)
         (recorded_genes (gene_names_of (sort_relations iter_r rels))) hgnc ∧
       ∀ Y, Y ∈ red ↔ marked_at_same_position fplx hgnc Y) ∧
    (∀ Y g,
       (recorded_genes (gene_names_of (sort_relations iter_r rels)) Y g →
        derived_genes rels Y g) ∧
       ((∀ g' Y1 Y2, derived_genes rels Y1 g' → derived_genes rels Y2 g' →
                     Y1 = Y2) →
        derived_genes rels Y g →
        recorded_genes (gene_names_of (sort_relations iter_r rels)) Y g)) ∧
    (∀ Y, Y ∈ red →
       ∃ X, touched (gene_names_of (sort_relations iter_r rels)) store X ∧
            ∀ g, store_genes store X g
                 ↔ recorded_genes (gene_names_of (sort_relations iter_r rels))
                     Y g) ∧
    (∀ X Y,
       (∀ X', touched (gene_names_of (sort_relations iter_r rels)) store X'
              ↔ X' = X) →
       (∀ Y', touched_derived (gene_names_of (sort_relations iter_r rels))
                store Y' ↔ Y' = Y) →
       Y ∈ red ↔
       (∀ g, store_genes store X g
             ↔ recorded_genes (gene_names_of (sort_relations iter_r rels))
                 Y g)).
Proof.
  intros iter_s_valid iter_r_valid iter_z_valid.
  unfold main_relations. intros (rels & Hload & H)%bind_Ok.
  apply bind_Ok in H as (red & Hred & [= <-]).
  assert (∀ r, r ∈ sort_relations iter_r rels ↔ r ∈ rels) as Hsorted.
  { intros r. by rewrite sort_relations_perm, valid_order_elem. }
  assert (∀ r, r ∈ drop_redundant red (sort_relations iter_r rels)
               ↔ r ∈ rels ∧ rel_tid r ∉ red) as Hfinal.
  { intros r. by rewrite elem_of_drop_redundant, Hsorted. }
  assert (∀ Y g, derived_genes (sort_relations iter_r rels) Y g
                 ↔ derived_genes rels Y g) as Hder.
  { intros Y g. unfold derived_genes. by setoid_rewrite Hsorted. }
  exists rels, red. split_and!; [done..| | | | | |].
  - intros Y. rewrite elem_of_entities_of by done. split.
    + intros (r & [Hr Hnot]%Hfinal & <-). split; [by exists r|done].
    + intros ((r & Hr & <-) & Hnot). exists r. split; [|done].
      by apply Hfinal.
  - intros Hdecimal.
    destruct (equivs_of_canonical_rows families iter_z
                (drop_redundant red (sort_relations iter_r rels)))
      as (eqs & Heqs & Hrows); [done| |].
    { intros r Hr. split; [by apply Hdecimal|].
      apply Hfinal in Hr as [Hr _]. by eapply load_relations_roots. }
    exists eqs. split_and!; [done..|]. intros Y. split.
    + intros (root_id & (r & [Hr Hnot]%Hfinal & [= -> ->])%Hrows).
      split; [by exists r|done].
    + intros ((r & Hr & <-) & Hnot). exists (rel_root r). apply Hrows.
      exists r. split; [|done]. by apply Hfinal.
  - by eapply find_overlaps_positional.
  - intros Y g.
    destruct (recorded_genes_derived (sort_relations iter_r rels) Y g)
      as [H1 H2].
    split.
    + intros Hrec. by apply Hder, H1.
    + intros Hone Hd. apply H2; [|by apply Hder].
      intros g' Y1 Y2 ?%Hder ?%Hder. by eapply Hone.
  - intros Y HY. by eapply marked_sound.
  - intros X Y HX HY. by eapply marked_single.
Qed.

Lemma redundancy_exclusion_witness :
  ∃ rels red,
    load_relations dup_families ∅ dup_family_to_gene (λ g, dup_names !! g) 5
      ["1"; "2"] = Ok rels ∧
    find_overlaps remove_dups [["HGNC"; "A"; "isa"; "FPLX"; "XA"]]
      (sort_relations remove_dups rels) = Ok red ∧
    (∀ r, r ∈ [("HGNC", "C", "isa", "FPLX", "YC", "2")]
          ↔ r ∈ rels ∧ rel_tid r ∉ red) ∧
    (∃ eqs,
       equivs_of dup_families remove_dups
         [("HGNC", "C", "isa", "FPLX", "YC", "2")] = Ok eqs ∧
       ∀ Y, (∃ root_id, ["HGNC_GROUP"; root_id; Y] ∈ eqs)
            ↔ (∃ r, r ∈ rels ∧ rel_tid r = Y) ∧ Y ∉ red) ∧
    ("YA" ∈ red ↔
     (∀ g, store_genes [["HGNC"; "A"; "isa"; "FPLX"; "XA"]] "XA" g
           ↔ recorded_genes (gene_names_of (sort_relations remove_dups rels))
               "YA" g)).
Proof.
  destruct (redundancy_exclusion dup_families ∅ dup_family_to_gene
              (λ g, dup_names !! g) remove_dups remove_dups remove_dups 5
              ["1"; "2"] [["HGNC"; "A"; "isa"; "FPLX"; "XA"]]
              [("HGNC", "C", "isa", "FPLX", "YC", "2")]
              remove_dups_valid remove_dups_valid remove_dups_valid)
    as (rels & red & Hload & Hred & Hfinal & _ & Hequivs & _ & _ & _
        & Hsingle).
  - vm_compute. reflexivity.
  - exists rels, red. split_and!; [done..| |].
    + destruct Hequivs as (eqs & Heqs & _ & Hrows).
      * intros r Hr. apply list_elem_of_singleton in Hr as ->.
        exists 2%Z. split; [reflexivity|by vm_compute].
      * by exists eqs.
    + vm_compute in Hload. injection Hload as <-. apply Hsingle.
      * intros X'. split.
        -- intros (g & kind & tns & Hrow & _).
           apply list_elem_of_singleton in Hrow. by injection Hrow.
        -- intros ->. exists "A", "isa", "FPLX". split; [left|].
           vm_compute. by eexists.
      * intros Y'. split.
        -- intros (g & kind & tns & X & Hrow & Hget).
           apply list_elem_of_singleton in Hrow. injection Hrow as -> _ _ _.
           vm_compute in Hget. by injection Hget.
        -- intros ->. exists "A", "isa", "FPLX", "XA". split; [left|].
           vm_compute. reflexivity.
Defined.

(** Three runs in which the exclusion does not follow the gene sets.
    - The pre-existing family ["XC"] and the derived family ["YC"] both
      have the gene set [{"C"}]; ["YC"] is written all the same, because
      the positional pairing compares it with another family.
    - The derived family ["YA"] has the genes ["A"] and ["C"], the
      pre-existing family ["XA"] the gene ["A"] alone; ["YA"] is excluded
      all the same, because the gene ["C"], which is also derived for
      ["YC"], is recorded for ["YC"] only.
    - The family ["YA"] is marked and its relations are excluded, but the
      sixth field ["01"] of the written relation is looked up as ["1"], so
      the equivalences hold the row of ["YA"] and none of ["YC"]. *)
Lemma exclusion_is_not_by_gene_set :
  (load_relations dup_families ∅ dup_family_to_gene (λ g, dup_names !! g) 5
     ["1"; "2"]
   = Ok [("HGNC", "A", "isa", "FPLX", "YA", "1");
         ("HGNC", "C", "isa", "FPLX", "YC", "2")] ∧
   (∀ g, store_genes dup_store "XC" g ↔ g = "C") ∧
   main_relations dup_families ∅ dup_family_to_gene (λ g, dup_names !! g)
     remove_dups remove_dups 5 ["1"; "2"] dup_store
   = Ok [("HGNC", "C", "isa", "FPLX", "YC", "2")]) ∧
  (load_relations dup_families ∅ common_family_to_gene
     (λ g, dup_names !! g) 5 ["1"; "2"]
   = Ok [("HGNC", "A", "isa", "FPLX", "YA", "1");
         ("HGNC", "C", "isa", "FPLX", "YA", "1");
         ("HGNC", "C", "isa", "FPLX", "YC", "2")] ∧
   derived_genes [("HGNC", "A", "isa", "FPLX", "YA", "1");
                  ("HGNC", "C", "isa", "FPLX", "YA", "1");
                  ("HGNC", "C", "isa", "FPLX", "YC", "2")] "YA" "C" ∧
   (∀ g, store_genes [["HGNC"; "A"; "isa"; "FPLX"; "XA"]] "XA" g
         ↔ g = "A") ∧
   main_relations dup_families ∅ common_family_to_gene
     (λ g, dup_names !! g) remove_dups remove_dups 5 ["1"; "2"]
     [["HGNC"; "A"; "isa"; "FPLX"; "XA"]]
   = Ok [("HGNC", "C", "isa", "FPLX", "YC", "2")]) ∧
  (load_relations pad_families ∅ pad_family_to_gene (λ g, dup_names !! g) 5
     ["1"; "01"]
   = Ok [("HGNC", "A", "isa", "FPLX", "YA", "1");
         ("HGNC", "C", "isa", "FPLX", "YC", "01")] ∧
   find_overlaps remove_dups [["HGNC"; "A"; "isa"; "FPLX"; "XA"]]
     (sort_relations remove_dups
        [("HGNC", "A", "isa", "FPLX", "YA", "1");
         ("HGNC", "C", "isa", "FPLX", "YC", "01")]) = Ok ["YA"] ∧
   main_relations pad_families ∅ pad_family_to_gene (λ g, dup_names !! g)
     remove_dups remove_dups 5 ["1"; "01"]
     [["HGNC"; "A"; "isa"; "FPLX"; "XA"]]
   = Ok [("HGNC", "C", "isa", "FPLX", "YC", "01")] ∧
   equivs_of pad_families remove_dups
     [("HGNC", "C", "isa", "FPLX", "YC", "01")]
   = Ok [["HGNC_GROUP"; "1"; "YA"]]).
Proof.
  split_and!; try (vm_compute; reflexivity).
  - intros g. unfold store_genes, dup_store. split.
    + intros (kind & Hrow).
      repeat (apply elem_of_cons in Hrow as [Hrow|Hrow]);
        try (by injection Hrow). by apply elem_of_nil in Hrow.
    + intros ->. exists "isa". right. right. left.
  - eexists. split; [right; left|]. done.
  - intros g. unfold store_genes. split.
    + intros (kind & Hrow). apply list_elem_of_singleton in Hrow.
      by injection Hrow.
    + intros ->. exists "isa". left.
Qed.

(** ** Instances of the further properties *)

Lemma flatten_relations_shape_witness :
  Forall (λ r, rel_kind r = "isa" ∧ rel_tns r = "FPLX" ∧
               (rel_sns r = "HGNC" →
                ∃ g, ex_get_hgnc_name g = Some (rel_sid r)))
    ex_relations.
Proof.
  apply Forall_forall.
  destruct (flatten_relations_shape ex_families ex_children ex_family_to_gene
              ex_get_hgnc_name 5 "1" None [] ex_relations ex_lines)
    as (new & lines & Hnew & _ & Hshape).
  - vm_compute. reflexivity.
  - simpl in Hnew. subst new. intros r Hr.
    destruct (Hshape r Hr) as (Hkind & Htns & _ & _ & Hsrc).
    split_and!; [done..|]. intros Hsns.
    destruct Hsrc as [(_ & _ & g & Hg & _)|[Hf _]]; [by exists g|congruence].
Defined.

Lemma flatten_depth_monotone_witness :
  ex_run 9 "1" None [] = Ok (ex_relations, ex_lines).
Proof.
  apply (flatten_depth_monotone ex_families ex_children ex_family_to_gene
           ex_get_hgnc_name 5 9 "1" None []).
  - lia.
  - vm_compute. reflexivity.
Defined.

Lemma cyclic_hierarchy_never_returns_witness :
  match get_relations_from_root cyc_families cyc_children ∅ (λ _, None) 7
          "1" None [] with
  | Ok _ => False
  | Raise _ => True
  end.
Proof.
  destruct (get_relations_from_root cyc_families cyc_children ∅ (λ _, None)
              7 "1" None []) as [st|e] eqn:Hrun; [|exact I].
  apply (cyclic_hierarchy_never_returns cyc_families cyc_children ∅
           (λ _, None) 7 "1" "1" None []); [| |by exists st].
  - apply rtc_refl.
  - apply tc_once. exists ["1"]. split; [reflexivity|].
    split; [left|reflexivity].
Defined.

Lemma read_hgnc_family_genes_spec_witness :
  ∃ gene_to_family family_to_gene,
    _read_hgnc_family_genes [["g1"; "1"]; ["g2"; "1"]; ["g1"; "2"]]
    = Ok (gene_to_family, family_to_gene) ∧
    family_to_gene !! "1" = Some ["g1"; "g2"] ∧
    gene_to_family !! "g1" = Some ["1"; "2"].
Proof.
  destruct (read_hgnc_family_genes_spec
              [["g1"; "1"]; ["g2"; "1"]; ["g1"; "2"]])
    as (g2f & f2g & Hrun & Hg & Hf & _).
  - repeat constructor.
  - exists g2f, f2g. split; [exact Hrun|].
    split; [rewrite Hf|rewrite Hg]; reflexivity.
Defined.

Lemma read_hierarchy_info_spec_witness :
  ∃ children,
    _read_hierarchy_info [["parent"; "child"]; ["1"; "2"]; ["1"; "3"]]
    = Ok children ∧
    children !! "1" = Some ["2"; "3"] ∧ children !! "2" = None.
Proof.
  destruct (read_hierarchy_info_spec ["parent"; "child"]
              [["1"; "2"]; ["1"; "3"]]) as (ch & Hrun & Hch & _).
  - repeat constructor.
  - exists ch. split; [exact Hrun|]. rewrite !Hch. split; reflexivity.
Defined.

Lemma read_family_info_field_witness :
  ∃ families record,
    _read_family_info [["id"; "abbreviation"; "name"]; ["7"; "AB"]]
    = Ok families ∧
    families !! "7" = Some record ∧
    record !! "name" = None.
Proof.
  apply (read_family_info_field ["id"; "abbreviation"; "name"]
           [["7"; "AB"]] [] ["7"; "AB"] [] "7" ["AB"] 2 "name").
  - apply (bool_decide_unpack _). vm_compute. exact I.
  - repeat constructor. discriminate.
  - reflexivity.
  - reflexivity.
  - intros r Hr. inversion Hr.
  - reflexivity.
Defined.

Lemma famplex_id_from_name_chars_witness :
  Forall (λ x, x ≠ " "%char ∧ x ≠ "-"%char ∧ x ≠ ","%char)
    (Str.to_list "Foo_Bar_Baz").
Proof.
  apply Forall_forall. intros x Hx.
  apply (famplex_id_from_name_chars (fam_record EmptyString "Foo Bar, Baz")
           "Foo_Bar_Baz" x).
  - reflexivity.
  - vm_compute. reflexivity.
  - exact Hx.
Defined.

Lemma find_overlaps_returns_iff_witness :
  is_Ok (find_overlaps remove_dups dup_store dup_relations) ↔
  Forall (λ row, length row = 5) dup_store ∧
  ∀ X, touched (gene_names_of dup_relations) dup_store X →
       ∃ g, store_genes dup_store X g.
Proof.
  apply (find_overlaps_returns_iff remove_dups dup_store dup_relations).
  apply remove_dups_valid.
Defined.

Lemma marked_is_derived_witness :
  ∃ r row, r ∈ dup_relations ∧ rel_sns r = "HGNC" ∧ rel_tid r = "YA" ∧
           row ∈ dup_store ∧ row !! 0 = Some "HGNC" ∧
           row !! 1 = Some (rel_sid r).
Proof.
  apply (marked_is_derived remove_dups dup_store dup_relations ["YA"] "YA"
           remove_dups_valid).
  - vm_compute. reflexivity.
  - left.
Defined.

Lemma untouched_store_marks_nothing_witness :
  find_overlaps remove_dups [["HGNC"; "Z"; "isa"; "FPLX"; "XZ"]]
    dup_relations = Ok [].
Proof.
  apply (untouched_store_marks_nothing remove_dups
           [["HGNC"; "Z"; "isa"; "FPLX"; "XZ"]] dup_relations
           remove_dups_valid).
  - repeat constructor.
  - intros g kind tns X Hrow. apply list_elem_of_singleton in Hrow.
    injection Hrow as -> _ _ _. reflexivity.
Defined.

Lemma entities_of_spec_witness :
  NoDup (entities_of remove_dups ex_relations) ∧
  StronglySorted (λ a b, (a ≤ b)%string) (entities_of remove_dups ex_relations) ∧
  ∀ Y, Y ∈ entities_of remove_dups ex_relations
       ↔ ∃ r, r ∈ ex_relations ∧ rel_tid r = Y.
Proof.
  apply (entities_of_spec remove_dups ex_relations remove_dups_valid).
Defined.

Lemma main_relations_sorted_witness :
  NoDup [("HGNC", "C", "isa", "FPLX", "YC", "2") : relation] ∧
  StronglySorted (λ a b, key_le (rel_key a) (rel_key b))
    [("HGNC", "C", "isa", "FPLX", "YC", "2") : relation].
Proof.
  apply (main_relations_sorted dup_families ∅ dup_family_to_gene
           (λ g, dup_names !! g) remove_dups remove_dups 5 ["1"; "2"]
           dup_store _ remove_dups_valid).
  vm_compute. reflexivity.
Defined.

Lemma equivs_of_spec_witness :
  ∃ ids,
    StronglySorted Z.lt ids ∧
    (∀ n, n ∈ ids ↔ ∃ r, r ∈ dup_relations ∧ py_int (rel_root r) = Ok n) ∧
    Forall2 (λ n row, ∃ fam fid, dup_families !! py_str n = Some fam ∧
                                 get_famplex_id fam = Ok fid ∧
                                 row = ["HGNC_GROUP"; py_str n; fid])
      ids [["HGNC_GROUP"; "1"; "YA"]; ["HGNC_GROUP"; "2"; "YC"]].
Proof.
  apply (equivs_of_spec dup_families remove_dups dup_relations _
           remove_dups_valid).
  vm_compute. reflexivity.
Defined.

Lemma equivs_of_not_a_number_witness :
  equivs_of dup_families remove_dups
    [("HGNC", "A", "isa", "FPLX", "YA", "x1")] = Raise ValueError.
Proof.
  apply (equivs_of_not_a_number dup_families remove_dups _
           ("HGNC", "A", "isa", "FPLX", "YA", "x1")).
  - left.
  - vm_compute. reflexivity.
Defined.

Lemma equivs_of_canonical_witness :
  ∃ eqs,
    equivs_of dup_families remove_dups dup_relations = Ok eqs ∧
    ∀ row, row ∈ eqs
           ↔ ∃ r, r ∈ dup_relations ∧
                  row = ["HGNC_GROUP"; rel_root r; rel_tid r].
Proof.
  apply (equivs_of_canonical dup_families remove_dups dup_relations
           remove_dups_valid).
  intros r Hr. apply elem_of_cons in Hr as [->|Hr].
  - split; [exists 1%Z; split; [reflexivity|by vm_compute]|].
    exists (fam_record "YA" "Family a"). split; reflexivity.
  - apply list_elem_of_singleton in Hr as ->.
    split; [exists 2%Z; split; [reflexivity|by vm_compute]|].
    exists (fam_record "YC" "Family c"). split; reflexivity.
Defined.

Lemma main_completes_witness :
  is_Ok (main ex_families ex_children ex_family_to_gene ex_get_hgnc_name
           remove_dups remove_dups remove_dups 5 ["1"] dup_store).
Proof.
  apply (main_completes ex_families ex_children ex_family_to_gene
           ex_get_hgnc_name 5 remove_dups remove_dups remove_dups ["1"]
           dup_store remove_dups_valid remove_dups_valid remove_dups_valid).
  - constructor; [vm_compute; reflexivity|constructor].
  - intros k Hk. unfold ex_families in Hk.
    destruct (decide (k = "1")) as [->|H1];
      [exists 1%Z; split; [reflexivity|by vm_compute]|].
    destruct (decide (k = "2")) as [->|H2];
      [exists 2%Z; split; [reflexivity|by vm_compute]|].
    destruct (decide (k = "3")) as [->|H3];
      [exists 3%Z; split; [reflexivity|by vm_compute]|].
    rewrite !lookup_insert_ne, lookup_empty in Hk by done.
    by destruct Hk.
  - repeat constructor.
  - intros g kind tns X Hrow. unfold dup_store in Hrow.
    repeat (apply elem_of_cons in Hrow as [Hrow|Hrow]).
    + injection Hrow as _ _ _ ->. exists "A", "isa". left.
    + injection Hrow as _ _ _ ->. exists "A", "isa". right. left.
    + injection Hrow as _ _ _ ->. exists "C", "isa". right. right. left.
    + by apply elem_of_nil in Hrow.
Defined.
